(** * Verification of the surrealcode analysis engine (analysis/analyzer.go)

    A shallow embedding of the parts of [analysis/analyzer.go] that build
    the call graph, detect recursion (Tarjan's SCC), detect dead code and
    duplicated bodies, and compute the complexity metrics; with theorems
    on their behaviour. *)

From Stdlib Require Import Reals Lra Ascii.
From stdpp Require Import base gmap strings list fin_maps sorting.



(* ------------------------------------------------------------------ *)
(** ** Data model (types/models.go) *)

(** The part of [types.FunctionMetrics] that the modelled claims read;
    [LinesOfCode], [HalsteadMetrics], [CognitiveComplexity], [Readability]
    and [Maintainability] are computed by the functions of the same names
    below and are left out of the record. *)
Record FunctionMetrics := {
  CyclomaticComplexity : nat;
  IsUnused : bool
}.

(** [types.FunctionCall]; [ID], [IsInterface], [IsStruct], [IsGlobal],
    [ReferencedGlobals] and [Dependencies] are never read by the
    modelled code and are left out. *)
Record FunctionCall := {
  Caller : string;
  Callees : list string;
  File : string;
  Package : string;
  Params : list string;
  Returns : list string;
  IsMethod : bool;
  IsRecursive : bool;
  IsDuplicate : bool;
  Struct : string;
  Metrics : FunctionMetrics
}.

(** [fn.IsRecursive = true]. *)
Definition set_IsRecursive (fn : FunctionCall) : FunctionCall :=
  {| Caller := Caller fn; Callees := Callees fn; File := File fn;
     Package := Package fn; Params := Params fn; Returns := Returns fn;
     IsMethod := IsMethod fn; IsRecursive := true;
     IsDuplicate := IsDuplicate fn; Struct := Struct fn;
     Metrics := Metrics fn |}.

(* ------------------------------------------------------------------ *)
(** ** detectRecursion (analyzer.go, lines 900-963) *)

(** [functionNode]; Go keeps a pointer to it in [recData], so the updates
    of [rec.lowlink] and [recData[n].inStack] are updates of the map. *)
Record functionNode := {
  fn_name : string;
  fn_index : nat;
  fn_lowlink : nat;
  fn_inStack : bool
}.

(** The variables captured by the [tarjan] closure.  The Go slice
    [stack] grows at its end; here the top of the stack is the head of
    the list. *)
Record tstate := {
  t_index : nat;
  t_stack : list string;
  t_recData : gmap string functionNode;
  t_functions : gmap string FunctionCall
}.

Definition with_functions (s : tstate) (m : gmap string FunctionCall) : tstate :=
  {| t_index := t_index s; t_stack := t_stack s; t_recData := t_recData s;
     t_functions := m |}.

(** [rec.lowlink = min(rec.lowlink, v)] for the record of [caller]. *)
Definition update_lowlink (caller : string) (v : nat) (s : tstate) : tstate :=
  match t_recData s !! caller with
  | Some r =>
      {| t_index := t_index s; t_stack := t_stack s;
         t_recData := <[caller := {| fn_name := fn_name r; fn_index := fn_index r;
                                     fn_lowlink := Nat.min (fn_lowlink r) v;
                                     fn_inStack := fn_inStack r |}]> (t_recData s);
         t_functions := t_functions s |}
  | None => s
  end.

Definition clear_inStack (d : functionNode) : functionNode :=
  {| fn_name := fn_name d; fn_index := fn_index d; fn_lowlink := fn_lowlink d;
     fn_inStack := false |}.

(** The [for { n := stack[len(stack)-1]; ... if n == caller { break } }]
    loop: pops up to and including [caller], clearing [inStack] and
    collecting [sccNodes].  The caller is always on the stack here; on an
    empty stack Go would panic, which this model does not reach. *)
Fixpoint pop_scc (caller : string) (stk : list string)
    (rd : gmap string functionNode) (acc : list string)
    : list string * list string * gmap string functionNode :=
  match stk with
  | [] => (acc, [], rd)
  | n :: stk' =>
      let rd' := alter clear_inStack n rd in
      let acc' := acc ++ [n] in
      if String.eqb n caller then (acc', stk', rd') else pop_scc caller stk' rd' acc'
  end.

(** [for _, n := range sccNodes { if fn, exists := functions[n]; exists {
    fn.IsRecursive = true; functions[n] = fn } }] *)
Definition mark_all (nodes : list string) (fns : gmap string FunctionCall)
    : gmap string FunctionCall :=
  fold_left (fun m n =>
    match m !! n with
    | Some fn => <[n := set_IsRecursive fn]> m
    | None => m
    end) nodes fns.

(** The block after the callee loop: [if rec.lowlink == rec.index { ... }]. *)
Definition finish (caller : string) (s : tstate) : tstate :=
  match t_recData s !! caller with
  | Some r =>
      if Nat.eqb (fn_lowlink r) (fn_index r) then
        let '(sccNodes, stk', rd') := pop_scc caller (t_stack s) (t_recData s) [] in
        {| t_index := t_index s; t_stack := stk'; t_recData := rd';
           t_functions := if Nat.ltb 1 (length sccNodes)
                          then mark_all sccNodes (t_functions s)
                          else t_functions s |}
      else s
  | None => s
  end.

(** The loop [for _, callee := range fn.Callees] of the closure [tarjan],
    with [fn] the local copy of [functions[caller]] taken at entry and
    [tarjan_rec] the recursive call [tarjan(callee)]. *)
Fixpoint visit (tarjan_rec : string -> tstate -> tstate) (caller : string)
    (fn : FunctionCall) (cs : list string) (s : tstate) : tstate :=
  match cs with
  | [] => s
  | callee :: cs' =>
      if String.eqb callee caller then
        let fn' := set_IsRecursive fn in
        visit tarjan_rec caller fn' cs' (with_functions s (<[caller := fn']> (t_functions s)))
      else
        match t_recData s !! callee with
        | None =>
            let s' := tarjan_rec callee s in
            match t_recData s' !! callee with
            | Some d => visit tarjan_rec caller fn cs' (update_lowlink caller (fn_lowlink d) s')
            | None => visit tarjan_rec caller fn cs' s'
            end
        | Some data =>
            if fn_inStack data
            then visit tarjan_rec caller fn cs' (update_lowlink caller (fn_index data) s)
            else visit tarjan_rec caller fn cs' s
        end
  end.

(** [tarjan(caller)]: push a fresh record, run the callee loop, pop the
    component if [caller] is its root.  Go recursion has no bound; [fuel]
    bounds the depth, and [detectRecursion] passes a fuel that is never
    exhausted (lemma [tarjan_post] below carries the bound). *)
Definition push (caller : string) (s : tstate) : tstate :=
  {| t_index := S (t_index s); t_stack := caller :: t_stack s;
     t_recData := <[caller := {| fn_name := caller; fn_index := t_index s;
                                 fn_lowlink := t_index s; fn_inStack := true |}]>
                    (t_recData s);
     t_functions := t_functions s |}.

Fixpoint tarjan (fuel : nat) (caller : string) (s : tstate) {struct fuel} : tstate :=
  match fuel with
  | O => s
  | S fuel' =>
      let s1 := push caller s in
      let s2 :=
        match t_functions s1 !! caller with
        | Some fn => visit (tarjan fuel') caller fn (Callees fn) s1
        | None => s1
        end in
      finish caller s2
  end.

Definition tarjan_init (fns : gmap string FunctionCall) : tstate :=
  {| t_index := 0; t_stack := []; t_recData := ∅; t_functions := fns |}.

(** [for caller := range functions { if _, found := recData[caller]; !found {
    tarjan(caller) } }] over the keys in the order [order]; Go's map
    iteration order is unspecified, so the theorems hold for every order. *)
Definition detect_step (fns : gmap string FunctionCall) (s : tstate) (caller : string)
    : tstate :=
  match t_recData s !! caller with
  | Some _ => s
  | None => tarjan (S (size fns)) caller s
  end.

Definition detectRecursion_in (order : list string) (fns : gmap string FunctionCall)
    : gmap string FunctionCall :=
  t_functions (fold_left (detect_step fns) order (tarjan_init fns)).

Definition detectRecursion (fns : gmap string FunctionCall) : gmap string FunctionCall :=
  detectRecursion_in (map fst (map_to_list fns)) fns.

(* ------------------------------------------------------------------ *)
(** ** Correctness of detectRecursion *)

Section Tarjan.

(** The input map of [detectRecursion]; the call graph is read from it. *)
Variable g0 : gmap string FunctionCall.

(** A call edge [x -> y]: [y] is listed as a callee of [x], and is not [x]
    itself (the callee loop handles self-calls apart). *)
Definition cedge (x y : string) : Prop :=
  exists f, g0 !! x = Some f /\ y ∈ Callees f /\ y <> x.

Definition reach : string -> string -> Prop := rtc cedge.

Definition selfloop (x : string) : Prop :=
  exists f, g0 !! x = Some f /\ x ∈ Callees f.

(** [x] lies on a cycle through some other node [y]. *)
Definition nontriv (x : string) : Prop :=
  exists y, y <> x /\ reach x y /\ reach y x.

Definition vis (s : tstate) (x : string) : Prop := is_Some (t_recData s !! x).

Definition ix (s : tstate) (x : string) : nat :=
  match t_recData s !! x with Some d => fn_index d | None => 0 end.

Definition low (s : tstate) (x : string) : nat :=
  match t_recData s !! x with Some d => fn_lowlink d | None => 0 end.

Definition measure (s : tstate) : nat :=
  length (filter (fun k => k ∉ dom (t_recData s)) (elements (dom g0))).

Record Inv (s : tstate) (gr : list string) : Prop := {
  inv_fns : forall k, t_functions s !! k = g0 !! k \/
      exists f, g0 !! k = Some f /\ t_functions s !! k = Some (set_IsRecursive f);
  inv_stack : forall x, x ∈ t_stack s <->
      exists d, t_recData s !! x = Some d /\ fn_inStack d = true;
  inv_index : forall x d, t_recData s !! x = Some d ->
      fn_index d < t_index s /\ fn_lowlink d <= fn_index d;
  inv_gray : forall x, x ∈ gr -> x ∈ t_stack s;
  inv_up : forall x y, x ∈ gr -> y ∈ t_stack s -> ix s x <= ix s y -> reach x y;
  inv_down : forall y, y ∈ t_stack s -> exists x, x ∈ gr /\ ix s x <= ix s y /\ reach y x;
  inv_black : forall x y, vis s x -> x ∉ gr -> cedge x y -> vis s y;
  inv_done : forall x y, vis s x -> x ∉ t_stack s -> cedge x y -> y ∉ t_stack s;
  inv_mark : forall x f f', x ∉ gr -> g0 !! x = Some f -> t_functions s !! x = Some f' ->
      (IsRecursive f' = true <-> IsRecursive f = true \/ (vis s x /\ selfloop x) \/
                                 (vis s x /\ (x ∉ t_stack s) /\ nontriv x))
}.

(** *** Basic facts on the state operations *)

Lemma set_IsRecursive_idem f : set_IsRecursive (set_IsRecursive f) = set_IsRecursive f.
Proof. reflexivity. Qed.

Lemma set_IsRecursive_Callees f : Callees (set_IsRecursive f) = Callees f.
Proof. reflexivity. Qed.

Lemma vis_push v s x : vis (push v s) x <-> x = v \/ vis s x.
Proof.
  unfold vis, push; simpl. destruct (decide (x = v)) as [->|Hne].
  - rewrite lookup_insert_eq. split; [auto|intros _; eauto].
  - rewrite lookup_insert_ne by congruence. intuition.
Qed.

Lemma ix_push v s x : ix (push v s) x = if decide (x = v) then t_index s else ix s x.
Proof.
  unfold ix, push; simpl. destruct (decide (x = v)) as [->|Hne].
  - by rewrite lookup_insert_eq.
  - by rewrite lookup_insert_ne by congruence.
Qed.

Lemma rd_update_lowlink u v s x :
  t_recData (update_lowlink u v s) !! x =
  if decide (x = u) then
    (fun r => {| fn_name := fn_name r; fn_index := fn_index r;
                 fn_lowlink := Nat.min (fn_lowlink r) v; fn_inStack := fn_inStack r |})
      <$> t_recData s !! u
  else t_recData s !! x.
Proof.
  unfold update_lowlink. destruct (t_recData s !! u) as [r|] eqn:Hu; simpl.
  - destruct (decide (x = u)) as [->|Hne].
    + by rewrite lookup_insert_eq.
    + by rewrite lookup_insert_ne by congruence.
  - destruct (decide (x = u)) as [->|]; [exact Hu|done].
Qed.

Lemma update_lowlink_other u v s :
  t_index (update_lowlink u v s) = t_index s /\
  t_stack (update_lowlink u v s) = t_stack s /\
  t_functions (update_lowlink u v s) = t_functions s.
Proof. unfold update_lowlink. by destruct (t_recData s !! u). Qed.

Lemma vis_update_lowlink u v s x : vis (update_lowlink u v s) x <-> vis s x.
Proof.
  unfold vis. rewrite rd_update_lowlink. destruct (decide (x = u)) as [->|]; [|done].
  destruct (t_recData s !! u); simpl; split; intros H; eauto; inversion H; done.
Qed.

Lemma ix_update_lowlink u v s x : ix (update_lowlink u v s) x = ix s x.
Proof.
  unfold ix. rewrite rd_update_lowlink. destruct (decide (x = u)) as [->|]; [|done].
  by destruct (t_recData s !! u).
Qed.

Lemma pop_scc_spec u M rest rd acc :
  u ∉ M ->
  pop_scc u (M ++ u :: rest) rd acc =
  (acc ++ M ++ [u], rest,
   foldl (fun r n => alter clear_inStack n r) rd (M ++ [u])).
Proof.
  revert rd acc. induction M as [|n M IH]; intros rd acc HM; simpl.
  - by rewrite String.eqb_refl.
  - assert (n <> u) by (intros ->; apply HM; left).
    destruct (String.eqb n u) eqn:E; [apply String.eqb_eq in E; congruence|].
    rewrite IH by (intros Hin; apply HM; by right).
    by rewrite <- app_assoc.
Qed.

Lemma foldl_alter_lookup (l : list string) (rd : gmap string functionNode) x :
  foldl (fun r n => alter clear_inStack n r) rd l !! x =
  if decide (x ∈ l) then clear_inStack <$> rd !! x else rd !! x.
Proof.
  revert rd. induction l as [|n l IH]; intros rd; simpl.
  - destruct (decide (x ∈ [])) as [H|]; [inversion H|done].
  - rewrite IH. destruct (decide (n = x)) as [<-|Hne].
    + rewrite lookup_alter_eq.
      destruct (decide (n ∈ n :: l)) as [_|Hc]; [|exfalso; apply Hc; left].
      destruct (decide (n ∈ l)); [|done]. by destruct (rd !! n).
    + rewrite lookup_alter_ne by done.
      assert (x ∈ n :: l <-> x ∈ l) as Hiff.
      { rewrite elem_of_cons. split; [intros [->|]; [congruence|done]|auto]. }
      destruct (decide (x ∈ l)); destruct (decide (x ∈ n :: l)); tauto.
Qed.

Lemma mark_all_lookup (l : list string) (m : gmap string FunctionCall) x :
  mark_all l m !! x = if decide (x ∈ l) then set_IsRecursive <$> m !! x else m !! x.
Proof.
  unfold mark_all. revert m. induction l as [|n l IH]; intros m; simpl.
  - destruct (decide (x ∈ [])) as [H|]; [inversion H|done].
  - rewrite IH.
    destruct (m !! n) as [fn|] eqn:Hn.
    + destruct (decide (n = x)) as [->|Hne].
      * rewrite lookup_insert_eq, Hn.
        destruct (decide (x ∈ l)); destruct (decide (x ∈ x :: l)) as [|Hc];
          [done|exfalso; apply Hc; left|done|exfalso; apply Hc; left].
      * rewrite lookup_insert_ne by congruence.
        destruct (decide (x ∈ l)); destruct (decide (x ∈ n :: l)) as [|Hc]; try done.
        -- exfalso; apply Hc; by right.
        -- apply elem_of_cons in e as [->|]; [congruence|done].
    + destruct (decide (x ∈ l)); destruct (decide (x ∈ n :: l)) as [|Hc]; try done.
      * exfalso; apply Hc; by right.
      * apply elem_of_cons in e as [->|]; [|done]. by rewrite Hn.
Qed.

(** *** The invariant under the elementary steps *)

Lemma filter_length_mono {A} (P Q : A -> Prop) `{forall x, Decision (P x)}
    `{forall x, Decision (Q x)} (l : list A) :
  (forall x, x ∈ l -> Q x -> P x) -> length (filter Q l) <= length (filter P l).
Proof.
  induction l as [|a l IH]; intros HQP; simpl; [lia|].
  rewrite !filter_cons.
  assert (length (filter Q l) <= length (filter P l)) by (apply IH; intros; apply HQP; [by right|done]).
  destruct (decide (Q a)) as [HQ|]; destruct (decide (P a)) as [|HP]; simpl; try lia.
  exfalso. apply HP, HQP; [left|]; done.
Qed.

Lemma filter_length_strict {A} (P Q : A -> Prop) `{forall x, Decision (P x)}
    `{forall x, Decision (Q x)} (l : list A) a :
  (forall x, x ∈ l -> Q x -> P x) -> a ∈ l -> P a -> ~ Q a ->
  length (filter Q l) < length (filter P l).
Proof.
  induction l as [|b l IH]; intros HQP Ha HPa HQa; [inversion Ha|].
  rewrite !filter_cons.
  assert (length (filter Q l) <= length (filter P l))
    by (apply filter_length_mono; intros; apply HQP; [by right|done]).
  apply elem_of_cons in Ha as [<-|Ha].
  - destruct (decide (Q a)); [done|]. destruct (decide (P a)); [simpl; lia|done].
  - assert (length (filter Q l) < length (filter P l))
      by (apply IH; auto; intros; apply HQP; [by right|done]).
    destruct (decide (Q b)) as [HQ|]; destruct (decide (P b)) as [|HP]; simpl; try lia.
    exfalso. apply HP, HQP; [left|]; done.
Qed.

Lemma measure_mono s s' :
  (forall x, vis s x -> vis s' x) -> measure s' <= measure s.
Proof.
  intros Hv. unfold measure. apply filter_length_mono.
  intros x _ Hx Hx'. apply Hx. apply elem_of_dom. apply Hv. by apply elem_of_dom.
Qed.

Lemma measure_push s v :
  is_Some (g0 !! v) -> ~ vis s v -> measure (push v s) < measure s.
Proof.
  intros Hk Hv. unfold measure. apply (filter_length_strict _ _ _ v).
  - intros x _ Hx Hx'. apply Hx. apply elem_of_dom. apply vis_push. right. by apply elem_of_dom.
  - apply elem_of_elements, elem_of_dom. done.
  - intros Hd. apply Hv. by apply elem_of_dom.
  - intros Hd. apply Hd. apply elem_of_dom. apply vis_push. by left.
Qed.

Lemma measure_bound s : measure s <= size g0.
Proof.
  unfold measure. etransitivity; [apply length_filter|].
  change (length (elements (dom g0))) with (size (dom g0)). by rewrite size_dom.
Qed.

Lemma stack_vis s gr x : Inv s gr -> x ∈ t_stack s -> vis s x.
Proof. intros HI Hx. apply (inv_stack _ _ HI) in Hx as [d [Hd _]]. unfold vis. by rewrite Hd. Qed.

Lemma gray_vis s gr x : Inv s gr -> x ∈ gr -> vis s x.
Proof. intros HI Hx. eapply stack_vis; [done|]. by apply (inv_gray _ _ HI). Qed.

Lemma vis_ix_lt s gr x : Inv s gr -> vis s x -> ix s x < t_index s.
Proof.
  intros HI [d Hd]. unfold ix. rewrite Hd. by apply (inv_index _ _ HI x d).
Qed.

Lemma Inv_init : Inv (tarjan_init g0) [].
Proof.
  unfold tarjan_init, vis. split; simpl.
  - intros k. by left.
  - intros x. split; [intros H; inversion H|intros [d [Hd _]]; simplify_map_eq].
  - intros x d Hd. simplify_map_eq.
  - intros x H. inversion H.
  - intros x y H. inversion H.
  - intros y H. inversion H.
  - intros x y [d Hd]. simplify_map_eq.
  - intros x y [d Hd]. simplify_map_eq.
  - intros x f f' _ Hf Hf'. rewrite Hf in Hf'. injection Hf' as <-.
    split; [by left|].
    intros [H|[[[d Hd] _]|[[d Hd] _]]]; [done|simplify_map_eq|simplify_map_eq].
Qed.

Lemma Inv_push s gr v :
  Inv s gr -> ~ vis s v -> (forall x, x ∈ gr -> reach x v) -> Inv (push v s) (v :: gr).
Proof.
  intros HI Hv Hr.
  assert (Hne : forall x, vis s x -> x <> v) by (intros x Hx ->; auto).
  split.
  - apply (inv_fns _ _ HI).
  - intros x. unfold push; simpl. rewrite elem_of_cons.
    destruct (decide (x = v)) as [->|Hxv].
    + rewrite lookup_insert_eq. split; [intros _; by eexists|auto].
    + rewrite lookup_insert_ne by congruence. rewrite (inv_stack _ _ HI).
      split; [intros [|]; done|auto].
  - intros x d. unfold push; simpl. destruct (decide (x = v)) as [->|Hxv].
    + rewrite lookup_insert_eq. intros [= <-]. simpl. lia.
    + rewrite lookup_insert_ne by congruence. intros Hd.
      destruct (inv_index _ _ HI x d Hd). lia.
  - intros x. rewrite elem_of_cons. simpl. rewrite elem_of_cons.
    intros [->|Hx]; [by left|right; by apply (inv_gray _ _ HI)].
  - intros x y Hx Hy. simpl in Hy. rewrite !ix_push.
    apply elem_of_cons in Hx, Hy.
    destruct (decide (x = v)) as [->|Hxv]; destruct (decide (y = v)) as [->|Hyv].
    + intros _. apply rtc_refl.
    + destruct Hy as [|Hy]; [done|]. intros Hle. exfalso.
      pose proof (vis_ix_lt _ _ _ HI (stack_vis _ _ _ HI Hy)). lia.
    + intros _. destruct Hx as [|Hx]; [done|]. by apply Hr.
    + destruct Hx as [|Hx]; [done|]. destruct Hy as [|Hy]; [done|].
      by apply (inv_up _ _ HI).
  - intros y Hy. simpl in Hy. apply elem_of_cons in Hy as [->|Hy].
    + exists v. split; [left|]. split; [lia|apply rtc_refl].
    + destruct (inv_down _ _ HI y Hy) as [x [Hx [Hle Hyx]]].
      exists x. split; [by right|]. rewrite !ix_push.
      destruct (decide (x = v)) as [->|]; [exfalso; apply Hne with v; [eapply gray_vis|]; eauto|].
      destruct (decide (y = v)) as [->|]; [exfalso; apply Hne with v; [eapply stack_vis|]; eauto|].
      auto.
  - intros x y Hx Hxg Hxy. apply vis_push in Hx as [->|Hx]; [exfalso; apply Hxg; left|].
    apply vis_push. right. apply (inv_black _ _ HI x y Hx); [|done].
    intros Hg. apply Hxg. by right.
  - intros x y Hx Hxs Hxy. simpl in *. apply vis_push in Hx as [->|Hx]; [exfalso; apply Hxs; left|].
    rewrite elem_of_cons. intros [->|Hy].
    + apply Hv. apply (inv_black _ _ HI x v Hx); [|done].
      intros Hg. apply Hxs. right. by apply (inv_gray _ _ HI).
    + apply (inv_done _ _ HI x y Hx); [|done|done]. intros Hs. apply Hxs. by right.
  - intros x f f' Hxg Hf Hf'. simpl in *.
    assert (x <> v) by (intros ->; apply Hxg; left).
    rewrite (inv_mark _ _ HI x f f') by (done || (intros Hg; apply Hxg; by right)).
    rewrite !vis_push, elem_of_cons. intuition.
Qed.

Lemma Inv_update_lowlink s gr u v : Inv s gr -> Inv (update_lowlink u v s) gr.
Proof.
  intros HI. destruct (update_lowlink_other u v s) as (Hi & Hs & Hf).
  assert (Hv : forall x, vis (update_lowlink u v s) x <-> vis s x) by apply vis_update_lowlink.
  assert (Hx : forall x, ix (update_lowlink u v s) x = ix s x) by apply ix_update_lowlink.
  split; rewrite ?Hi, ?Hs, ?Hf.
  - apply (inv_fns _ _ HI).
  - intros x. rewrite rd_update_lowlink, (inv_stack _ _ HI).
    destruct (decide (x = u)) as [->|]; [|done].
    destruct (t_recData s !! u) as [r|]; simpl.
    + split; intros [d [Hd Hin]]; injection Hd as <-; eexists; split; eauto.
    + split; intros [d [Hd _]]; discriminate.
  - intros x d. rewrite rd_update_lowlink. destruct (decide (x = u)) as [->|]; [|apply HI].
    destruct (t_recData s !! u) as [r|] eqn:Hr; simpl; [|discriminate].
    intros [= <-]. simpl. destruct (inv_index _ _ HI u r Hr). lia.
  - apply (inv_gray _ _ HI).
  - intros x y. rewrite !Hx. apply (inv_up _ _ HI).
  - intros y Hy. destruct (inv_down _ _ HI y Hy) as [x ?]. exists x. by rewrite !Hx.
  - intros x y. rewrite !Hv. apply (inv_black _ _ HI).
  - intros x y. rewrite !Hv. apply (inv_done _ _ HI).
  - intros x f f'. rewrite !Hv. apply (inv_mark _ _ HI).
Qed.

(** *** Frames of [tarjan] *)

(** What a call [tarjan(v)] from state [s], with the active callers [gr],
    guarantees about its final state [s']. *)
Record Post (v : string) (s : tstate) (gr : list string) (s' : tstate) : Prop := {
  post_inv : Inv s' gr;
  post_mono : forall x, vis s x -> vis s' x /\ ix s' x = ix s x;
  post_vis : vis s' v;
  post_ix : ix s' v = t_index s;
  post_index : t_index s < t_index s';
  post_new : forall x, vis s' x -> ~ vis s x -> t_index s <= ix s' x;
  post_stack : exists N, t_stack s' = N ++ t_stack s /\
      (forall x, x ∈ N -> ~ vis s x /\ reach v x) /\
      (forall x w, x ∈ N -> w ∈ t_stack s -> cedge x w -> low s' v <= ix s w);
  post_old : forall x, x ∈ t_stack s ->
      t_recData s' !! x = t_recData s !! x /\ t_functions s' !! x = t_functions s !! x;
  post_low : low s' v <= t_index s;
  post_lowlt : low s' v < t_index s ->
      exists w, w ∈ t_stack s /\ ix s w = low s' v /\ reach v w;
  post_measure : measure s' <= measure s
}.

(** The state inside the frame of [tarjan(u)] started from [s0]: [M] are
    the nodes pushed by the frame above [u] and not yet popped. *)
Record FrameInv (u : string) (s0 : tstate) (gr : list string) (s : tstate)
    (M : list string) : Prop := {
  fr_inv : Inv s (u :: gr);
  fr_stack : t_stack s = M ++ u :: t_stack s0;
  fr_M : forall x, x ∈ M -> ~ vis s0 x /\ t_index s0 < ix s x /\ reach u x;
  fr_rec : exists l, t_recData s !! u =
      Some {| fn_name := u; fn_index := t_index s0; fn_lowlink := l; fn_inStack := true |};
  fr_old : forall x, x ∈ t_stack s0 ->
      t_recData s !! x = t_recData s0 !! x /\ t_functions s !! x = t_functions s0 !! x;
  fr_mono : forall x, vis s0 x -> vis s x /\ ix s x = ix s0 x;
  fr_new : forall x, vis s x -> ~ vis s0 x -> t_index s0 <= ix s x;
  fr_index : t_index s0 < t_index s;
  fr_lowlt : low s u < t_index s0 ->
      exists w, w ∈ t_stack s0 /\ ix s0 w = low s u /\ reach u w;
  fr_xedge : forall x w, x ∈ M -> w ∈ t_stack s0 -> cedge x w -> low s u <= ix s0 w;
  fr_gray : forall x, x ∈ gr -> reach x u;
  fr_s0 : Inv s0 gr;
  fr_u : ~ vis s0 u
}.

Section Frame.
Context (u : string) (s0 : tstate) (gr : list string) (s : tstate) (M : list string).
Hypothesis HF : FrameInv u s0 gr s M.

Lemma fr_ix_u : ix s u = t_index s0.
Proof. destruct (fr_rec _ _ _ _ _ HF) as [l Hl]. unfold ix. by rewrite Hl. Qed.

Lemma fr_low_u : low s u <= t_index s0.
Proof.
  destruct (fr_rec _ _ _ _ _ HF) as [l Hl]. unfold low. rewrite Hl.
  destruct (inv_index _ _ (fr_inv _ _ _ _ _ HF) u _ Hl) as [_ H]. exact H.
Qed.

Lemma fr_old_ix x : x ∈ t_stack s0 -> vis s0 x /\ ix s x = ix s0 x /\ ix s0 x < t_index s0.
Proof.
  intros Hx. pose proof (stack_vis _ _ _ (fr_s0 _ _ _ _ _ HF) Hx) as Hv.
  destruct (fr_mono _ _ _ _ _ HF x Hv) as [_ He].
  split; [done|]. split; [done|].
  apply (vis_ix_lt _ gr); [exact (fr_s0 _ _ _ _ _ HF)|done].
Qed.

Lemma fr_M_not_old x : x ∈ M -> x ∉ t_stack s0.
Proof.
  intros HM Hx. destruct (fr_M _ _ _ _ _ HF x HM) as [_ [Hlt _]].
  destruct (fr_old_ix x Hx) as [_ [He Hlt']]. lia.
Qed.

Lemma fr_u_not_M : u ∉ M.
Proof.
  intros HM. destruct (fr_M _ _ _ _ _ HF u HM) as [_ [Hlt _]]. rewrite fr_ix_u in Hlt. lia.
Qed.

Lemma fr_u_not_old : u ∉ t_stack s0.
Proof. intros Hx. apply (fr_u _ _ _ _ _ HF). exact (stack_vis _ gr _ (fr_s0 _ _ _ _ _ HF) Hx). Qed.

Lemma fr_gr_old x : x ∈ gr -> x ∈ t_stack s0.
Proof. apply (inv_gray _ _ (fr_s0 _ _ _ _ _ HF)). Qed.

Lemma fr_in_stack x : x ∈ t_stack s <-> x ∈ M \/ x = u \/ x ∈ t_stack s0.
Proof. rewrite (fr_stack _ _ _ _ _ HF), elem_of_app, elem_of_cons. tauto. Qed.

(** Every node of the frame reaches [u] and is reached from it. *)
Lemma frame_sound x : x ∈ M -> reach u x /\ reach x u.
Proof.
  intros HM. destruct (fr_M _ _ _ _ _ HF x HM) as [_ [_ Hux]]. split; [done|].
  destruct (inv_down _ _ (fr_inv _ _ _ _ _ HF) x) as [g [Hg [_ Hxg]]];
    [apply fr_in_stack; by left|].
  apply elem_of_cons in Hg as [->|Hg]; [done|].
  etransitivity; [exact Hxg|]. by apply (fr_gray _ _ _ _ _ HF).
Qed.

(** Finished nodes (visited, off the stack) only reach finished nodes. *)
Lemma done_closed z z' :
  vis s z -> z ∉ t_stack s -> reach z z' -> vis s z' /\ z' ∉ t_stack s.
Proof.
  intros Hv Hs Hr. induction Hr as [z|z z1 z' Hzz1 _ IH]; [done|].
  pose proof (fr_inv _ _ _ _ _ HF) as HI.
  apply IH.
  - apply (inv_black _ _ HI z z1 Hv); [|done]. intros Hg. apply Hs. by apply (inv_gray _ _ HI).
  - by apply (inv_done _ _ HI z z1).
Qed.

(** The facts the callee loop establishes about [u] once it has run. *)
Hypothesis Hend_edges : forall y, cedge u y ->
  vis s y /\ (y ∈ t_stack s0 -> low s u <= ix s0 y).
Hypothesis Hend_mark : forall f0 f', g0 !! u = Some f0 -> t_functions s !! u = Some f' ->
  (IsRecursive f' = true <-> IsRecursive f0 = true \/ selfloop u).

Lemma frame_step_closed z z' :
  low s u = t_index s0 ->
  (z ∈ M ++ [u] \/ (vis s z /\ z ∉ t_stack s)) -> cedge z z' ->
  z' ∈ M ++ [u] \/ (vis s z' /\ z' ∉ t_stack s).
Proof.
  intros Hl Hz Hzz'. pose proof (fr_inv _ _ _ _ _ HF) as HI.
  destruct Hz as [Hz|[Hv Hs]].
  - assert (Hvz' : vis s z').
    { apply elem_of_app in Hz as [HM|Hu].
      - apply (inv_black _ _ HI z z'); [|intros Hg|done].
        + eapply stack_vis; [exact HI|]. apply fr_in_stack; by left.
        + apply elem_of_cons in Hg as [->|Hg]; [by apply fr_u_not_M|].
          by apply (fr_M_not_old z), fr_gr_old.
      - apply list_elem_of_singleton in Hu as ->. by apply Hend_edges. }
    destruct (decide (z' ∈ t_stack s)) as [Hin|Hout]; [|by right].
    left. apply fr_in_stack in Hin as [HM|[->|Hold]].
    + apply elem_of_app. by left.
    + apply elem_of_app. right. by left.
    + exfalso. destruct (fr_old_ix z' Hold) as [_ [_ Hlt]].
      assert (low s u <= ix s0 z').
      { apply elem_of_app in Hz as [HM|Hu].
        - by apply (fr_xedge _ _ _ _ _ HF z).
        - apply list_elem_of_singleton in Hu as ->. by apply Hend_edges. }
      lia.
  - right. apply (done_closed z z' Hv Hs). by apply rtc_once.
Qed.

(** When [u] is the root, the frame holds its whole component. *)
Lemma frame_closed y :
  low s u = t_index s0 -> reach u y -> reach y u -> y ∈ M ++ [u].
Proof.
  intros Hl Huy Hyu.
  assert (HC : y ∈ M ++ [u] \/ (vis s y /\ y ∉ t_stack s)).
  { assert (Hcl : forall a b, reach a b ->
      (a ∈ M ++ [u] \/ (vis s a /\ a ∉ t_stack s)) ->
      (b ∈ M ++ [u] \/ (vis s b /\ b ∉ t_stack s))).
    { intros a b Hab. induction Hab as [a|a b c Hab _ IH]; intros Ha; [done|].
      apply IH. by apply (frame_step_closed a b). }
    apply (Hcl u y Huy). left. apply elem_of_app. right. by left. }
  destruct HC as [|[Hv Hs]]; [done|].
  exfalso. destruct (done_closed y u Hv Hs Hyu) as [_ Hu]. apply Hu.
  apply fr_in_stack. right. by left.
Qed.

Lemma in_frame x : x ∈ M ++ [u] <-> x ∈ M \/ x = u.
Proof. rewrite elem_of_app, list_elem_of_singleton. tauto. Qed.

Lemma frame_sound' x : x ∈ M ++ [u] -> reach u x /\ reach x u.
Proof.
  intros Hx. apply in_frame in Hx as [HM| ->]; [by apply frame_sound|].
  split; apply rtc_refl.
Qed.

Lemma frame_not_old x : x ∈ M ++ [u] -> x ∉ t_stack s0.
Proof. intros Hx. apply in_frame in Hx as [HM| ->]; [by apply fr_M_not_old|apply fr_u_not_old]. Qed.

Lemma frame_edge_old x w :
  x ∈ M ++ [u] -> w ∈ t_stack s0 -> cedge x w -> low s u <= ix s0 w.
Proof.
  intros Hx Hw Hxw. apply in_frame in Hx as [HM| ->].
  - by apply (fr_xedge _ _ _ _ _ HF x).
  - by apply Hend_edges.
Qed.

(** The root case: [u] pops [M ++ [u]] and marks them when there are
    several. *)
Lemma pop_post (s' : tstate) :
  low s u = t_index s0 ->
  t_index s' = t_index s -> t_stack s' = t_stack s0 ->
  (forall x, t_recData s' !! x = if decide (x ∈ M ++ [u])
                                 then clear_inStack <$> t_recData s !! x
                                 else t_recData s !! x) ->
  (forall x, t_functions s' !! x = if decide (x ∈ M ++ [u] /\ M <> [])
                                   then set_IsRecursive <$> t_functions s !! x
                                   else t_functions s !! x) ->
  Post u s0 gr s'.
Proof.
  intros Hl Hi Hs Hrd Hfn.
  pose proof (fr_inv _ _ _ _ _ HF) as HI. pose proof (fr_s0 _ _ _ _ _ HF) as HI0.
  assert (Hvis : forall x, vis s' x <-> vis s x).
  { intros x. unfold vis. rewrite Hrd. destruct (decide _); [|done].
    destruct (t_recData s !! x); simpl; split; intros H; eauto; inversion H; done. }
  assert (Hix : forall x, ix s' x = ix s x).
  { intros x. unfold ix. rewrite Hrd. destruct (decide _); [|done].
    by destruct (t_recData s !! x). }
  assert (Hlw : forall x, low s' x = low s x).
  { intros x. unfold low. rewrite Hrd. destruct (decide _); [|done].
    by destruct (t_recData s !! x). }
  assert (Hout : forall x, x ∉ M ++ [u] -> t_recData s' !! x = t_recData s !! x).
  { intros x Hx. rewrite Hrd. by destruct (decide _). }
  assert (Hfout : forall x, x ∉ M ++ [u] -> t_functions s' !! x = t_functions s !! x).
  { intros x Hx. rewrite Hfn. destruct (decide _) as [[]|]; done. }
  assert (Hstk : forall x, x ∈ t_stack s0 <-> x ∈ t_stack s /\ x ∉ M ++ [u]).
  { intros x. rewrite fr_in_stack, in_frame. split.
    - intros Hx. split; [tauto|]. intros [HM| ->]; [by apply (fr_M_not_old x)|by apply fr_u_not_old].
    - tauto. }
  assert (Hu_stk : u ∈ t_stack s) by (apply fr_in_stack; tauto).
  split.
  - (* Inv *) split.
    + intros k. rewrite Hfn. destruct (decide _); [|apply HI].
      destruct (inv_fns _ _ HI k) as [Heq|[f [Hf Heq]]]; rewrite Heq.
      * destruct (g0 !! k) eqn:Hg; simpl; [right; by eexists|by left].
      * right. by exists f.
    + intros x. rewrite Hs, Hstk, (inv_stack _ _ HI), Hrd. destruct (decide _) as [Hx|Hx].
      * split; [intros [_ []]; done|].
        intros [d [Hd Hin]]. destruct (t_recData s !! x); simpl in Hd; [|discriminate].
        injection Hd as <-. discriminate.
      * tauto.
    + intros x d. rewrite Hrd, Hi. destruct (decide _); [|apply HI].
      destruct (t_recData s !! x) as [d0|] eqn:Hd0; simpl; [|discriminate].
      intros [= <-]. simpl. by apply (inv_index _ _ HI x).
    + intros x Hx. rewrite Hs. by apply fr_gr_old.
    + intros x y Hx Hy. rewrite !Hix. rewrite Hs in Hy.
      apply (inv_up _ _ HI); [by right|by apply Hstk].
    + intros y Hy. rewrite Hs in Hy.
      destruct (inv_down _ _ HI y) as [g [Hg [Hle Hyg]]]; [by apply Hstk|].
      apply elem_of_cons in Hg as [->|Hg].
      * exfalso. destruct (fr_old_ix y Hy) as [_ [He Hlt]]. rewrite fr_ix_u in Hle. lia.
      * exists g. rewrite !Hix. auto.
    + intros x y Hx Hxg Hxy. apply Hvis. apply Hvis in Hx.
      destruct (decide (x = u)) as [->|Hxu]; [by apply Hend_edges|].
      apply (inv_black _ _ HI x y Hx); [|done]. rewrite elem_of_cons. tauto.
    + intros x y Hx Hxs Hxy Hy. rewrite Hs in Hxs, Hy. apply Hvis in Hx.
      destruct (decide (x ∈ t_stack s)) as [Hxin|Hxout].
      * assert (Hxf : x ∈ M ++ [u]) by (destruct (decide (x ∈ M ++ [u])); [done|]; exfalso; apply Hxs, Hstk; tauto).
        pose proof (frame_edge_old x y Hxf Hy Hxy).
        destruct (fr_old_ix y Hy) as [_ [_ Hlt]]. lia.
      * apply (inv_done _ _ HI x y Hx Hxout Hxy). by apply Hstk.
    + intros x f f' Hxg Hf Hf'. rewrite Hs. rewrite !Hvis.
      destruct (decide (x ∈ M ++ [u])) as [Hx|Hx].
      * assert (Hnot : x ∉ t_stack s0) by (intros H; apply Hstk in H; tauto).
        assert (Hv : vis s x) by (eapply stack_vis; [exact HI|]; rewrite fr_in_stack; apply in_frame in Hx; tauto).
        rewrite Hfn in Hf'. destruct (decide (x ∈ M ++ [u] /\ M <> [])) as [[_ HM]|HM].
        -- destruct (t_functions s !! x); simpl in Hf'; [|discriminate].
           injection Hf' as <-. simpl. split; [intros _|auto].
           right. right. split; [done|split; [done|]].
           assert (exists m, m ∈ M) as [m Hm]
             by (destruct M as [|m M']; [done|exists m; left]).
           apply in_frame in Hx as [HxM| ->].
           ++ exists u. split; [intros Heq; apply fr_u_not_M; by rewrite Heq|].
              destruct (frame_sound x HxM). done.
           ++ exists m. split; [intros Heq; apply fr_u_not_M; by rewrite <- Heq|].
              destruct (frame_sound m Hm). done.
        -- assert (HM0 : M = []) by (destruct M; [done|exfalso; apply HM; split; [done|discriminate]]).
           assert (x = u) as ->.
           { apply in_frame in Hx as [HxM|]; [|done]. rewrite HM0 in HxM. inversion HxM. }
           rewrite (Hend_mark f f' Hf Hf').
           split; [intros [|]; auto|].
           intros [|[[_ ?]|[_ [_ [y [Hyu [Huy Hyu']]]]]]]; auto.
           exfalso. pose proof (frame_closed y Hl Huy Hyu') as Hy.
           apply in_frame in Hy as [Hy|]; [rewrite HM0 in Hy; inversion Hy|done].
      * rewrite Hfout in Hf' by done.
        rewrite (inv_mark _ _ HI x f f'); [|intros Hg; apply elem_of_cons in Hg as [->|]; [apply Hx, in_frame; tauto|done]|done|done].
        rewrite Hstk. tauto.
  - intros x Hx. destruct (fr_mono _ _ _ _ _ HF x Hx). rewrite Hvis, Hix. done.
  - apply Hvis. unfold vis. destruct (fr_rec _ _ _ _ _ HF) as [? ->]. eauto.
  - rewrite Hix. apply fr_ix_u.
  - rewrite Hi. apply (fr_index _ _ _ _ _ HF).
  - intros x Hx Hx0. rewrite Hix. apply Hvis in Hx. by apply (fr_new _ _ _ _ _ HF).
  - exists []. rewrite Hs. split; [done|]. split; intros x; [intros Hx; inversion Hx|].
    intros w Hx. inversion Hx.
  - intros x Hx. rewrite Hout, Hfout by (by apply Hstk). apply (fr_old _ _ _ _ _ HF x Hx).
  - rewrite Hlw. apply fr_low_u.
  - rewrite Hlw. lia.
  - apply measure_mono. intros x Hx. apply Hvis. by apply (fr_mono _ _ _ _ _ HF).
Qed.

(** The non-root case: [u] stays on the stack with the frame's nodes. *)
Lemma stay_post : low s u < t_index s0 -> Post u s0 gr s.
Proof.
  intros Hl.
  pose proof (fr_inv _ _ _ _ _ HF) as HI.
  assert (Hu_stk : u ∈ t_stack s) by (apply fr_in_stack; tauto).
  split.
  - split.
    + apply HI.
    + apply HI.
    + apply HI.
    + intros x Hx. apply (inv_gray _ _ HI). by right.
    + intros x y Hx. apply (inv_up _ _ HI). by right.
    + intros y Hy. destruct (inv_down _ _ HI y Hy) as [g [Hg [Hle Hyg]]].
      apply elem_of_cons in Hg as [->|Hg]; [|by exists g].
      destruct (fr_lowlt _ _ _ _ _ HF Hl) as [w [Hw [Hwl Huw]]].
      destruct (fr_old_ix w Hw) as [_ [Hwe _]].
      destruct (inv_down _ _ HI w) as [g' [Hg' [Hle' Hwg']]]; [apply fr_in_stack; tauto|].
      rewrite fr_ix_u in Hle.
      apply elem_of_cons in Hg' as [->|Hg'].
      * exfalso. rewrite fr_ix_u in Hle'. lia.
      * exists g'. split; [done|]. split; [lia|].
        etransitivity; [exact Hyg|]. etransitivity; [exact Huw|exact Hwg'].
    + intros x y Hx Hxg Hxy. destruct (decide (x = u)) as [->|Hxu]; [by apply Hend_edges|].
      apply (inv_black _ _ HI x y Hx); [|done]. rewrite elem_of_cons. tauto.
    + apply HI.
    + intros x f f' Hxg Hf Hf'. destruct (decide (x = u)) as [->|Hxu].
      * rewrite (Hend_mark f f' Hf Hf').
        assert (vis s u) by (eapply stack_vis; [exact HI|done]). tauto.
      * apply (inv_mark _ _ HI); [|done|done]. rewrite elem_of_cons. tauto.
  - apply (fr_mono _ _ _ _ _ HF).
  - eapply stack_vis; [exact HI|done].
  - apply fr_ix_u.
  - apply (fr_index _ _ _ _ _ HF).
  - apply (fr_new _ _ _ _ _ HF).
  - exists (M ++ [u]). split; [rewrite (fr_stack _ _ _ _ _ HF), <- app_assoc; done|].
    split.
    + intros x Hx. apply in_frame in Hx as [HM| ->].
      * destruct (fr_M _ _ _ _ _ HF x HM) as [? [_ ?]]. done.
      * split; [apply (fr_u _ _ _ _ _ HF)|apply rtc_refl].
    + intros x w Hx Hw Hxw. by apply (frame_edge_old x w).
  - apply (fr_old _ _ _ _ _ HF).
  - apply fr_low_u.
  - apply (fr_lowlt _ _ _ _ _ HF).
  - apply measure_mono. intros x Hx. by apply (fr_mono _ _ _ _ _ HF).
Qed.

Lemma finish_post : Post u s0 gr (finish u s).
Proof.
  destruct (fr_rec _ _ _ _ _ HF) as [l Hrd].
  assert (Hlow : low s u = l) by (unfold low; by rewrite Hrd).
  unfold finish. rewrite Hrd. cbn [fn_lowlink fn_index].
  destruct (Nat.eqb l (t_index s0)) eqn:El.
  - apply Nat.eqb_eq in El. subst l.
    rewrite (fr_stack _ _ _ _ _ HF), (pop_scc_spec u M (t_stack s0) _ [] fr_u_not_M).
    simpl. apply pop_post; [done|done|done| |].
    + intros x. simpl. apply foldl_alter_lookup.
    + intros x. simpl.
      assert (HL : Nat.ltb 1 (length (M ++ [u])) = bool_decide (M <> [])).
      { destruct M as [|a M']; [done|].
        rewrite bool_decide_true by discriminate. apply Nat.ltb_lt.
        rewrite length_app. simpl. lia. }
      rewrite HL. case_bool_decide as HM.
      * rewrite mark_all_lookup.
        destruct (decide (x ∈ M ++ [u])), (decide (x ∈ M ++ [u] /\ M <> [])); tauto || done.
      * destruct (decide (x ∈ M ++ [u] /\ M <> [])); [tauto|done].
  - apply stay_post. apply Nat.eqb_neq in El. pose proof fr_low_u. lia.
Qed.

End Frame.

(** *** The steps of the callee loop preserve the frame *)

Lemma low_update_lowlink_self u v s :
  vis s u -> low (update_lowlink u v s) u = Nat.min (low s u) v.
Proof.
  intros [d Hd]. unfold low. rewrite rd_update_lowlink.
  destruct (decide (u = u)); [|done]. by rewrite Hd.
Qed.

(** A self-call [callee == caller] stores the marked copy of [fn]. *)
Lemma frame_set_fn u s0 gr s M f0 :
  FrameInv u s0 gr s M -> g0 !! u = Some f0 ->
  FrameInv u s0 gr (with_functions s (<[u := set_IsRecursive f0]> (t_functions s))) M.
Proof.
  intros HF Hf0. pose proof (fr_inv _ _ _ _ _ HF) as HI.
  constructor.
  - constructor; try apply HI.
    + intros k. simpl. destruct (decide (k = u)) as [->|Hk].
      * rewrite lookup_insert_eq. right. by exists f0.
      * rewrite lookup_insert_ne by congruence. apply HI.
    + intros x f f' Hx. simpl. rewrite lookup_insert_ne
        by (intros E; apply Hx; rewrite E; left). apply (inv_mark _ _ HI). done.
  - exact (fr_stack _ _ _ _ _ HF).
  - exact (fr_M _ _ _ _ _ HF).
  - exact (fr_rec _ _ _ _ _ HF).
  - intros x Hx. simpl. rewrite lookup_insert_ne
      by (intros E; rewrite <- E in Hx; by apply (fr_u_not_old u s0 gr s M HF)).
    by apply HF.
  - exact (fr_mono _ _ _ _ _ HF).
  - exact (fr_new _ _ _ _ _ HF).
  - exact (fr_index _ _ _ _ _ HF).
  - exact (fr_lowlt _ _ _ _ _ HF).
  - exact (fr_xedge _ _ _ _ _ HF).
  - exact (fr_gray _ _ _ _ _ HF).
  - exact (fr_s0 _ _ _ _ _ HF).
  - exact (fr_u _ _ _ _ _ HF).
Qed.

(** A callee already on the stack lowers [rec.lowlink] to its index. *)
Lemma frame_lower u s0 gr s M v :
  FrameInv u s0 gr s M ->
  (v < t_index s0 -> exists w, w ∈ t_stack s0 /\ ix s0 w = v /\ reach u w) ->
  FrameInv u s0 gr (update_lowlink u v s) M.
Proof.
  intros HF Hv. destruct (update_lowlink_other u v s) as (Hi & Hs & Hf).
  destruct (fr_rec _ _ _ _ _ HF) as [l Hl].
  assert (Hlow : low s u = l) by (unfold low; by rewrite Hl).
  assert (Hlow' : low (update_lowlink u v s) u = Nat.min l v).
  { rewrite low_update_lowlink_self by (unfold vis; by rewrite Hl). by rewrite Hlow. }
  constructor.
  - apply Inv_update_lowlink, HF.
  - rewrite Hs. exact (fr_stack _ _ _ _ _ HF).
  - intros x. rewrite ix_update_lowlink. exact (fr_M _ _ _ _ _ HF x).
  - exists (Nat.min l v). rewrite rd_update_lowlink.
    destruct (decide (u = u)); [|done]. by rewrite Hl.
  - intros x Hx. rewrite rd_update_lowlink, Hf.
    destruct (decide (x = u)) as [->|]; [exfalso; by apply (fr_u_not_old u s0 gr s M HF)|].
    exact (fr_old _ _ _ _ _ HF x Hx).
  - intros x. rewrite vis_update_lowlink, ix_update_lowlink. exact (fr_mono _ _ _ _ _ HF x).
  - intros x. rewrite vis_update_lowlink, ix_update_lowlink. exact (fr_new _ _ _ _ _ HF x).
  - rewrite Hi. exact (fr_index _ _ _ _ _ HF).
  - rewrite Hlow'. intros Hlt.
    destruct (Nat.min_spec l v) as [[_ Heq]|[_ Heq]]; rewrite Heq in *.
    + rewrite <- Hlow. apply (fr_lowlt _ _ _ _ _ HF). lia.
    + by apply Hv.
  - intros x w Hx Hw Hxw. rewrite Hlow'.
    pose proof (fr_xedge _ _ _ _ _ HF x w Hx Hw Hxw). lia.
  - exact (fr_gray _ _ _ _ _ HF).
  - exact (fr_s0 _ _ _ _ _ HF).
  - exact (fr_u _ _ _ _ _ HF).
Qed.

(** An unvisited callee [c]: [tarjan(c)] followed by
    [rec.lowlink = min(rec.lowlink, recData[c].lowlink)]. *)
Lemma frame_call u s0 gr s M c s' :
  FrameInv u s0 gr s M -> cedge u c -> ~ vis s c -> Post c s (u :: gr) s' ->
  exists N, FrameInv u s0 gr (update_lowlink u (low s' c) s') (N ++ M).
Proof.
  intros HF Huc Hc HP.
  destruct (post_stack _ _ _ _ HP) as [N [HN [HNv HNx]]].
  pose proof (fr_inv _ _ _ _ _ HF) as HI. pose proof (post_inv _ _ _ _ HP) as HI'.
  destruct (update_lowlink_other u (low s' c) s') as (Hi & Hs & Hf).
  destruct (fr_rec _ _ _ _ _ HF) as [l Hl].
  assert (Hus : u ∈ t_stack s) by (apply (fr_in_stack u s0 gr s M HF); tauto).
  assert (Hl' : t_recData s' !! u = t_recData s !! u) by apply (post_old _ _ _ _ HP u Hus).
  assert (Hlow'' : low (update_lowlink u (low s' c) s') u = Nat.min l (low s' c)).
  { rewrite low_update_lowlink_self by (unfold vis; by rewrite Hl', Hl).
    unfold low at 1. by rewrite Hl', Hl. }
  assert (Hlow : low s u = l) by (unfold low; by rewrite Hl).
  pose proof (fr_index _ _ _ _ _ HF) as Hidx.
  pose proof (post_index _ _ _ _ HP) as Hidx'.
  exists N. constructor.
  - by apply Inv_update_lowlink.
  - rewrite Hs, HN, (fr_stack _ _ _ _ _ HF). by rewrite app_assoc.
  - intros x Hx. rewrite ix_update_lowlink. apply elem_of_app in Hx as [HxN|HxM].
    + destruct (HNv x HxN) as [Hnv Hr].
      assert (Hv' : vis s' x) by (eapply stack_vis; [exact HI'|]; rewrite HN; apply elem_of_app; by left).
      split; [intros H0; apply Hnv; by apply (fr_mono _ _ _ _ _ HF)|].
      split; [pose proof (post_new _ _ _ _ HP x Hv' Hnv); lia|].
      eapply rtc_l; [exact Huc|exact Hr].
    + destruct (fr_M _ _ _ _ _ HF x HxM) as (? & ? & ?).
      assert (Hvx : vis s x) by (eapply stack_vis; [exact HI|]; apply (fr_in_stack u s0 gr s M HF); tauto).
      destruct (post_mono _ _ _ _ HP x Hvx) as [_ ->]. done.
  - exists (Nat.min l (low s' c)). rewrite rd_update_lowlink.
    destruct (decide (u = u)); [|done]. by rewrite Hl', Hl.
  - intros x Hx. rewrite rd_update_lowlink, Hf.
    destruct (decide (x = u)) as [->|]; [exfalso; by apply (fr_u_not_old u s0 gr s M HF)|].
    assert (Hxs : x ∈ t_stack s) by (apply (fr_in_stack u s0 gr s M HF); tauto).
    destruct (post_old _ _ _ _ HP x Hxs) as [-> ->]. by apply HF.
  - intros x Hx. rewrite vis_update_lowlink, ix_update_lowlink.
    destruct (fr_mono _ _ _ _ _ HF x Hx) as [Hvx Hex].
    destruct (post_mono _ _ _ _ HP x Hvx) as [? ->]. done.
  - intros x. rewrite vis_update_lowlink, ix_update_lowlink. intros Hv Hn0.
    destruct (decide (vis s x)) as [Hvs|Hvs].
    + destruct (post_mono _ _ _ _ HP x Hvs) as [_ ->]. by apply (fr_new _ _ _ _ _ HF).
    + pose proof (post_new _ _ _ _ HP x Hv Hvs). lia.
  - rewrite Hi. lia.
  - rewrite Hlow''. intros Hlt.
    destruct (Nat.min_spec l (low s' c)) as [[_ Heq]|[_ Heq]]; rewrite Heq in *.
    + rewrite <- Hlow. apply (fr_lowlt _ _ _ _ _ HF). lia.
    + destruct (post_lowlt _ _ _ _ HP) as [w [Hw [Hwi Hcw]]]; [lia|].
      apply (fr_in_stack u s0 gr s M HF) in Hw as [HwM|[->|Hw0]].
      * destruct (fr_M _ _ _ _ _ HF w HwM) as (_ & ? & _). lia.
      * rewrite (fr_ix_u u s0 gr s M HF) in Hwi. lia.
      * destruct (fr_old_ix u s0 gr s M HF w Hw0) as (_ & Hew & _).
        exists w. split; [done|]. split; [lia|]. eapply rtc_l; [exact Huc|exact Hcw].
  - intros x w Hx Hw Hxw. rewrite Hlow''.
    assert (Hws : w ∈ t_stack s) by (apply (fr_in_stack u s0 gr s M HF); tauto).
    destruct (fr_old_ix u s0 gr s M HF w Hw) as (_ & Hew & _).
    apply elem_of_app in Hx as [HxN|HxM].
    + pose proof (HNx x w HxN Hws Hxw). lia.
    + pose proof (fr_xedge _ _ _ _ _ HF x w HxM Hw Hxw). lia.
  - exact (fr_gray _ _ _ _ _ HF).
  - exact (fr_s0 _ _ _ _ _ HF).
  - exact (fr_u _ _ _ _ _ HF).
Qed.

(** *** The callee loop *)

Section Loop.
Context (u : string) (s0 : tstate) (gr : list string) (f0 : FunctionCall) (n : nat).
Hypothesis Hf0 : g0 !! u = Some f0.
Hypothesis IH : forall v s gr', Inv s gr' -> ~ vis s v -> measure s < n ->
  (forall x, x ∈ gr' -> reach x v) -> Post v s gr' (tarjan n v s).

(** The state of the loop after the callees [P] of [u] have been handled;
    [fn] is the local copy of [functions[u]]. *)
Record LoopInv (P : list string) (fn : FunctionCall) (s : tstate) (M : list string) : Prop := {
  li_frame : FrameInv u s0 gr s M;
  li_fn : t_functions s !! u = Some fn;
  li_shape : fn = f0 \/ fn = set_IsRecursive f0;
  li_rec : IsRecursive fn = true <-> IsRecursive f0 = true \/ u ∈ P;
  li_done : forall w, w ∈ P -> w <> u -> vis s w /\ (w ∈ t_stack s0 -> low s u <= ix s0 w);
  li_measure : measure s < n
}.

Lemma visit_post cs : forall P fn s M,
  Callees f0 = P ++ cs -> LoopInv P fn s M ->
  exists M', FrameInv u s0 gr (visit (tarjan n) u fn cs s) M' /\
    (forall y, cedge u y -> vis (visit (tarjan n) u fn cs s) y /\
       (y ∈ t_stack s0 -> low (visit (tarjan n) u fn cs s) u <= ix s0 y)) /\
    (forall f1 f', g0 !! u = Some f1 -> t_functions (visit (tarjan n) u fn cs s) !! u = Some f' ->
       (IsRecursive f' = true <-> IsRecursive f1 = true \/ selfloop u)).
Proof.
  induction cs as [|c cs IHcs]; intros P fn s M Hcs HL; simpl.
  - rewrite app_nil_r in Hcs. exists M. split; [exact (li_frame _ _ _ _ HL)|]. split.
    + intros y [f [Hf [Hy Hyu]]]. rewrite Hf0 in Hf. injection Hf as <-.
      rewrite Hcs in Hy. by apply (li_done _ _ _ _ HL).
    + intros f1 f' Hf1 Hf'. rewrite Hf0 in Hf1. injection Hf1 as <-.
      rewrite (li_fn _ _ _ _ HL) in Hf'. injection Hf' as <-.
      rewrite (li_rec _ _ _ _ HL). unfold selfloop. rewrite <- Hcs.
      split; [intros [|]; [by left|right; by exists f0]|].
      intros [|[f [Hf Hu]]]; [by left|]. rewrite Hf0 in Hf. injection Hf as <-. by right.
  - pose proof (li_frame _ _ _ _ HL) as HF. pose proof (fr_inv _ _ _ _ _ HF) as HI.
    assert (HcP : Callees f0 = (P ++ [c]) ++ cs) by (rewrite Hcs, <- app_assoc; done).
    assert (Hc_in : c ∈ Callees f0) by (rewrite Hcs; apply elem_of_app; right; left).
    destruct (String.eqb c u) eqn:Ecu.
    + (* the self-call *)
      apply String.eqb_eq in Ecu. subst c.
      apply (IHcs (P ++ [u]) _ _ M); [done|].
      assert (Hsf : set_IsRecursive fn = set_IsRecursive f0)
        by (destruct (li_shape _ _ _ _ HL) as [-> | ->]; done).
      rewrite Hsf. constructor.
      * by apply frame_set_fn.
      * simpl. by rewrite lookup_insert_eq.
      * by right.
      * simpl. split; [intros _; right; apply elem_of_app; right; left|done].
      * intros w Hw Hwu. apply elem_of_app in Hw as [Hw|Hw];
          [|apply list_elem_of_singleton in Hw; congruence].
        exact (li_done _ _ _ _ HL w Hw Hwu).
      * exact (li_measure _ _ _ _ HL).
    + apply String.eqb_neq in Ecu.
      assert (Huc : cedge u c) by (exists f0; auto).
      destruct (t_recData s !! c) as [data|] eqn:Hc.
      * destruct (fn_inStack data) eqn:Hin.
        -- (* on the stack: [rec.lowlink = min(rec.lowlink, data.index)] *)
           assert (Hcs' : c ∈ t_stack s) by (apply (inv_stack _ _ HI); eauto).
           assert (Hix : ix s c = fn_index data) by (unfold ix; by rewrite Hc).
           assert (HF' : FrameInv u s0 gr (update_lowlink u (fn_index data) s) M).
           { apply frame_lower; [done|]. intros Hlt.
             apply (fr_in_stack u s0 gr s M HF) in Hcs' as [HcM|[->|Hc0]].
             - destruct (fr_M _ _ _ _ _ HF c HcM) as (_ & ? & _). lia.
             - done.
             - destruct (fr_old_ix u s0 gr s M HF c Hc0) as (_ & ? & _).
               exists c. split; [done|]. split; [lia|by apply rtc_once]. }
           apply (IHcs (P ++ [c]) _ _ M); [done|].
           assert (Hvu : vis s u) by (eapply stack_vis; [exact HI|]; apply (fr_in_stack u s0 gr s M HF); tauto).
           rewrite <- Hix. constructor.
           ++ by rewrite Hix.
           ++ rewrite (proj2 (proj2 (update_lowlink_other _ _ _))). exact (li_fn _ _ _ _ HL).
           ++ exact (li_shape _ _ _ _ HL).
           ++ rewrite (li_rec _ _ _ _ HL), elem_of_app, list_elem_of_singleton.
              split; [intros [|]; auto|intros [|[|]]; auto; congruence].
           ++ intros w Hw Hwu. rewrite vis_update_lowlink, low_update_lowlink_self by done.
              apply elem_of_app in Hw as [Hw|Hw].
              ** destruct (li_done _ _ _ _ HL w Hw Hwu) as [? Hle].
                 split; [done|]. intros Hw0. specialize (Hle Hw0). lia.
              ** apply list_elem_of_singleton in Hw as ->.
                 split; [unfold vis; by rewrite Hc|]. intros Hw0.
                 destruct (fr_old_ix u s0 gr s M HF c Hw0) as (_ & ? & _). lia.
           ++ pose proof (li_measure _ _ _ _ HL).
              assert (measure (update_lowlink u (ix s c) s) <= measure s)
                by (apply measure_mono; intros x; by rewrite vis_update_lowlink).
              lia.
        -- (* visited and finished: nothing to do *)
           apply (IHcs (P ++ [c]) _ _ M); [done|]. constructor.
           ++ done.
           ++ exact (li_fn _ _ _ _ HL).
           ++ exact (li_shape _ _ _ _ HL).
           ++ rewrite (li_rec _ _ _ _ HL), elem_of_app, list_elem_of_singleton.
              split; [intros [|]; auto|intros [|[|]]; auto; congruence].
           ++ intros w Hw Hwu. apply elem_of_app in Hw as [Hw|Hw];
                [exact (li_done _ _ _ _ HL w Hw Hwu)|].
              apply list_elem_of_singleton in Hw as ->.
              split; [unfold vis; by rewrite Hc|]. intros Hw0. exfalso.
              assert (Hcs' : c ∈ t_stack s) by (apply (fr_in_stack u s0 gr s M HF); tauto).
              apply (inv_stack _ _ HI) in Hcs' as [d [Hd Hd']]. congruence.
           ++ exact (li_measure _ _ _ _ HL).
      * (* unvisited: the recursive call *)
        assert (Hnv : ~ vis s c) by (unfold vis; rewrite Hc; intros [? H]; discriminate).
        assert (Hus : u ∈ t_stack s) by (apply (fr_in_stack u s0 gr s M HF); tauto).
        assert (HP : Post c s (u :: gr) (tarjan n c s)).
        { apply IH; [exact HI|exact Hnv|exact (li_measure _ _ _ _ HL)|].
          intros x Hx. apply elem_of_cons in Hx as [Hxu|Hx].
          - rewrite Hxu. by apply rtc_once.
          - etransitivity; [exact (fr_gray _ _ _ _ _ HF x Hx)|by apply rtc_once]. }
        set (s' := tarjan n c s) in *.
        destruct (post_vis _ _ _ _ HP) as [d Hd]. rewrite Hd.
        assert (Hlowc : low s' c = fn_lowlink d) by (unfold low; by rewrite Hd).
        destruct (frame_call u s0 gr s M c s' HF Huc Hnv HP) as [N HF'].
        rewrite Hlowc in HF'.
        destruct (post_old _ _ _ _ HP u Hus) as [Hrdu Hfnu].
        assert (Hvu' : vis s' u) by (unfold vis; rewrite Hrdu; eapply stack_vis; [exact HI|done]).
        assert (Hlu : low s' u = low s u) by (unfold low; by rewrite Hrdu).
        apply (IHcs (P ++ [c]) _ _ (N ++ M)); [done|]. constructor.
        -- done.
        -- rewrite (proj2 (proj2 (update_lowlink_other _ _ _))), Hfnu. exact (li_fn _ _ _ _ HL).
        -- exact (li_shape _ _ _ _ HL).
        -- rewrite (li_rec _ _ _ _ HL), elem_of_app, list_elem_of_singleton.
           split; [intros [|]; auto|intros [|[|]]; auto; congruence].
        -- intros w Hw Hwu. rewrite vis_update_lowlink, low_update_lowlink_self by done.
           apply elem_of_app in Hw as [Hw|Hw].
           ++ destruct (li_done _ _ _ _ HL w Hw Hwu) as [Hvw Hle].
              split; [by apply (post_mono _ _ _ _ HP)|]. intros Hw0. specialize (Hle Hw0). lia.
           ++ apply list_elem_of_singleton in Hw as ->.
              split; [unfold vis; by rewrite Hd|]. intros Hw0. exfalso. apply Hnv.
              apply (fr_mono _ _ _ _ _ HF). exact (stack_vis _ _ _ (fr_s0 _ _ _ _ _ HF) Hw0).
        -- pose proof (li_measure _ _ _ _ HL). pose proof (post_measure _ _ _ _ HP).
           assert (measure (update_lowlink u (fn_lowlink d) s') <= measure s')
             by (apply measure_mono; intros x; by rewrite vis_update_lowlink).
           lia.
Qed.

End Loop.

(** *** A whole call [tarjan(v)] *)

Lemma frame_start v s gr :
  Inv s gr -> ~ vis s v -> (forall x, x ∈ gr -> reach x v) -> FrameInv v s gr (push v s) [].
Proof.
  intros HI Hv Hgr. constructor.
  - by apply Inv_push.
  - reflexivity.
  - intros x Hx. inversion Hx.
  - exists (t_index s). simpl. by rewrite lookup_insert_eq.
  - intros x Hx. simpl. rewrite lookup_insert_ne; [done|].
    intros E. apply Hv. rewrite E. exact (stack_vis _ _ _ HI Hx).
  - intros x Hx. rewrite vis_push, ix_push.
    destruct (decide (x = v)) as [E|]; [exfalso; apply Hv; rewrite <- E; done|]. auto.
  - intros x Hx Hnx. rewrite ix_push. destruct (decide (x = v)); [lia|].
    apply vis_push in Hx as [|]; done.
  - simpl. lia.
  - unfold low. simpl. rewrite lookup_insert_eq. simpl. lia.
  - intros x w Hx. inversion Hx.
  - exact Hgr.
  - exact HI.
  - exact Hv.
Qed.

Lemma tarjan_post n : forall v s gr,
  Inv s gr -> ~ vis s v -> measure s < n -> (forall x, x ∈ gr -> reach x v) ->
  Post v s gr (tarjan n v s).
Proof.
  induction n as [|n IHn]; intros v s gr HI Hv Hm Hgr; [lia|]. simpl.
  pose proof (frame_start v s gr HI Hv Hgr) as HF0.
  destruct (t_functions s !! v) as [fn|] eqn:Hfn.
  - assert (Hf0 : exists f0, g0 !! v = Some f0 /\ (fn = f0 \/ fn = set_IsRecursive f0)).
    { destruct (inv_fns _ _ HI v) as [E|[f0 [Hf0 E]]]; rewrite Hfn in E.
      - exists fn. auto.
      - injection E as E. exists f0. auto. }
    destruct Hf0 as [f0 [Hf0 Hsh]].
    assert (Hvg : v ∉ gr) by (intros Hg; apply Hv; exact (gray_vis _ _ _ HI Hg)).
    assert (Hcal : Callees f0 = [] ++ Callees fn) by (destruct Hsh as [E|E]; rewrite E; done).
    assert (HL : LoopInv v s gr f0 n [] fn (push v s) []).
    { constructor.
      - exact HF0.
      - exact Hfn.
      - exact Hsh.
      - rewrite (inv_mark _ _ HI v f0 fn Hvg Hf0 Hfn).
        split; [intros [|[[]|[]]]; [by left|done|done]|].
        intros [|Hin]; [by left|inversion Hin].
      - intros w Hw. inversion Hw.
      - pose proof (measure_push s v ltac:(by exists f0) Hv). lia. }
    destruct (visit_post v s gr f0 n Hf0 IHn (Callees fn) [] fn (push v s) [] Hcal HL)
      as [M' [HF' [He Hmk]]].
    exact (finish_post v s gr _ M' HF' He Hmk).
  - assert (Hg : g0 !! v = None).
    { destruct (inv_fns _ _ HI v) as [E|[f0 [_ E]]]; rewrite Hfn in E; [done|discriminate]. }
    apply (finish_post v s gr (push v s) [] HF0).
    + intros y [f [Hf _]]. congruence.
    + intros f1 f' Hf1. congruence.
Qed.

(** *** The outer loop over the keys *)

Lemma detect_fold order : forall s,
  Inv s [] ->
  Inv (fold_left (detect_step g0) order s) [] /\
  (forall x, vis s x -> vis (fold_left (detect_step g0) order s) x) /\
  (forall k, k ∈ order -> vis (fold_left (detect_step g0) order s) k).
Proof.
  induction order as [|c order IHo]; intros s HI; simpl.
  - split; [done|]. split; [done|]. intros k Hk. inversion Hk.
  - destruct (t_recData s !! c) as [d|] eqn:Hc.
    + assert (E : detect_step g0 s c = s) by (unfold detect_step; by rewrite Hc).
      rewrite E. destruct (IHo s HI) as (HI' & Hm & Hk). split; [done|]. split; [done|].
      intros k Hk'. apply elem_of_cons in Hk' as [->|Hk']; [|by apply Hk].
      apply Hm. unfold vis. by rewrite Hc.
    + assert (E : detect_step g0 s c = tarjan (S (size g0)) c s)
        by (unfold detect_step; by rewrite Hc).
      rewrite E.
      assert (Hnv : ~ vis s c) by (unfold vis; rewrite Hc; intros [? H]; discriminate).
      pose proof (tarjan_post (S (size g0)) c s [] HI Hnv) as HP.
      assert (HP' : Post c s [] (tarjan (S (size g0)) c s)).
      { apply HP; [pose proof (measure_bound s); lia|intros x Hx; inversion Hx]. }
      destruct (IHo _ (post_inv _ _ _ _ HP')) as (HI' & Hm & Hk).
      split; [done|]. split.
      * intros x Hx. apply Hm. by apply (post_mono _ _ _ _ HP').
      * intros k Hk'. apply elem_of_cons in Hk' as [->|Hk']; [|by apply Hk].
        apply Hm. apply (post_vis _ _ _ _ HP').
Qed.

(** The result of [detectRecursion_in]: the keys are unchanged, and a
    record is marked iff it was marked, calls itself, or lies on a cycle
    through another node. *)
Lemma detectRecursion_in_correct order :
  (forall k, is_Some (g0 !! k) -> k ∈ order) ->
  forall k, match g0 !! k with
  | None => detectRecursion_in order g0 !! k = None
  | Some f => exists f', detectRecursion_in order g0 !! k = Some f' /\
      (f' = f \/ f' = set_IsRecursive f) /\
      (IsRecursive f' = true <-> IsRecursive f = true \/ selfloop k \/ nontriv k)
  end.
Proof.
  intros Hord k. unfold detectRecursion_in.
  destruct (detect_fold order (tarjan_init g0) Inv_init) as (HI & _ & Hall).
  set (sf := fold_left (detect_step g0) order (tarjan_init g0)) in *.
  assert (Hstk : t_stack sf = []).
  { destruct (t_stack sf) as [|y l] eqn:E; [done|].
    destruct (inv_down _ _ HI y) as [x [Hx _]]; [rewrite E; left|inversion Hx]. }
  destruct (g0 !! k) as [f|] eqn:Hk.
  - assert (Hf' : exists f', t_functions sf !! k = Some f' /\ (f' = f \/ f' = set_IsRecursive f)).
    { destruct (inv_fns _ _ HI k) as [E|[f1 [Hf1 E]]].
      - rewrite Hk in E. exists f. auto.
      - rewrite Hk in Hf1. injection Hf1 as <-. exists (set_IsRecursive f). auto. }
    destruct Hf' as [f' [Ef' Hsh]]. exists f'. split; [done|]. split; [done|].
    rewrite (inv_mark _ _ HI k f f'); [|intros H; inversion H|done|done].
    assert (vis sf k) by (apply Hall, Hord; by exists f).
    rewrite Hstk. split.
    + intros [|[[_ ?]|[_ [_ ?]]]]; auto.
    + intros [|[|]]; [by left|right; left; auto|].
      right; right. split; [done|]. split; [intros H'; inversion H'|done].
  - destruct (inv_fns _ _ HI k) as [E|[f1 [Hf1 E]]]; [by rewrite E|congruence].
Qed.

Lemma map_to_list_keys (m : gmap string FunctionCall) k :
  is_Some (m !! k) -> k ∈ map fst (map_to_list m).
Proof.
  intros [f Hf]. apply list_elem_of_In.
  change k with (fst (k, f)). apply in_map. apply list_elem_of_In.
  by apply elem_of_map_to_list.
Qed.

(** Edges to callees that are keys of the map, and cycles over them. *)
Definition kedge (x y : string) : Prop := cedge x y /\ is_Some (g0 !! y).

Definition knontriv (x : string) : Prop :=
  exists y, y <> x /\ rtc kedge x y /\ rtc kedge y x.

Lemma reach_kreach a b : is_Some (g0 !! b) -> reach a b -> rtc kedge a b.
Proof.
  intros Hb Hab. revert b Hab Hb.
  apply (rtc_ind_r (fun b => is_Some (g0 !! b) -> rtc kedge a b)); [intros; apply rtc_refl|].
  intros c b _ Hcb IH Hb. apply rtc_r with c; [|split; [done|done]].
  apply IH. destruct Hcb as [f [Hf _]]. by exists f.
Qed.

Lemma nontriv_knontriv x : is_Some (g0 !! x) -> nontriv x <-> knontriv x.
Proof.
  intros Hx. split.
  - intros [y [Hyx [Hxy Hyx']]]. exists y. split; [done|].
    assert (Hy : is_Some (g0 !! y)).
    { inversion Hyx' as [|? z ? [f [Hf _]]]; [congruence|]. by exists f. }
    split; by apply reach_kreach.
  - intros [y [Hyx [Hxy Hyx']]]. exists y. split; [done|].
    split; (eapply rtc_subrel; [|eassumption]); intros ? ? []; done.
Qed.

End Tarjan.

(* ------------------------------------------------------------------ *)
(** ** Go syntax trees (go/ast) *)

(** The [go/ast] node kinds the analyses distinguish, each with its
    children in the order [ast.Walk] visits them; a node of any other
    kind is [Other] with its Go type name (as [%T] prints it) and its
    children.  Optional children ([nil] in Go) are [option]s. *)
Set Warnings "-register-all".
Inductive node : Type :=
| IfStmt (init : option node) (cond : node) (body : node) (els : option node)
| ForStmt (init cond post : option node) (body : node)
| RangeStmt (key value : option node) (x : node) (body : node)
| SwitchStmt (init tag : option node) (body : node)
| TypeSwitchStmt (init : option node) (assign : node) (body : node)
| SelectStmt (body : node)
| CaseClause (exprs : list node) (body : list node)
| CommClause (comm : option node) (body : list node)
| BinaryExpr (x : node) (op : string) (y : node)
| UnaryExpr (op : string) (x : node)
| StarExpr (x : node)
| SelectorExpr (x : node) (sel : string)
| ArrayType (len : option node) (elt : node)
| Ident (name : string)
| BasicLit (value : string)
| ReturnStmt (results : list node)
| Other (kind : string) (children : list node).

(** [ast.Inspect(n, f)] with a callback that always returns [true]: [f]
    sees every node of the tree in pre-order; its effect is the state it
    threads. *)
Fixpoint inspect {A : Type} (f : node -> A -> A) (n : node) (acc : A) {struct n} : A :=
  let acc := f n acc in
  match n with
  | IfStmt i c b e =>
      let acc := match i with Some i => inspect f i acc | None => acc end in
      let acc := inspect f c acc in
      let acc := inspect f b acc in
      match e with Some e => inspect f e acc | None => acc end
  | ForStmt i c p b =>
      let acc := match i with Some i => inspect f i acc | None => acc end in
      let acc := match c with Some c => inspect f c acc | None => acc end in
      let acc := match p with Some p => inspect f p acc | None => acc end in
      inspect f b acc
  | RangeStmt k v x b =>
      let acc := match k with Some k => inspect f k acc | None => acc end in
      let acc := match v with Some v => inspect f v acc | None => acc end in
      let acc := inspect f x acc in
      inspect f b acc
  | SwitchStmt i t b =>
      let acc := match i with Some i => inspect f i acc | None => acc end in
      let acc := match t with Some t => inspect f t acc | None => acc end in
      inspect f b acc
  | TypeSwitchStmt i a b =>
      let acc := match i with Some i => inspect f i acc | None => acc end in
      let acc := inspect f a acc in
      inspect f b acc
  | SelectStmt b => inspect f b acc
  | CaseClause l b =>
      let acc := fold_left (fun a c => inspect f c a) l acc in
      fold_left (fun a c => inspect f c a) b acc
  | CommClause c b =>
      let acc := match c with Some c => inspect f c acc | None => acc end in
      fold_left (fun a c => inspect f c a) b acc
  | BinaryExpr x _ y => inspect f y (inspect f x acc)
  | UnaryExpr _ x => inspect f x acc
  | StarExpr x => inspect f x acc
  | SelectorExpr x sel => f (Ident sel) (inspect f x acc)  (* the leaf [Sel] *)
  | ArrayType l e =>
      let acc := match l with Some l => inspect f l acc | None => acc end in
      inspect f e acc
  | Ident _ => acc
  | BasicLit _ => acc
  | ReturnStmt rs => fold_left (fun a c => inspect f c a) rs acc
  | Other _ cs => fold_left (fun a c => inspect f c a) cs acc
  end.

(** Induction over syntax trees, with the nested lists and options. *)
Section node_ind.
Variable P : node -> Prop.

Definition oP (o : option node) : Prop := match o with Some x => P x | None => True end.

Hypothesis H_if : forall i c b e, oP i -> P c -> P b -> oP e -> P (IfStmt i c b e).
Hypothesis H_for : forall i c p b, oP i -> oP c -> oP p -> P b -> P (ForStmt i c p b).
Hypothesis H_range : forall k v x b, oP k -> oP v -> P x -> P b -> P (RangeStmt k v x b).
Hypothesis H_switch : forall i t b, oP i -> oP t -> P b -> P (SwitchStmt i t b).
Hypothesis H_tswitch : forall i a b, oP i -> P a -> P b -> P (TypeSwitchStmt i a b).
Hypothesis H_select : forall b, P b -> P (SelectStmt b).
Hypothesis H_case : forall l b, Forall P l -> Forall P b -> P (CaseClause l b).
Hypothesis H_comm : forall c b, oP c -> Forall P b -> P (CommClause c b).
Hypothesis H_bin : forall x op y, P x -> P y -> P (BinaryExpr x op y).
Hypothesis H_un : forall op x, P x -> P (UnaryExpr op x).
Hypothesis H_star : forall x, P x -> P (StarExpr x).
Hypothesis H_sel : forall x sel, P x -> P (SelectorExpr x sel).
Hypothesis H_arr : forall l e, oP l -> P e -> P (ArrayType l e).
Hypothesis H_ident : forall name, P (Ident name).
Hypothesis H_lit : forall v, P (BasicLit v).
Hypothesis H_ret : forall rs, Forall P rs -> P (ReturnStmt rs).
Hypothesis H_other : forall k cs, Forall P cs -> P (Other k cs).

Fixpoint node_ind' (n : node) : P n :=
  let fix lst (l : list node) : Forall P l :=
    match l with
    | [] => @List.Forall_nil _ P
    | x :: l' => @List.Forall_cons _ P x l' (node_ind' x) (lst l')
    end in
  let opt (o : option node) : oP o :=
    match o return oP o with Some x => node_ind' x | None => I end in
  match n with
  | IfStmt i c b e => H_if i c b e (opt i) (node_ind' c) (node_ind' b) (opt e)
  | ForStmt i c p b => H_for i c p b (opt i) (opt c) (opt p) (node_ind' b)
  | RangeStmt k v x b => H_range k v x b (opt k) (opt v) (node_ind' x) (node_ind' b)
  | SwitchStmt i t b => H_switch i t b (opt i) (opt t) (node_ind' b)
  | TypeSwitchStmt i a b => H_tswitch i a b (opt i) (node_ind' a) (node_ind' b)
  | SelectStmt b => H_select b (node_ind' b)
  | CaseClause l b => H_case l b (lst l) (lst b)
  | CommClause c b => H_comm c b (opt c) (lst b)
  | BinaryExpr x op y => H_bin x op y (node_ind' x) (node_ind' y)
  | UnaryExpr op x => H_un op x (node_ind' x)
  | StarExpr x => H_star x (node_ind' x)
  | SelectorExpr x sel => H_sel x sel (node_ind' x)
  | ArrayType l e => H_arr l e (opt l) (node_ind' e)
  | Ident name => H_ident name
  | BasicLit v => H_lit v
  | ReturnStmt rs => H_ret rs (lst rs)
  | Other k cs => H_other k cs (lst cs)
  end.
End node_ind.

(** A field of a parameter, result or receiver list: its names and type. *)
Record Field := { f_names : list string; f_type : node }.

(** [*ast.FuncDecl].  [fd_recv] is [Recv] ([None] for a plain function);
    [fd_results] is [Type.Results] ([None] when there are none).  The
    model takes every declaration to have a body: for a body-less
    declaration [AnalyzeFile] already panics in its first
    [ast.Inspect(d.Body, ...)], which walks a nil [*ast.BlockStmt]. *)
Record FuncDecl := {
  fd_recv : option (list Field);
  fd_name : string;
  fd_params : list Field;
  fd_results : option (list Field);
  fd_body : node
}.

Definition field_node (fl : Field) : node :=
  Other "*ast.Field" (map Ident (f_names fl) ++ [f_type fl]).

Definition fieldlist_node (l : list Field) : node := Other "*ast.FieldList" (map field_node l).

(** The children of a [*ast.FuncDecl] before its body, in walk order:
    [Recv], [Name], [Type] (with [Params] and [Results]). *)
Definition decl_header (d : FuncDecl) : list node :=
  match fd_recv d with Some r => [fieldlist_node r] | None => [] end ++
  [Ident (fd_name d);
   Other "*ast.FuncType" ([fieldlist_node (fd_params d)] ++
     match fd_results d with Some r => [fieldlist_node r] | None => [] end)].

(** The declaration as a syntax tree. *)
Definition decl_node (d : FuncDecl) : node :=
  Other "*ast.FuncDecl" (decl_header d ++ [fd_body d]).

Definition isLogical (op : string) : bool := String.eqb op "&&" || String.eqb op "||".

(* ------------------------------------------------------------------ *)
(** ** ComputeComplexity (analyzer.go, lines 576-591) *)

(** The [ast.Inspect] callback: [complexity++] on the branching kinds and
    on [&&] and [||]. *)
Definition complexity_step (n : node) (complexity : nat) : nat :=
  match n with
  | IfStmt _ _ _ _ | ForStmt _ _ _ _ | RangeStmt _ _ _ _ | CaseClause _ _
  | CommClause _ _ | SelectStmt _ => S complexity
  | BinaryExpr _ op _ => if isLogical op then S complexity else complexity
  | _ => complexity
  end.

Definition ComputeComplexity (n : node) : nat := inspect complexity_step n 1.

(* ------------------------------------------------------------------ *)
(** ** ComputeCognitiveComplexity (analyzer.go, lines 809-875) *)

(** The closure's state: the fields of [cc] and [maxDepth]. *)
Record ccState := {
  cc_Score : nat;
  cc_LogicalOps : nat;
  cc_BranchingScore : nat;
  cc_maxDepth : nat
}.

Definition cc_depth (depth : nat) (st : ccState) : ccState :=
  {| cc_Score := cc_Score st; cc_LogicalOps := cc_LogicalOps st;
     cc_BranchingScore := cc_BranchingScore st;
     cc_maxDepth := if Nat.ltb (cc_maxDepth st) depth then depth else cc_maxDepth st |}.

(** [cc.BranchingScore++; cc.Score++] *)
Definition cc_branch (st : ccState) : ccState :=
  {| cc_Score := S (cc_Score st); cc_LogicalOps := cc_LogicalOps st;
     cc_BranchingScore := S (cc_BranchingScore st); cc_maxDepth := cc_maxDepth st |}.

(** [cc.LogicalOps++; cc.Score++] *)
Definition cc_logical (st : ccState) : ccState :=
  {| cc_Score := S (cc_Score st); cc_LogicalOps := S (cc_LogicalOps st);
     cc_BranchingScore := cc_BranchingScore st; cc_maxDepth := cc_maxDepth st |}.

(** [recursiveVisit(n, depth)].  A [nil] child returns at once, before the
    depth update: that is the [None] case of an optional child.  The last
    line of the Go closure visits [children(n)], the direct children in
    walk order; it is written out per kind here. *)
Fixpoint recursiveVisit (n : node) (depth : nat) (st : ccState) {struct n} : ccState :=
  let st := cc_depth depth st in
  match n with
  | IfStmt _ c b e =>
      let st := recursiveVisit c depth st in
      let st := cc_branch st in
      let st := recursiveVisit b (S depth) st in
      match e with Some e => recursiveVisit e (S depth) st | None => st end
  | ForStmt i c p b =>
      let st := match i with Some i => recursiveVisit i depth st | None => st end in
      let st := match c with Some c => recursiveVisit c depth st | None => st end in
      let st := match p with Some p => recursiveVisit p depth st | None => st end in
      let st := cc_branch st in
      recursiveVisit b (S depth) st
  | RangeStmt _ _ x b =>
      let st := recursiveVisit x depth st in
      let st := cc_branch st in
      recursiveVisit b (S depth) st
  | SwitchStmt _ t b =>
      let st := match t with Some t => recursiveVisit t depth st | None => st end in
      let st := cc_branch st in
      recursiveVisit b (S depth) st
  | BinaryExpr x op y =>
      let st := if isLogical op then cc_logical st else st in
      recursiveVisit y depth (recursiveVisit x depth st)
  (* the other kinds: [for _, child := range children(n)] *)
  | TypeSwitchStmt i a b =>
      let st := match i with Some i => recursiveVisit i depth st | None => st end in
      recursiveVisit b depth (recursiveVisit a depth st)
  | SelectStmt b => recursiveVisit b depth st
  | CaseClause l b =>
      let st := fold_left (fun st c => recursiveVisit c depth st) l st in
      fold_left (fun st c => recursiveVisit c depth st) b st
  | CommClause c b =>
      let st := match c with Some c => recursiveVisit c depth st | None => st end in
      fold_left (fun st c => recursiveVisit c depth st) b st
  | UnaryExpr _ x => recursiveVisit x depth st
  | StarExpr x => recursiveVisit x depth st
  | SelectorExpr x sel => cc_depth depth (recursiveVisit x depth st)  (* the leaf [Sel] *)
  | ArrayType l e =>
      let st := match l with Some l => recursiveVisit l depth st | None => st end in
      recursiveVisit e depth st
  | Ident _ => st
  | BasicLit _ => st
  | ReturnStmt rs => fold_left (fun st c => recursiveVisit c depth st) rs st
  | Other _ cs => fold_left (fun st c => recursiveVisit c depth st) cs st
  end.

(** [surrealtypes.CognitiveComplexityMetrics] *)
Record CognitiveComplexityMetrics := {
  Score : nat;
  NestedDepth : nat;
  LogicalOps : nat;
  CogBranchingScore : nat
}.

Definition ComputeCognitiveComplexity (fn : FuncDecl) : CognitiveComplexityMetrics :=
  let st := recursiveVisit (fd_body fn) 0
              {| cc_Score := 0; cc_LogicalOps := 0; cc_BranchingScore := 0; cc_maxDepth := 0 |} in
  {| Score := if Nat.ltb 0 (cc_BranchingScore st) then S (cc_Score st) else cc_Score st;
     NestedDepth := cc_maxDepth st;
     LogicalOps := cc_LogicalOps st;
     CogBranchingScore := cc_BranchingScore st |}.

(* ------------------------------------------------------------------ *)
(** ** Cyclomatic against cognitive complexity *)

(** The number of nodes [ComputeComplexity] counts in a tree. *)
Fixpoint cyclo_count (n : node) : nat :=
  complexity_step n 0 +
  match n with
  | IfStmt i c b e =>
      match i with Some i => cyclo_count i | None => 0 end + cyclo_count c + cyclo_count b +
      match e with Some e => cyclo_count e | None => 0 end
  | ForStmt i c p b =>
      match i with Some i => cyclo_count i | None => 0 end +
      match c with Some c => cyclo_count c | None => 0 end +
      match p with Some p => cyclo_count p | None => 0 end + cyclo_count b
  | RangeStmt k v x b =>
      match k with Some k => cyclo_count k | None => 0 end +
      match v with Some v => cyclo_count v | None => 0 end + cyclo_count x + cyclo_count b
  | SwitchStmt i t b =>
      match i with Some i => cyclo_count i | None => 0 end +
      match t with Some t => cyclo_count t | None => 0 end + cyclo_count b
  | TypeSwitchStmt i a b =>
      match i with Some i => cyclo_count i | None => 0 end + cyclo_count a + cyclo_count b
  | SelectStmt b => cyclo_count b
  | CaseClause l b =>
      list_sum (map (fun x => cyclo_count x) l) + list_sum (map (fun x => cyclo_count x) b)
  | CommClause c b =>
      match c with Some c => cyclo_count c | None => 0 end +
      list_sum (map (fun x => cyclo_count x) b)
  | BinaryExpr x _ y => cyclo_count x + cyclo_count y
  | UnaryExpr _ x | StarExpr x | SelectorExpr x _ => cyclo_count x
  | ArrayType l e => match l with Some l => cyclo_count l | None => 0 end + cyclo_count e
  | Ident _ | BasicLit _ => 0
  | ReturnStmt rs | Other _ rs => list_sum (map (fun x => cyclo_count x) rs)
  end.

(** Trees on which the cognitive visit meets every node [ComputeComplexity]
    counts, and counts it the same way: no [switch], type switch or
    [select] (hence no case or comm clause), and no counted node in the
    positions the visit skips (an [if]'s [Init], a [range]'s [Key] and
    [Value]). *)
Fixpoint plain (n : node) : bool :=
  match n with
  | IfStmt i c b e =>
      match i with Some i => Nat.eqb (cyclo_count i) 0 | None => true end &&
      plain c && plain b && match e with Some e => plain e | None => true end
  | ForStmt i c p b =>
      match i with Some i => plain i | None => true end &&
      match c with Some c => plain c | None => true end &&
      match p with Some p => plain p | None => true end && plain b
  | RangeStmt k v x b =>
      match k with Some k => Nat.eqb (cyclo_count k) 0 | None => true end &&
      match v with Some v => Nat.eqb (cyclo_count v) 0 | None => true end &&
      plain x && plain b
  | SwitchStmt _ _ _ | TypeSwitchStmt _ _ _ | SelectStmt _ | CaseClause _ _
  | CommClause _ _ => false
  | BinaryExpr x _ y => plain x && plain y
  | UnaryExpr _ x | StarExpr x | SelectorExpr x _ => plain x
  | ArrayType l e => match l with Some l => plain l | None => true end && plain e
  | Ident _ | BasicLit _ => true
  | ReturnStmt rs | Other _ rs => forallb (fun x => plain x) rs
  end.

Definition lb (st : ccState) : nat := cc_LogicalOps st + cc_BranchingScore st.
Arguments lb : simpl never.

Lemma lb_depth d st : lb (cc_depth d st) = lb st.
Proof. reflexivity. Qed.
Lemma lb_branch st : lb (cc_branch st) = S (lb st).
Proof. unfold lb. simpl. lia. Qed.
Lemma lb_logical st : lb (cc_logical st) = S (lb st).
Proof. reflexivity. Qed.

Lemma fold_inspect_count l :
  Forall (fun x => forall c, inspect complexity_step x c = c + cyclo_count x) l ->
  forall c, fold_left (fun a x => inspect complexity_step x a) l c =
            c + list_sum (map (fun x => cyclo_count x) l).
Proof.
  induction l as [|x l IH]; intros H c; simpl; [lia|].
  inversion H as [|? ? Hx Hl]; subst. rewrite IH by done. rewrite Hx. lia.
Qed.

Lemma inspect_complexity n : forall c, inspect complexity_step n c = c + cyclo_count n.
Proof.
  induction n using node_ind'; unfold oP in *;
    repeat match goal with o : option node |- _ => destruct o end;
    intros c0; simpl;
    rewrite ?fold_inspect_count by assumption;
    repeat match goal with
      H : forall c, inspect complexity_step ?x c = _ |- context [inspect complexity_step ?x _] =>
        rewrite H end;
    try (destruct (isLogical op)); simpl; lia.
Qed.

Lemma fold_visit_lb l :
  Forall (fun x => plain x = true -> forall d st,
            lb (recursiveVisit x d st) = lb st + cyclo_count x) l ->
  forallb (fun x => plain x) l = true ->
  forall d st, lb (fold_left (fun st c => recursiveVisit c d st) l st) =
               lb st + list_sum (map (fun x => cyclo_count x) l).
Proof.
  induction l as [|x l IH]; intros H Hp d st; simpl; [lia|].
  simpl in Hp. apply andb_true_iff in Hp as [Hx Hl].
  inversion H as [|? ? Hx' Hl']; subst. rewrite IH by done. rewrite Hx' by done. lia.
Qed.

Lemma visit_lb n : plain n = true ->
  forall d st, lb (recursiveVisit n d st) = lb st + cyclo_count n.
Proof.
  induction n using node_ind'; unfold oP in *;
    repeat match goal with o : option node |- _ => destruct o end;
    intros Hp d st; simpl in Hp |- *;
    repeat match goal with H : (_ && _) = true |- _ => apply andb_true_iff in H as [? ?] end;
    repeat match goal with H : Nat.eqb _ 0 = true |- _ => apply Nat.eqb_eq in H end;
    try discriminate;
    rewrite ?(fold_visit_lb _ ltac:(eassumption) ltac:(eassumption));
    repeat first
      [ rewrite lb_depth | rewrite lb_branch | rewrite lb_logical
      | match goal with
          H : plain ?x = true -> forall d st, lb (recursiveVisit ?x d st) = _
          |- context [lb (recursiveVisit ?x _ _)] => rewrite H by assumption
        end ];
    try (destruct (isLogical op); rewrite ?lb_logical, ?lb_depth); simpl; lia.
Qed.

Lemma cyclo_count_decl d :
  cyclo_count (decl_node d) =
  list_sum (map (fun x => cyclo_count x) (decl_header d)) + cyclo_count (fd_body d).
Proof.
  unfold decl_node. simpl. rewrite map_app, list_sum_app. simpl. lia.
Qed.

(* ------------------------------------------------------------------ *)
(** ** ComputeHalsteadMetrics (analyzer.go, lines 760-799) *)

(** [m[k]++] on a Go [map[string]int]: a missing key counts as 0. *)
Definition incr (k : string) (m : gmap string nat) : gmap string nat :=
  <[k := S (match m !! k with Some c => c | None => 0 end)]> m.

(** The [ast.Inspect] callback, on [(operators, operands)]. *)
Definition halstead_step (n : node) (acc : gmap string nat * gmap string nat)
    : gmap string nat * gmap string nat :=
  let '(operators, operands) := acc in
  match n with
  | BinaryExpr _ op _ => (incr op operators, operands)
  | UnaryExpr op _ => (incr op operators, operands)
  | Ident name => (operators, incr name operands)
  | BasicLit v => (operators, incr v operands)
  | _ => acc
  end.

(** [for _, count := range m { N += count }] *)
Definition map_total (m : gmap string nat) : nat := map_fold (fun _ c acc => acc + c) 0 m.

Record HalsteadCounts := { hc_n1 : nat; hc_n2 : nat; hc_N1 : nat; hc_N2 : nat }.

(** [n1 := len(operators)], [n2 := len(operands)], [N1], [N2] after
    [ast.Inspect(fn, ...)] over the whole declaration. *)
Definition halstead_counts (fn : FuncDecl) : HalsteadCounts :=
  let '(operators, operands) := inspect halstead_step (decl_node fn) (∅, ∅) in
  {| hc_n1 := size operators; hc_n2 := size operands;
     hc_N1 := map_total operators; hc_N2 := map_total operands |}.

(** [surrealtypes.HalsteadMetrics]. *)
Record HalsteadMetrics := {
  Operators : nat; Operands : nat; UniqueOperators : nat; UniqueOperands : nat;
  Volume : R; Difficulty : R; Effort : R
}.

(** [math.Log2], over the reals.  The float64 arithmetic is read as exact
    real arithmetic; the theorems below show that the arguments of the
    logarithm and the divisor never reach the points (0) where Go would
    produce -Inf or NaN, where the real model would differ. *)
Definition log2 (x : R) : R := (ln x / ln 2)%R.

(** The function sets only [Volume], [Difficulty] and [Effort]; the four
    counters of the result keep their zero value. *)
Definition ComputeHalsteadMetrics (fn : FuncDecl) : HalsteadMetrics :=
  let c := halstead_counts fn in
  let volume := (INR (hc_N1 c + hc_N2 c) * log2 (INR (hc_n1 c + hc_n2 c)))%R in
  let difficulty := (INR (hc_n1 c) * INR (hc_N2 c) / (2 * INR (hc_n2 c)))%R in
  let effort := (difficulty * volume)%R in
  {| Operators := 0; Operands := 0; UniqueOperators := 0; UniqueOperands := 0;
     Volume := volume; Difficulty := difficulty; Effort := effort |}.

Lemma halstead_step_keys n acc k :
  k ∈ dom acc.2 -> k ∈ dom (halstead_step n acc).2.
Proof.
  destruct acc as [ops opds]. unfold halstead_step.
  destruct n; simpl; try done; unfold incr; rewrite dom_insert; set_solver.
Qed.

Lemma inspect_halstead_keys n : forall acc k,
  k ∈ dom acc.2 -> k ∈ dom (inspect halstead_step n acc).2.
Proof.
  assert (Hl : forall l, Forall (fun x => forall acc k, k ∈ dom acc.2 ->
                 k ∈ dom (inspect halstead_step x acc).2) l ->
               forall acc k, k ∈ dom acc.2 ->
               k ∈ dom (fold_left (fun a x => inspect halstead_step x a) l acc).2).
  { induction l as [|x l IH]; intros HF acc k Hk; simpl; [done|].
    inversion HF; subst. apply IH; auto. }
  induction n using node_ind'; unfold oP in *;
    repeat match goal with o : option node |- _ => destruct o end;
    intros acc key Hk; simpl;
    repeat first
      [ apply halstead_step_keys
      | apply Hl; [assumption|]
      | match goal with H : forall acc k, _ -> k ∈ dom (inspect halstead_step ?x acc).2
          |- _ ∈ dom (inspect halstead_step ?x _).2 => apply H end ];
    exact Hk.
Qed.

Lemma fold_halstead_keys l : forall acc k, k ∈ dom acc.2 ->
  k ∈ dom (fold_left (fun a x => inspect halstead_step x a) l acc).2.
Proof.
  induction l as [|x l IH]; intros acc k Hk; simpl; [done|].
  apply IH, inspect_halstead_keys, Hk.
Qed.

Lemma halstead_name_operand fn : 1 <= hc_n2 (halstead_counts fn).
Proof.
  unfold halstead_counts.
  assert (Hk : fd_name fn ∈ dom (inspect halstead_step (decl_node fn) (∅, ∅)).2).
  { unfold decl_node. cbn [inspect]. rewrite fold_left_app.
    apply fold_halstead_keys. unfold decl_header. rewrite fold_left_app.
    cbn [fold_left]. apply (inspect_halstead_keys (Other _ _)). cbn [inspect].
    destruct (fold_left _ _ _) as [ops opds]. simpl. unfold incr.
    rewrite dom_insert. set_solver. }
  destruct (inspect halstead_step (decl_node fn) (∅, ∅)) as [ops opds]. simpl in *.
  rewrite <- size_dom.
  destruct (decide (size (dom opds) = 0)) as [H0|]; [|lia].
  apply size_empty_inv in H0. apply leibniz_equiv in H0.
  rewrite H0 in Hk. set_solver.
Qed.

Lemma log2_nonneg x : (1 <= x)%R -> (0 <= log2 x)%R.
Proof.
  intros Hx. unfold log2. pose proof ln_lt_2.
  destruct (Rle_lt_or_eq_dec 1 x Hx) as [Hlt|<-].
  - pose proof (ln_increasing 1 x ltac:(lra) Hlt). rewrite ln_1 in *.
    apply Rmult_le_pos; [lra|]. apply Rlt_le, Rinv_0_lt_compat. lra.
  - rewrite ln_1. unfold Rdiv. lra.
Qed.

(* ------------------------------------------------------------------ *)
(** ** calculateMaintainability (analyzer.go, lines 694-696) *)

(** [CodeReadabilityMetrics]; only [NestingDepth] enters the formula. *)
Record CodeReadabilityMetrics := {
  FunctionLength : nat;
  NestingDepth : nat;
  CommentDensity : R;
  CyclomaticPoints : nat;
  BranchDensity : R
}.

(** [171 - 5.2*math.Log(float64(complexity)) - 0.23*float64(r.NestingDepth)]
    with the Go [int] [complexity] as [Z]. *)
Definition calculateMaintainability (r : CodeReadabilityMetrics) (complexity : Z) : R :=
  (171 - 5.2 * ln (IZR complexity) - 0.23 * INR (NestingDepth r))%R.

(* ------------------------------------------------------------------ *)
(** ** Duplicate detection (analyzer.go, lines 700-757) *)

Local Open Scope string_scope.

(** The [ast.Inspect] callback of [extractFunctionBody], appending to the
    [strings.Builder]. *)
Definition body_step (n : node) (buf : string) : string :=
  match n with
  | Ident name => buf ++ name ++ " "
  | BasicLit v => buf ++ v ++ " "
  | BinaryExpr _ op _ => buf ++ op ++ " "
  | ReturnStmt _ => buf ++ "return "
  | _ => buf
  end.

(** [unicode.IsSpace] on a byte below [0x80]. *)
Definition is_space (a : ascii) : bool :=
  match nat_of_ascii a with
  | 9 | 10 | 11 | 12 | 13 | 32 => true
  | _ => false
  end.

Fixpoint trim_left (l : list ascii) : list ascii :=
  match l with
  | a :: l' => if is_space a then trim_left l' else l
  | [] => []
  end.

(** [strings.TrimSpace].  The builder holds identifiers, literals and
    operator tokens, each followed by one space; none of them starts or
    ends with a non-ASCII space, so trimming the ASCII spaces is what Go
    does on these strings. *)
Definition TrimSpace (s : string) : string :=
  String.string_of_list_ascii (rev (trim_left (rev (trim_left (String.list_ascii_of_string s))))).

(** [extractFunctionBody]; every modelled declaration has a body. *)
Definition extractFunctionBody (fn : FuncDecl) : string :=
  TrimSpace (inspect body_step (fd_body fn) EmptyString).

(** [rabinKarpHash]: [hash = hash*31 + uint64(s[i])] over the bytes, in
    [uint64], that is modulo [2^64]. *)
Definition rabinKarpHash (s : string) : Z :=
  fold_left (fun hash c => ((hash * 31 + Z.of_N (N_of_ascii c)) mod 2 ^ 64)%Z)
    (String.list_ascii_of_string s) 0%Z.

(** [CodeDuplicationDetector.DetectDuplication]: the answer and the
    [seen] map after the call (the lock only orders the accesses). *)
Definition DetectDuplication (seen : gmap Z string) (fn : FuncDecl) : bool * gmap Z string :=
  let body := extractFunctionBody fn in
  let hash := rabinKarpHash body in
  match seen !! hash with
  | Some _ => (true, seen)
  | None => (false, <[hash := body]> seen)
  end.

(** A sequence of calls on one detector: the answers, in order, and the
    final [seen] map. *)
Fixpoint detect_all (seen : gmap Z string) (fns : list FuncDecl) : list bool * gmap Z string :=
  match fns with
  | [] => ([], seen)
  | fn :: rest =>
      let '(dup, seen') := DetectDuplication seen fn in
      let '(dups, seen'') := detect_all seen' rest in
      (dup :: dups, seen'')
  end.

(** The hash under which [DetectDuplication] files a declaration. *)
Definition body_hash (fn : FuncDecl) : Z := rabinKarpHash (extractFunctionBody fn).

(* ------------------------------------------------------------------ *)
(** ** AnalyzeFile (analyzer.go, lines 113-336) *)

(** [fmt.Sprintf("%T", expr)] for the kinds of the model. *)
Definition type_string (n : node) : string :=
  match n with
  | IfStmt _ _ _ _ => "*ast.IfStmt"
  | ForStmt _ _ _ _ => "*ast.ForStmt"
  | RangeStmt _ _ _ _ => "*ast.RangeStmt"
  | SwitchStmt _ _ _ => "*ast.SwitchStmt"
  | TypeSwitchStmt _ _ _ => "*ast.TypeSwitchStmt"
  | SelectStmt _ => "*ast.SelectStmt"
  | CaseClause _ _ => "*ast.CaseClause"
  | CommClause _ _ => "*ast.CommClause"
  | BinaryExpr _ _ _ => "*ast.BinaryExpr"
  | UnaryExpr _ _ => "*ast.UnaryExpr"
  | StarExpr _ => "*ast.StarExpr"
  | SelectorExpr _ _ => "*ast.SelectorExpr"
  | ArrayType _ _ => "*ast.ArrayType"
  | Ident _ => "*ast.Ident"
  | BasicLit _ => "*ast.BasicLit"
  | ReturnStmt _ => "*ast.ReturnStmt"
  | Other kind _ => kind
  end.

(** [simpleTypeString] *)
Fixpoint simpleTypeString (expr : node) : string :=
  match expr with
  | Ident name => name
  | StarExpr x => "*" ++ simpleTypeString x
  | SelectorExpr x sel => simpleTypeString x ++ "." ++ sel
  | ArrayType _ elt => "[]" ++ simpleTypeString elt
  | _ => type_string expr
  end.

(** The full name [AnalyzeFile] and [findFunctionDecl] give a declaration:
    [Recv.List[0]]'s type and the name, or the bare name. *)
Definition methodName (d : FuncDecl) : string :=
  match fd_recv d with
  | Some (r :: _) => simpleTypeString (f_type r) ++ "." ++ fd_name d
  | _ => fd_name d
  end.

(** The top-level declarations of a file: functions, and the [GenDecl]s
    (imports, variables, constants, types), whose contents the modelled
    claims do not read. *)
Inductive Decl := FuncD (d : FuncDecl) | GenD.

(** A parsed [*ast.File]: the package name and the declarations. *)
Record GoFile := { PkgName : string; Decls : list Decl }.

(** The outcome of [parser.ParseFile] on a path. *)
Inductive ParseResult := ParseError (err : string) | Parsed (f : GoFile).

(** A Go [(T, error)] pair: a value or an error message. *)
Inductive result (A : Type) := Ok (a : A) | Err (e : string).
Arguments Ok {A} a.
Arguments Err {A} e.

Fixpoint file_funcs (ds : list Decl) : list FuncDecl :=
  match ds with
  | FuncD d :: rest => d :: file_funcs rest
  | GenD :: rest => file_funcs rest
  | [] => []
  end.

(** The record the first loop of [AnalyzeFile] appends for a [FuncDecl]. *)
Definition new_call (path pkgName : string) (d : FuncDecl) : FunctionCall :=
  {| Caller := methodName d; Callees := []; File := path; Package := pkgName;
     Params := map (fun p => simpleTypeString (f_type p)) (fd_params d);
     Returns := match fd_results d with
                | Some rs => map (fun r => simpleTypeString (f_type r)) rs
                | None => []
                end;
     IsMethod := match fd_recv d with Some _ => true | None => false end;
     IsRecursive := false; IsDuplicate := false;
     Struct := match fd_recv d with
               | Some (r :: _) => simpleTypeString (f_type r)
               | _ => EmptyString
               end;
     Metrics := {| CyclomaticComplexity := 0; IsUnused := false |} |}.

(** [findFunctionDecl]: the first function declaration of the file with
    the given full name. *)
Definition findFunctionDecl (file : GoFile) (name : string) : option FuncDecl :=
  List.find (fun d => bool_decide (methodName d = name)) (file_funcs (Decls file)).

(** [functions[i].IsDuplicate = true] when the detector says so, then
    [functions[i].Metrics = ...]. *)
Definition set_metrics (fn : FunctionCall) (dup : bool) (d : FuncDecl) : FunctionCall :=
  {| Caller := Caller fn; Callees := Callees fn; File := File fn;
     Package := Package fn; Params := Params fn; Returns := Returns fn;
     IsMethod := IsMethod fn; IsRecursive := IsRecursive fn;
     IsDuplicate := if dup then true else IsDuplicate fn; Struct := Struct fn;
     Metrics := {| CyclomaticComplexity := ComputeComplexity (decl_node d);
                   IsUnused := false |} |}.

(** The second loop of [AnalyzeFile], threading the detector's map. *)
Fixpoint metrics_loop (file : GoFile) (seen : gmap Z string) (fns : list FunctionCall)
    : list FunctionCall :=
  match fns with
  | [] => []
  | fn :: rest =>
      match findFunctionDecl file (Caller fn) with
      | Some d =>
          let '(dup, seen') := DetectDuplication seen d in
          set_metrics fn dup d :: metrics_loop file seen' rest
      | None => fn :: metrics_loop file seen rest
      end
  end.

(** [AnalyzeFile], for the [Functions] of its [FileAnalysis].  A fresh
    detector ([NewCodeDuplicationDetector]) is made for each file. *)
Definition AnalyzeFile (path : string) (pr : ParseResult) : result (list FunctionCall) :=
  match pr with
  | ParseError err => Err ("failed to parse " ++ path ++ ": " ++ err)
  | Parsed file =>
      Ok (metrics_loop file ∅ (map (new_call path (PkgName file)) (file_funcs (Decls file))))
  end.

(* ------------------------------------------------------------------ *)
(** ** DetectDeadCode (analyzer.go, lines 508-551) *)

(** [strings.Contains(callee, ".")] *)
Definition contains_dot (s : string) : bool :=
  existsb (fun a => bool_decide (a = "."%char)) (String.list_ascii_of_string s).

(** [unicode.IsUpper(rune(b))] for a byte [b]: the Latin-1 upper-case
    letters [A-Z], [0xC0-0xD6] and [0xD8-0xDE]. *)
Definition is_upper_byte (b : nat) : bool :=
  ((65 <=? b) && (b <=? 90) || (192 <=? b) && (b <=? 214) || (216 <=? b) && (b <=? 222))%nat.

(** [isExported]: the first byte of the name, read as a rune. *)
Definition isExported (fname : string) : bool :=
  match fname with
  | EmptyString => false
  | String c _ => is_upper_byte (nat_of_ascii c)
  end.

(** [markReachable], with a fuel argument bounding the recursion; every
    call made by [DetectDeadCode] gets more fuel than the number of keys,
    which the recursion never exhausts (see [mark_spec]). *)
Fixpoint markReachable (fuel : nat) (fname : string)
    (functions : gmap string FunctionCall) (reachable : gset string) : gset string :=
  match fuel with
  | 0 => reachable
  | S fuel' =>
      if bool_decide (fname ∈ reachable) then reachable else
      let reachable := {[fname]} ∪ reachable in
      match functions !! fname with
      | Some fn =>
          fold_left (fun r callee =>
                       if contains_dot callee then r
                       else markReachable fuel' callee functions r)
            (Callees fn) reachable
      | None => reachable
      end
  end.

(** [DeadCodeInfo] *)
Record DeadCodeInfo := {
  Reachable : gset string;
  UnusedFunctions : list string
}.

(** [DetectDeadCode], with the two iteration orders of the map
    [functions] (each a listing of its keys) made explicit. *)
Definition DetectDeadCode_in (order1 order2 : list string)
    (functions : gmap string FunctionCall) (entryPoints : list string) : DeadCodeInfo :=
  let fuel := S (size functions) in
  let r := fold_left (fun r entry => markReachable fuel entry functions r) entryPoints ∅ in
  let r := fold_left (fun r fname =>
                        if isExported fname then markReachable fuel fname functions r else r)
             order1 r in
  {| Reachable := r;
     UnusedFunctions :=
       List.filter (fun fname => negb (bool_decide (fname ∈ r)) && negb (isExported fname)
                                 && negb (bool_decide (fname ∈ entryPoints))) order2 |}.

Definition DetectDeadCode (functions : gmap string FunctionCall) (entryPoints : list string)
    : DeadCodeInfo :=
  let order := map fst (map_to_list functions) in
  DetectDeadCode_in order order functions entryPoints.

(* ------------------------------------------------------------------ *)
(** ** GetAnalysis (analyzer.go, lines 404-449) *)

(** [for _, fn := range analysis.Functions { functionMap[fn.Caller] = fn }] *)
Definition merge_functions (functionMap : gmap string FunctionCall) (fns : list FunctionCall)
    : gmap string FunctionCall :=
  fold_left (fun m fn => <[Caller fn := fn]> m) fns functionMap.

(** The loop over the files: the first failing [AnalyzeFile] ends it. *)
Fixpoint merge_files (functionMap : gmap string FunctionCall)
    (files : list (string * ParseResult)) : result (gmap string FunctionCall) :=
  match files with
  | [] => Ok functionMap
  | (path, pr) :: rest =>
      match AnalyzeFile path pr with
      | Err e => Err e
      | Ok fns => merge_files (merge_functions functionMap fns) rest
      end
  end.

(** [report.Functions[i].Metrics.IsUnused = ...] *)
Definition set_IsUnused (fn : FunctionCall) (b : bool) : FunctionCall :=
  {| Caller := Caller fn; Callees := Callees fn; File := File fn;
     Package := Package fn; Params := Params fn; Returns := Returns fn;
     IsMethod := IsMethod fn; IsRecursive := IsRecursive fn;
     IsDuplicate := IsDuplicate fn; Struct := Struct fn;
     Metrics := {| CyclomaticComplexity := CyclomaticComplexity (Metrics fn);
                   IsUnused := b |} |}.

(** [GetAnalysis], for the [Functions] of the report.  The directory walk
    is given as its result: the [.go] files found, each with the outcome
    of parsing it.  The map is turned into a slice in the order of
    [map_to_list]; Go's order is unspecified. *)
Definition GetAnalysis (files : list (string * ParseResult)) : result (list FunctionCall) :=
  match merge_files ∅ files with
  | Err e => Err e
  | Ok functionMap =>
      let functionMap := detectRecursion functionMap in
      let fns := map snd (map_to_list functionMap) in
      let deadCode := DetectDeadCode functionMap ["main"; "complex"] in
      Ok (map (fun fn => set_IsUnused fn (bool_decide (Caller fn ∈ UnusedFunctions deadCode))) fns)
  end.

(* ------------------------------------------------------------------ *)
(** ** Lemmas on duplicate detection *)

Lemma detect_all_app (seen : gmap Z string) (l1 l2 : list FuncDecl) :
  detect_all seen (app l1 l2) =
  (app (detect_all seen l1).1 (detect_all (detect_all seen l1).2 l2).1,
   (detect_all (detect_all seen l1).2 l2).2).
Proof.
  revert seen. induction l1 as [|fn l1 IH]; intros seen; simpl.
  - by destruct (detect_all seen l2).
  - destruct (DetectDuplication seen fn) as [dup seen'].
    rewrite IH. destruct (detect_all seen' l1) as [d1 s1]. simpl.
    by destruct (detect_all s1 l2).
Qed.

Lemma detect_all_dom (seen : gmap Z string) (l : list FuncDecl) (h : Z) :
  h ∈ dom (detect_all seen l).2 <-> h ∈ dom seen \/ h ∈ map body_hash l.
Proof.
  revert seen. induction l as [|fn l IH]; intros seen; simpl.
  - rewrite elem_of_nil. tauto.
  - unfold DetectDuplication. fold (body_hash fn).
    destruct (seen !! body_hash fn) eqn:E.
    + destruct (detect_all seen l) as [d st] eqn:Ed. simpl.
      specialize (IH seen). rewrite Ed in IH. simpl in IH. rewrite IH, elem_of_cons.
      assert (body_hash fn ∈ dom seen) by (apply elem_of_dom; eauto).
      split; [tauto|]. intros [?|[->|?]]; tauto.
    + destruct (detect_all (<[body_hash fn:=extractFunctionBody fn]> seen) l) as [d st] eqn:Ed.
      simpl. specialize (IH (<[body_hash fn:=extractFunctionBody fn]> seen)).
      rewrite Ed in IH. simpl in IH. rewrite IH, dom_insert, elem_of_union,
        elem_of_singleton, elem_of_cons. tauto.
Qed.

Lemma detect_all_length (seen : gmap Z string) (l : list FuncDecl) :
  length (detect_all seen l).1 = length l.
Proof.
  revert seen. induction l as [|fn l IH]; intros seen; simpl; [done|].
  destruct (DetectDuplication seen fn) as [dup seen'].
  specialize (IH seen'). destruct (detect_all seen' l). simpl in *. lia.
Qed.

(** The answer to the call on the [i]-th declaration is whether its hash
    is in the map at that time, the map after the first [i] calls. *)
Lemma detect_all_lookup_seen (seen : gmap Z string) (l : list FuncDecl) (i : nat) (g : FuncDecl) :
  l !! i = Some g ->
  (detect_all seen l).1 !! i =
    Some (bool_decide (body_hash g ∈ dom (detect_all seen (take i l)).2)).
Proof.
  intros Hi. rewrite <- (take_drop_middle l i g Hi) at 1.
  rewrite detect_all_app. simpl.
  assert (Hlen : length (detect_all seen (take i l)).1 = i).
  { rewrite detect_all_length, length_take.
    apply lookup_lt_Some in Hi. lia. }
  rewrite lookup_app_r by lia. rewrite Hlen, Nat.sub_diag.
  unfold DetectDuplication. fold (body_hash g).
  destruct (lookup (body_hash g) (detect_all seen (take i l)).2) eqn:E.
  - destruct (detect_all (detect_all seen (take i l)).2 (drop (S i) l)). simpl.
    rewrite bool_decide_true; [done|]. apply elem_of_dom. eauto.
  - destruct (detect_all _ (drop (S i) l)). simpl.
    rewrite bool_decide_false; [done|]. rewrite elem_of_dom, E. by intros [? ?].
Qed.

Lemma elem_of_map_take_hash (l : list FuncDecl) (i : nat) (h : Z) :
  h ∈ map body_hash (take i l) <->
  exists j f, j < i /\ l !! j = Some f /\ body_hash f = h.
Proof.
  rewrite list_elem_of_fmap. split.
  - intros [f [-> Hf]]. apply list_elem_of_lookup in Hf as [j Hj].
    rewrite lookup_take_Some in Hj. destruct Hj as [Hj Hlt]. eauto.
  - intros [j [f [Hlt [Hj <-]]]]. exists f. split; [done|].
    apply list_elem_of_lookup. exists j. rewrite lookup_take_Some. auto.
Qed.

(** The call on the [i]-th declaration answers [true] exactly when its
    hash is in the starting map or is the hash of an earlier one. *)
Lemma detect_all_lookup (seen : gmap Z string) (l : list FuncDecl) (i : nat) (g : FuncDecl) :
  l !! i = Some g ->
  exists b, (detect_all seen l).1 !! i = Some b /\
    (b = true <-> body_hash g ∈ dom seen \/
                  exists j f, j < i /\ l !! j = Some f /\ body_hash f = body_hash g).
Proof.
  intros Hi. eexists. split; [apply (detect_all_lookup_seen seen l i g Hi)|].
  rewrite bool_decide_eq_true, detect_all_dom, elem_of_map_take_hash. tauto.
Qed.

Lemma body_hash_body (f g : FuncDecl) : fd_body f = fd_body g -> body_hash f = body_hash g.
Proof. intros E. unfold body_hash, extractFunctionBody. by rewrite E. Qed.

(* ------------------------------------------------------------------ *)
(** ** Lemmas on AnalyzeFile *)

(** [findFunctionDecl] finds a declaration for the full name of each
    function declaration of the file. *)
Lemma findFunctionDecl_some (file : GoFile) (d : FuncDecl) :
  d ∈ file_funcs (Decls file) -> is_Some (findFunctionDecl file (methodName d)).
Proof.
  intros Hd. unfold findFunctionDecl.
  destruct (List.find _ _) eqn:E; [eauto|].
  apply list_elem_of_In in Hd.
  pose proof (List.find_none _ _ E d Hd) as H. simpl in H.
  rewrite bool_decide_true in H; [discriminate|done].
Qed.

Lemma omap_lookup_total {A B} (F : A -> option B) (l : list A) :
  (forall x, x ∈ l -> is_Some (F x)) ->
  forall k, omap F l !! k = (l !! k) ≫= F.
Proof.
  induction l as [|x l IH]; intros Hall k; [done|].
  assert (Hx : is_Some (F x)) by (apply Hall; left).
  assert (Hl : forall y, y ∈ l -> is_Some (F y)) by (intros y Hy; apply Hall; by right).
  destruct Hx as [y Hy]. simpl. rewrite Hy.
  destruct k as [|k]; simpl; [done|]. by apply IH.
Qed.

(** The [IsDuplicate] flags set by the second loop of [AnalyzeFile] are
    the answers of the detector on the declarations it finds. *)
Lemma metrics_loop_dup (file : GoFile) (path pkg : string) (ds : list FuncDecl) :
  (forall d, d ∈ ds -> is_Some (findFunctionDecl file (methodName d))) ->
  forall seen,
  map IsDuplicate (metrics_loop file seen (map (new_call path pkg) ds)) =
  (detect_all seen (omap (fun d => findFunctionDecl file (methodName d)) ds)).1.
Proof.
  induction ds as [|d ds IH]; intros Hall seen; [done|].
  assert (Hd : is_Some (findFunctionDecl file (methodName d))) by (apply Hall; left).
  assert (Hl : forall y, y ∈ ds -> is_Some (findFunctionDecl file (methodName y)))
    by (intros y Hy; apply Hall; by right).
  destruct Hd as [dd Hdd]. simpl. rewrite Hdd. simpl.
  destruct (DetectDuplication seen dd) as [dup seen'] eqn:ED. rewrite ?ED.
  specialize (IH Hl seen'). destruct (detect_all seen' _) as [dups s'']. simpl in *.
  rewrite IH. by destruct dup.
Qed.

Lemma metrics_loop_length (file : GoFile) (seen : gmap Z string) (fns : list FunctionCall) :
  length (metrics_loop file seen fns) = length fns.
Proof.
  revert seen. induction fns as [|fn fns IH]; intros seen; simpl; [done|].
  destruct (findFunctionDecl file (Caller fn)) as [d|]; simpl; [|by rewrite IH].
  destruct (DetectDuplication seen d). simpl. by rewrite IH.
Qed.

(** The second loop keeps the fields set by the first one, apart from
    [IsDuplicate] and [Metrics]. *)
Lemma metrics_loop_lookup (file : GoFile) (seen : gmap Z string) (fns : list FunctionCall)
    (i : nat) (r : FunctionCall) :
  metrics_loop file seen fns !! i = Some r ->
  exists fn, fns !! i = Some fn /\ Caller r = Caller fn /\ Package r = Package fn /\
    File r = File fn /\ Callees r = Callees fn.
Proof.
  revert seen i. induction fns as [|fn fns IH]; intros seen i Hi; [done|].
  simpl in Hi. destruct (findFunctionDecl file (Caller fn)) as [d|].
  - destruct (DetectDuplication seen d) as [dup seen'].
    destruct i as [|i]; simpl in Hi.
    + injection Hi as <-. exists fn. done.
    + exact (IH seen' i Hi).
  - destruct i as [|i]; simpl in Hi.
    + injection Hi as <-. exists fn. done.
    + exact (IH seen i Hi).
Qed.

(* ------------------------------------------------------------------ *)
(** ** Lemmas on GetAnalysis *)

(** Each record [AnalyzeFile] returns comes from a function declaration
    of the file: its [Caller] is the declaration's full name, its
    [Package] the file's package and its [File] the path. *)
Lemma AnalyzeFile_record (path : string) (file : GoFile) (out : list FunctionCall)
    (r : FunctionCall) :
  AnalyzeFile path (Parsed file) = Ok out -> r ∈ out ->
  exists d, d ∈ file_funcs (Decls file) /\ Caller r = methodName d /\
    Package r = PkgName file /\ File r = path.
Proof.
  intros Hout Hr. simpl in Hout. injection Hout as <-.
  apply list_elem_of_lookup in Hr as [i Hi].
  destruct (metrics_loop_lookup _ _ _ i r Hi) as [fn [Hfn [HC [HP [HF _]]]]].
  rewrite list_lookup_fmap in Hfn.
  destruct (file_funcs (Decls file) !! i) as [d|] eqn:Ed; [|discriminate].
  injection Hfn as <-. exists d. split; [by eapply list_elem_of_lookup_2|].
  rewrite HC, HP, HF. done.
Qed.

Lemma merge_functions_inv (Q : FunctionCall -> Prop) (fns : list FunctionCall) :
  forall m, (forall k r, m !! k = Some r -> Caller r = k /\ Q r) ->
  (forall r, r ∈ fns -> Q r) ->
  forall k r, merge_functions m fns !! k = Some r -> Caller r = k /\ Q r.
Proof.
  induction fns as [|fn fns IH]; intros m Hm Hfns; [exact Hm|].
  apply IH.
  - intros k r Hk. destruct (decide (Caller fn = k)) as [<-|Hne].
    + rewrite lookup_insert_eq in Hk. injection Hk as <-. split; [done|]. apply Hfns. left.
    + rewrite lookup_insert_ne in Hk by done. by apply Hm.
  - intros r Hr. apply Hfns. by right.
Qed.

(** Every record of the merged map is stored under its [Caller] and
    satisfies what all the records of the analysed files satisfy. *)
Lemma merge_files_inv (Q : FunctionCall -> Prop) (files : list (string * ParseResult)) :
  forall m fm, (forall k r, m !! k = Some r -> Caller r = k /\ Q r) ->
  (forall path file out r, (path, Parsed file) ∈ files ->
     AnalyzeFile path (Parsed file) = Ok out -> r ∈ out -> Q r) ->
  merge_files m files = Ok fm ->
  forall k r, fm !! k = Some r -> Caller r = k /\ Q r.
Proof.
  induction files as [|[path pr] files IH]; intros m fm Hm Hfiles Hmerge.
  - simpl in Hmerge. injection Hmerge as <-. exact Hm.
  - simpl in Hmerge. destruct pr as [err|file]; simpl in Hmerge; [discriminate|].
    refine (IH _ _ _ (fun p f o r Hin => Hfiles p f o r (list_elem_of_further _ _ _ Hin)) Hmerge).
    apply merge_functions_inv; [exact Hm|].
    intros r Hr. exact (Hfiles path file _ r (list_elem_of_here _ _) eq_refl Hr).
Qed.

(** [detectRecursion] keeps the keys and gives back each record, or the
    record with [IsRecursive] set. *)
Lemma detectRecursion_lookup (fm : gmap string FunctionCall) (k : string) (r' : FunctionCall) :
  detectRecursion fm !! k = Some r' ->
  exists r, fm !! k = Some r /\ (r' = r \/ r' = set_IsRecursive r).
Proof.
  intros H. unfold detectRecursion in H.
  pose proof (detectRecursion_in_correct fm _ (map_to_list_keys fm) k) as Hc.
  destruct (fm !! k) as [r|] eqn:E.
  - destruct Hc as [f' [Hf' [Hor _]]]. rewrite H in Hf'. injection Hf' as <-. eauto.
  - congruence.
Qed.

(** A record of the report is a record of the merged map, with
    [IsRecursive] and [IsUnused] possibly changed. *)
Lemma GetAnalysis_record (files : list (string * ParseResult)) (fns : list FunctionCall)
    (r : FunctionCall) :
  GetAnalysis files = Ok fns -> r ∈ fns ->
  exists fm k r0, merge_files ∅ files = Ok fm /\ fm !! k = Some r0 /\
    Caller r = Caller r0 /\ Package r = Package r0 /\ File r = File r0 /\
    IsDuplicate r = IsDuplicate r0.
Proof.
  unfold GetAnalysis. destruct (merge_files ∅ files) as [fm|e] eqn:Em; [|discriminate].
  intros Hfns Hr. injection Hfns as <-.
  apply list_elem_of_fmap in Hr as [fn [-> Hfn]].
  apply list_elem_of_fmap in Hfn as [[k fn'] [Heq Hkv]]. simpl in Heq. subst fn'.
  apply elem_of_map_to_list in Hkv.
  destruct (detectRecursion_lookup fm k fn Hkv) as [r0 [Hr0 Hor]].
  exists fm, k, r0. split; [done|]. split; [done|].
  destruct Hor as [->| ->]; simpl; auto.
Qed.

(* ------------------------------------------------------------------ *)
(** ** Lemmas on DetectDeadCode *)

Section DeadCode.
Variable fns : gmap string FunctionCall.

(** The edges [markReachable] follows: from a key of the map to each of
    its callees with no ["."] in the name. *)
Definition dedge (y c : string) : Prop :=
  exists f, fns !! y = Some f /\ c ∈ Callees f /\ contains_dot c = false.

(** A call [markReachable fuel x fns r], with more fuel than keys outside
    [r], gives a set [r'] holding [r] and [x]; each name it adds is
    reachable from [x], and the callees of each name it adds are in
    [r']. *)
Definition mark_post (x : string) (r r' : gset string) : Prop :=
  r ⊆ r' /\ x ∈ r' /\
  (forall y, y ∈ r' -> y ∉ r -> rtc dedge x y) /\
  (forall y c, y ∈ r' -> y ∉ r -> dedge y c -> c ∈ r').

Lemma mark_spec (fuel : nat) : forall x r,
  size (dom fns ∖ r) < fuel -> mark_post x r (markReachable fuel x fns r).
Proof.
  induction fuel as [|n IH]; intros x r Hfuel; [lia|]. simpl.
  case_bool_decide as Hx.
  { repeat split; [done|done|set_solver|set_solver]. }
  destruct (fns !! x) as [f|] eqn:Ef.
  2: { repeat split; [set_solver|set_solver| |].
       - intros y Hy Hyr. assert (y = x) as -> by set_solver. apply rtc_refl.
       - intros y c Hy Hyr [f' [Hf' _]]. assert (y = x) as -> by set_solver. congruence. }
  set (r1 := {[x]} ∪ r).
  assert (Hsz : forall rc, r1 ⊆ rc -> size (dom fns ∖ rc) < n).
  { intros rc Hrc.
    assert (Hxd : x ∈ dom fns) by (apply elem_of_dom; eauto).
    assert (size (dom fns ∖ rc) < size (dom fns ∖ r)); [|lia].
    apply subset_size. set_solver. }
  (* the loop over the callees of [x] *)
  assert (Hloop : forall cs, (forall c, c ∈ cs -> c ∈ Callees f) ->
    forall rc, r1 ⊆ rc -> (forall y, y ∈ rc -> y ∉ r1 -> rtc dedge x y) ->
    (forall y c, y ∈ rc -> y ∉ r -> y <> x -> dedge y c -> c ∈ rc) ->
    let rf := fold_left (fun r0 callee => if contains_dot callee then r0
                                          else markReachable n callee fns r0) cs rc in
    rc ⊆ rf /\ (forall y, y ∈ rf -> y ∉ r1 -> rtc dedge x y) /\
    (forall y c, y ∈ rf -> y ∉ r -> y <> x -> dedge y c -> c ∈ rf) /\
    (forall c, c ∈ cs -> contains_dot c = false -> c ∈ rf)).
  { induction cs as [|c cs IHcs]; intros Hcs rc Hrc Hreach Hclosed; simpl.
    - repeat split; [done|done|done|]. intros c Hc. by apply elem_of_nil in Hc.
    - destruct (contains_dot c) eqn:Hdot.
      + destruct (IHcs (fun c' Hc' => Hcs c' (list_elem_of_further _ _ _ Hc')) rc Hrc Hreach Hclosed)
          as [H1 [H2 [H3 H4]]].
        repeat split; [done|done|done|].
        intros c' Hc' Hd'. apply elem_of_cons in Hc' as [->|Hc']; [congruence|auto].
      + destruct (IH c rc (Hsz rc Hrc)) as [Hm1 [Hm2 [Hm3 Hm4]]].
        set (rn := markReachable n c fns rc) in *.
        assert (Hxc : dedge x c) by (exists f; split; [done|]; split; [apply Hcs; left|done]).
        destruct (IHcs (fun c' Hc' => Hcs c' (list_elem_of_further _ _ _ Hc')) rn
                   ltac:(set_solver)) as [H1 [H2 [H3 H4]]].
        { intros y Hy Hy1. destruct (decide (y ∈ rc)); [by apply Hreach|].
          eapply rtc_l; [exact Hxc|]. by apply Hm3. }
        { intros y c' Hy Hyr Hyx Hyc. destruct (decide (y ∈ rc)).
          - apply Hm1. by apply (Hclosed y).
          - by apply (Hm4 y). }
        repeat split; [set_solver|done|done|].
        intros c' Hc' Hd'. apply elem_of_cons in Hc' as [->|Hc']; [|auto].
        apply H1. done. }
  destruct (Hloop (Callees f) (fun c Hc => Hc) r1 ltac:(done)) as [H1 [H2 [H3 H4]]].
  { intros y Hy Hy1. done. }
  { intros y c Hy Hyr Hyx. set_solver. }
  repeat split.
  - set_solver.
  - set_solver.
  - intros y Hy Hyr. destruct (decide (y = x)) as [->|Hyx]; [apply rtc_refl|].
    apply H2; [done|set_solver].
  - intros y c Hy Hyr Hyc. destruct (decide (y = x)) as [->|Hyx].
    + destruct Hyc as [f' [Hf' [Hc Hd]]]. rewrite Ef in Hf'. injection Hf' as <-. auto.
    + by apply (H3 y).
Qed.

(** The set built by [DetectDeadCode] from the starts [starts]: every
    member is reachable from a start, and the callees of every member are
    members. *)
Definition mark_inv (starts : string -> Prop) (r : gset string) : Prop :=
  (forall y, y ∈ r -> exists s, starts s /\ rtc dedge s y) /\
  (forall y c, y ∈ r -> dedge y c -> c ∈ r).

Lemma mark_step (starts : string -> Prop) (s : string) (r : gset string) :
  mark_inv starts r -> starts s ->
  let r' := markReachable (S (size fns)) s fns r in
  mark_inv starts r' /\ r ⊆ r' /\ s ∈ r'.
Proof.
  intros [Hreach Hclosed] Hs.
  assert (Hf : size (dom fns ∖ r) < S (size fns)).
  { pose proof (subseteq_size (dom fns ∖ r) (dom fns) ltac:(set_solver)) as Hs'.
    rewrite size_dom in Hs'. lia. }
  destruct (mark_spec _ s r Hf) as [H1 [H2 [H3 H4]]].
  split; [split|split; [done|done]].
  { intros y Hy. destruct (decide (y ∈ r)); [by apply Hreach|]. eauto. }
  intros y c Hy Hyc. destruct (decide (y ∈ r)).
  - apply H1. by apply (Hclosed y).
  - by apply (H4 y).
Qed.

End DeadCode.

Lemma keys_order (m : gmap string FunctionCall) (x : string) :
  x ∈ map fst (map_to_list m) <-> is_Some (m !! x).
Proof.
  split; [|apply map_to_list_keys].
  intros Hx. apply list_elem_of_fmap in Hx as [[k v] [-> Hkv]].
  apply elem_of_map_to_list in Hkv. simpl. eauto.
Qed.

(* ------------------------------------------------------------------ *)
(** ** ComputeReadabilityMetrics (analyzer.go, lines 600-692) *)

(** The closure's accumulator [acc]. *)
Record readabilityAcc := {
  acc_branchCount : nat;
  acc_commentCount : nat;
  acc_maxNesting : nat
}.

(** [if currentNesting > acc.maxNesting { acc.maxNesting = currentNesting }] *)
Definition acc_nest (currentNesting : nat) (acc : readabilityAcc) : readabilityAcc :=
  {| acc_branchCount := acc_branchCount acc; acc_commentCount := acc_commentCount acc;
     acc_maxNesting := if Nat.ltb (acc_maxNesting acc) currentNesting then currentNesting
                       else acc_maxNesting acc |}.

(** [acc.branchCount++] *)
Definition acc_branch (acc : readabilityAcc) : readabilityAcc :=
  {| acc_branchCount := S (acc_branchCount acc); acc_commentCount := acc_commentCount acc;
     acc_maxNesting := acc_maxNesting acc |}.

(** [acc.commentCount++] *)
Definition acc_comment (acc : readabilityAcc) : readabilityAcc :=
  {| acc_branchCount := acc_branchCount acc; acc_commentCount := S (acc_commentCount acc);
     acc_maxNesting := acc_maxNesting acc |}.

(** [recReadability(n, currentNesting)].  A [nil] child returns at once:
    the [None] case of an optional child.  The type switch lists
    [*ast.IfStmt], [*ast.ForStmt], [*ast.SwitchStmt] and [*ast.SelectStmt]
    (not [*ast.RangeStmt]): the [if] and [for] and [switch] cases return
    after visiting their parts (an [if]'s and a [switch]'s [Init] is not
    visited); a [select] has no case of its own and goes on, like every
    kind outside the switch (a [range] statement among them), to the loop
    over [children(n)] at the same nesting; the [rangeNode] branch is never
    reached.  A [*ast.Comment] counts one comment. *)
Fixpoint recReadability (n : node) (currentNesting : nat) (acc : readabilityAcc)
    {struct n} : readabilityAcc :=
  let acc := acc_nest currentNesting acc in
  match n with
  | IfStmt _ c b e =>
      let acc := acc_branch acc in
      let acc := recReadability c currentNesting acc in
      let acc := recReadability b (S currentNesting) acc in
      match e with Some e => recReadability e (S currentNesting) acc | None => acc end
  | ForStmt i c p b =>
      let acc := acc_branch acc in
      let acc := match i with Some i => recReadability i currentNesting acc | None => acc end in
      let acc := match c with Some c => recReadability c currentNesting acc | None => acc end in
      let acc := match p with Some p => recReadability p currentNesting acc | None => acc end in
      recReadability b (S currentNesting) acc
  | SwitchStmt _ t b =>
      let acc := acc_branch acc in
      let acc := match t with Some t => recReadability t currentNesting acc | None => acc end in
      recReadability b (S currentNesting) acc
  | SelectStmt b =>
      let acc := acc_branch acc in
      recReadability b currentNesting acc
  (* the other kinds: [for _, child := range children(n)] *)
  | RangeStmt k v x b =>
      let acc := match k with Some k => recReadability k currentNesting acc | None => acc end in
      let acc := match v with Some v => recReadability v currentNesting acc | None => acc end in
      let acc := recReadability x currentNesting acc in
      recReadability b currentNesting acc
  | TypeSwitchStmt i a b =>
      let acc := match i with Some i => recReadability i currentNesting acc | None => acc end in
      recReadability b currentNesting (recReadability a currentNesting acc)
  | CaseClause l b =>
      let acc := fold_left (fun acc c => recReadability c currentNesting acc) l acc in
      fold_left (fun acc c => recReadability c currentNesting acc) b acc
  | CommClause c b =>
      let acc := match c with Some c => recReadability c currentNesting acc | None => acc end in
      fold_left (fun acc c => recReadability c currentNesting acc) b acc
  | BinaryExpr x _ y => recReadability y currentNesting (recReadability x currentNesting acc)
  | UnaryExpr _ x => recReadability x currentNesting acc
  | StarExpr x => recReadability x currentNesting acc
  | SelectorExpr x sel =>
      acc_nest currentNesting (recReadability x currentNesting acc)  (* the leaf [Sel] *)
  | ArrayType l e =>
      let acc := match l with Some l => recReadability l currentNesting acc | None => acc end in
      recReadability e currentNesting acc
  | Ident _ => acc
  | BasicLit _ => acc
  | ReturnStmt rs => fold_left (fun acc c => recReadability c currentNesting acc) rs acc
  | Other kind cs =>
      let acc := if String.eqb kind "*ast.Comment" then acc_comment acc else acc in
      fold_left (fun acc c => recReadability c currentNesting acc) cs acc
  end.

(** The [Doc] comment group of a declaration, one [*ast.Comment] per
    comment; a declaration with no doc comment has a [nil] [Doc]. *)
Definition doc_nodes (doc : list string) : list node :=
  match doc with
  | [] => []
  | _ => [Other "*ast.CommentGroup" (map (fun _ => Other "*ast.Comment" []) doc)]
  end.

(** The declaration with its [Doc] as [recReadability(fn, 0)] walks it:
    [Doc], [Recv], [Name], [Type], [Body]. *)
Definition readability_node (fn : FuncDecl) (doc : list string) : node :=
  Other "*ast.FuncDecl" (app (doc_nodes doc) (app (decl_header fn) [fd_body fn])).

(** [ComputeReadabilityMetrics(fn, fset)] for a declaration with doc
    comments [doc].  [loc] is [CountLines(fn, fset)], the number of lines
    from the declaration's first to its last ([endLine - startLine + 1];
    [AnalyzeFile] passes a non-nil [fset]).  The [float64] divisions are
    read as real divisions. *)
Definition ComputeReadabilityMetrics (fn : FuncDecl) (doc : list string) (loc : nat)
    : CodeReadabilityMetrics :=
  let acc := recReadability (readability_node fn doc) 0
               {| acc_branchCount := 0; acc_commentCount := 0; acc_maxNesting := 0 |} in
  let '(commentDensity, branchDensity) :=
    if Nat.ltb 0 loc
    then ((INR (acc_commentCount acc) / INR loc)%R, (INR (acc_branchCount acc) / INR loc)%R)
    else (0%R, 0%R) in
  {| FunctionLength := loc; NestingDepth := acc_maxNesting acc;
     CommentDensity := commentDensity; CyclomaticPoints := S (acc_branchCount acc);
     BranchDensity := branchDensity |}.

(* ------------------------------------------------------------------ *)
(** ** GenerateCodeSummary, isHotspot, identifyIssues (analyzer.go, lines 451-574) *)

(** The part of [types.FunctionMetrics] these functions read:
    [CyclomaticComplexity], [LinesOfCode], [CognitiveComplexity.Score],
    [Readability.NestingDepth], [Maintainability] and [IsUnused].  The Go
    [int]s are [Z], the [float64] a real. *)
Record ReportMetrics := {
  rm_CyclomaticComplexity : Z;
  rm_LinesOfCode : Z;
  rm_CognitiveScore : Z;
  rm_NestingDepth : Z;
  rm_Maintainability : R;
  rm_IsUnused : bool
}.

(** The part of a [types.FunctionCall] of the report that
    [GenerateCodeSummary] reads. *)
Record ReportFunction := {
  rf_Caller : string;
  rf_File : string;
  rf_IsRecursive : bool;
  rf_IsDuplicate : bool;
  rf_Metrics : ReportMetrics
}.

(** [types.HotspotFunction] *)
Record HotspotFunction := {
  hs_Name : string;
  hs_File : string;
  hs_Complexity : Z;
  hs_Maintainability : R;
  hs_Issues : list string
}.

(** [types.CodeSummary].  The counters are [nat]s: each counts elements of
    [report.Functions], fewer than [2^63], so they never wrap;
    [TotalLines] adds arbitrary [int]s and wraps as a 64-bit [int]. *)
Record CodeSummary := {
  cs_TotalFunctions : nat;
  cs_TotalLines : Z;
  cs_UnusedFunctions : nat;
  cs_RecursiveFunctions : nat;
  cs_DuplicateCode : nat;
  cs_AvgComplexity : R;
  cs_AvgMaintainability : R;
  cs_AvgNestingDepth : R;
  cs_ComplexityDistribution : gmap string nat;
  cs_Hotspots : list HotspotFunction
}.

(** [isHotspot] *)
Definition isHotspot (metrics : ReportMetrics) : bool :=
  Z.ltb 10 (rm_CyclomaticComplexity metrics) ||
  Z.ltb 4 (rm_NestingDepth metrics) ||
  (if Rlt_dec (rm_Maintainability metrics) 50 then true else false).

(** [identifyIssues]: the appends in order. *)
Definition identifyIssues (metrics : ReportMetrics) : list string :=
  let issues := [] in
  let issues := if Z.ltb 10 (rm_CyclomaticComplexity metrics)
                then app issues ["High cyclomatic complexity"] else issues in
  let issues := if Z.ltb 4 (rm_NestingDepth metrics)
                then app issues ["Deep nesting"] else issues in
  let issues := if Rlt_dec (rm_Maintainability metrics) 50
                then app issues ["Low maintainability"] else issues in
  let issues := if Z.ltb 15 (rm_CognitiveScore metrics)
                then app issues ["High cognitive complexity"] else issues in
  issues.

(** Addition on a 64-bit Go [int]. *)
Definition int_add (a b : Z) : Z := ((a + b + 2 ^ 63) mod 2 ^ 64 - 2 ^ 63)%Z.

(** The key of [ComplexityDistribution] the [switch] picks. *)
Definition complexity_bucket (cc : Z) : string :=
  if Z.leb cc 5 then "Low" else if Z.leb cc 10 then "Medium" else "High".

(** The [HotspotFunction] literal built for a hotspot. *)
Definition to_hotspot (fn : ReportFunction) : HotspotFunction :=
  {| hs_Name := rf_Caller fn; hs_File := rf_File fn;
     hs_Complexity := rm_CyclomaticComplexity (rf_Metrics fn);
     hs_Maintainability := rm_Maintainability (rf_Metrics fn);
     hs_Issues := identifyIssues (rf_Metrics fn) |}.

(** The state of the loop: the summary and the three [float64] totals. *)
Record SummaryState := {
  ss_summary : CodeSummary;
  ss_totalComplexity : R;
  ss_totalMaintainability : R;
  ss_totalNesting : R
}.

(** One iteration of [for _, fn := range report.Functions]. *)
Definition summary_step (st : SummaryState) (fn : ReportFunction) : SummaryState :=
  let s := ss_summary st in
  let m := rf_Metrics fn in
  {| ss_summary :=
       {| cs_TotalFunctions := S (cs_TotalFunctions s);
          cs_TotalLines := int_add (cs_TotalLines s) (rm_LinesOfCode m);
          cs_UnusedFunctions :=
            if rm_IsUnused m then S (cs_UnusedFunctions s) else cs_UnusedFunctions s;
          cs_RecursiveFunctions :=
            if rf_IsRecursive fn then S (cs_RecursiveFunctions s) else cs_RecursiveFunctions s;
          cs_DuplicateCode :=
            if rf_IsDuplicate fn then S (cs_DuplicateCode s) else cs_DuplicateCode s;
          cs_AvgComplexity := cs_AvgComplexity s;
          cs_AvgMaintainability := cs_AvgMaintainability s;
          cs_AvgNestingDepth := cs_AvgNestingDepth s;
          cs_ComplexityDistribution :=
            incr (complexity_bucket (rm_CyclomaticComplexity m)) (cs_ComplexityDistribution s);
          cs_Hotspots :=
            if isHotspot m then app (cs_Hotspots s) [to_hotspot fn] else cs_Hotspots s |};
     ss_totalComplexity := (ss_totalComplexity st + IZR (rm_CyclomaticComplexity m))%R;
     ss_totalMaintainability := (ss_totalMaintainability st + rm_Maintainability m)%R;
     ss_totalNesting := (ss_totalNesting st + IZR (rm_NestingDepth m))%R |}.

(** The summary as [CodeSummary{ComplexityDistribution: make(map[string]int)}]
    makes it. *)
Definition empty_summary : CodeSummary :=
  {| cs_TotalFunctions := 0; cs_TotalLines := 0; cs_UnusedFunctions := 0;
     cs_RecursiveFunctions := 0; cs_DuplicateCode := 0; cs_AvgComplexity := 0;
     cs_AvgMaintainability := 0; cs_AvgNestingDepth := 0;
     cs_ComplexityDistribution := ∅; cs_Hotspots := [] |}.

(** The three [summary.Avg... = total... / sf] assignments. *)
Definition with_averages (s : CodeSummary) (c m n : R) : CodeSummary :=
  {| cs_TotalFunctions := cs_TotalFunctions s; cs_TotalLines := cs_TotalLines s;
     cs_UnusedFunctions := cs_UnusedFunctions s;
     cs_RecursiveFunctions := cs_RecursiveFunctions s; cs_DuplicateCode := cs_DuplicateCode s;
     cs_AvgComplexity := c; cs_AvgMaintainability := m; cs_AvgNestingDepth := n;
     cs_ComplexityDistribution := cs_ComplexityDistribution s; cs_Hotspots := cs_Hotspots s |}.

Definition with_hotspots (s : CodeSummary) (hs : list HotspotFunction) : CodeSummary :=
  {| cs_TotalFunctions := cs_TotalFunctions s; cs_TotalLines := cs_TotalLines s;
     cs_UnusedFunctions := cs_UnusedFunctions s;
     cs_RecursiveFunctions := cs_RecursiveFunctions s; cs_DuplicateCode := cs_DuplicateCode s;
     cs_AvgComplexity := cs_AvgComplexity s; cs_AvgMaintainability := cs_AvgMaintainability s;
     cs_AvgNestingDepth := cs_AvgNestingDepth s;
     cs_ComplexityDistribution := cs_ComplexityDistribution s; cs_Hotspots := hs |}.

(** The order of [sort.Slice(summary.Hotspots, less)] with
    [less(i, j) = Hotspots[i].Complexity > Hotspots[j].Complexity]: by
    complexity, highest first. *)
Definition hs_ge (a b : HotspotFunction) : Prop := (hs_Complexity b <= hs_Complexity a)%Z.

#[export] Instance hs_ge_dec : RelDecision hs_ge :=
  fun a b => decide (hs_Complexity b <= hs_Complexity a)%Z.

(** [sort.Slice] with that order, as a merge sort.  Go's [sort.Slice] is
    not stable, so among hotspots of equal complexity its order may differ
    from this one; the theorems below use only that the result is a
    permutation sorted by that order, which holds for both. *)
Definition sort_hotspots (l : list HotspotFunction) : list HotspotFunction :=
  merge_sort hs_ge l.

(** [GenerateCodeSummary(report)] on [report.Functions]. *)
Definition GenerateCodeSummary (fns : list ReportFunction) : CodeSummary :=
  let st := fold_left summary_step fns
              {| ss_summary := empty_summary; ss_totalComplexity := 0;
                 ss_totalMaintainability := 0; ss_totalNesting := 0 |} in
  let s := ss_summary st in
  let s := if Nat.ltb 0 (cs_TotalFunctions s)
           then let sf := INR (cs_TotalFunctions s) in
                with_averages s (ss_totalComplexity st / sf) (ss_totalMaintainability st / sf)
                  (ss_totalNesting st / sf)
           else s in
  with_hotspots s (sort_hotspots (cs_Hotspots s)).

(** [m[k]] on a Go [map[string]int]: a missing key reads as 0. *)
Definition map_get (m : gmap string nat) (k : string) : nat :=
  match m !! k with Some c => c | None => 0 end.

(** A mathematical integer read as a 64-bit Go [int] (two's complement). *)
Definition int_wrap (z : Z) : Z := ((z + 2 ^ 63) mod 2 ^ 64 - 2 ^ 63)%Z.

Definition sumZ (l : list Z) : Z := fold_right Z.add 0%Z l.

(* ------------------------------------------------------------------ *)
(** ** Lemmas on the records of GetAnalysis *)

(** The second loop of [AnalyzeFile] keeps [IsRecursive], and gives a
    record the complexity of the declaration [findFunctionDecl] finds. *)
Lemma metrics_loop_lookup_found (file : GoFile) (seen : gmap Z string) (fns : list FunctionCall)
    (i : nat) (r : FunctionCall) :
  metrics_loop file seen fns !! i = Some r ->
  exists fn, fns !! i = Some fn /\ IsRecursive r = IsRecursive fn /\
    match findFunctionDecl file (Caller fn) with
    | Some d => CyclomaticComplexity (Metrics r) = ComputeComplexity (decl_node d)
    | None => r = fn
    end.
Proof.
  revert seen i. induction fns as [|fn fns IH]; intros seen i Hi; [done|].
  simpl in Hi. destruct (findFunctionDecl file (Caller fn)) as [d|] eqn:Ed.
  - destruct (DetectDuplication seen d) as [dup seen'].
    destruct i as [|i]; simpl in Hi.
    + injection Hi as <-. exists fn. rewrite Ed. done.
    + exact (IH seen' i Hi).
  - destruct i as [|i]; simpl in Hi.
    + injection Hi as <-. exists fn. rewrite Ed. done.
    + exact (IH seen i Hi).
Qed.


(** [AnalyzeFile] leaves [Callees] empty and [IsRecursive] false. *)
Lemma AnalyzeFile_no_callees (path : string) (file : GoFile) (out : list FunctionCall)
    (r : FunctionCall) :
  AnalyzeFile path (Parsed file) = Ok out -> r ∈ out ->
  Callees r = [] /\ IsRecursive r = false.
Proof.
  intros Hout Hr. simpl in Hout. injection Hout as <-.
  apply list_elem_of_lookup in Hr as [i Hi].
  destruct (metrics_loop_lookup _ _ _ i r Hi) as [fn [Hfn [_ [_ [_ HC]]]]].
  destruct (metrics_loop_lookup_found _ _ _ i r Hi) as [fn' [Hfn' [HR _]]].
  rewrite Hfn in Hfn'. injection Hfn' as <-.
  rewrite list_lookup_fmap in Hfn.
  destruct (file_funcs (Decls file) !! i) as [d|]; [|discriminate].
  injection Hfn as <-. rewrite HC, HR. done.
Qed.

Lemma merged_no_callees (files : list (string * ParseResult)) (fm : gmap string FunctionCall) :
  merge_files ∅ files = Ok fm ->
  forall k r, fm !! k = Some r -> Caller r = k /\ Callees r = [] /\ IsRecursive r = false.
Proof.
  intros Hfm.
  apply (merge_files_inv (fun r => Callees r = [] /\ IsRecursive r = false) files ∅ fm);
    [|intros ???? _ Ha Hr; exact (AnalyzeFile_no_callees _ _ _ _ Ha Hr)|exact Hfm].
  intros k r Hk. by rewrite lookup_empty in Hk.
Qed.

(** On a map with no callees, [detectRecursion] changes nothing. *)
Lemma detectRecursion_no_callees (fm : gmap string FunctionCall) :
  (forall k r, fm !! k = Some r -> Callees r = [] /\ IsRecursive r = false) ->
  detectRecursion fm = fm.
Proof.
  intros H. apply map_eq. intros k. unfold detectRecursion.
  pose proof (detectRecursion_in_correct fm _ (map_to_list_keys fm) k) as Hc.
  destruct (fm !! k) as [f|] eqn:E; [|exact Hc].
  destruct Hc as [f' [Hf' [Hor Hiff]]]. rewrite Hf'. f_equal.
  destruct (H k f E) as [Hcal Hrec].
  destruct Hor as [->| ->]; [done|]. exfalso.
  destruct (proj1 Hiff eq_refl) as [Hr|[Hs|Hn]]; [congruence| |].
  - destruct Hs as [f0 [Hf0 Hin]]. rewrite E in Hf0. injection Hf0 as <-.
    rewrite Hcal in Hin. by apply elem_of_nil in Hin.
  - destruct Hn as [y [Hyk [Hky _]]].
    inversion Hky as [|? z ? Hedge]; subst; [congruence|].
    destruct Hedge as [f0 [Hf0 [Hin _]]]. rewrite E in Hf0. injection Hf0 as <-.
    rewrite Hcal in Hin. by apply elem_of_nil in Hin.
Qed.

(** The report of [GetAnalysis]: the records of the merged map, in the
    order of [map_to_list], with [IsUnused] set. *)
Lemma GetAnalysis_plain (files : list (string * ParseResult)) (fns : list FunctionCall) :
  GetAnalysis files = Ok fns ->
  exists fm, merge_files ∅ files = Ok fm /\
    (forall k r, fm !! k = Some r -> Caller r = k /\ Callees r = [] /\ IsRecursive r = false) /\
    fns = map (fun fn => set_IsUnused fn
                 (bool_decide (Caller fn ∈ UnusedFunctions (DetectDeadCode fm ["main"; "complex"]))))
            (map snd (map_to_list fm)).
Proof.
  unfold GetAnalysis. destruct (merge_files ∅ files) as [fm|e] eqn:Em; [|discriminate].
  intros Hfns. injection Hfns as <-.
  pose proof (merged_no_callees files fm Em) as Hno.
  rewrite detectRecursion_no_callees by (intros k r Hk; apply (Hno k r Hk)).
  exists fm. auto.
Qed.

Lemma GetAnalysis_elem (files : list (string * ParseResult)) (fns : list FunctionCall)
    (r : FunctionCall) :
  GetAnalysis files = Ok fns -> r ∈ fns ->
  exists fm k r0, merge_files ∅ files = Ok fm /\
    (forall k r, fm !! k = Some r -> Caller r = k /\ Callees r = [] /\ IsRecursive r = false) /\
    fm !! k = Some r0 /\
    r = set_IsUnused r0
          (bool_decide (Caller r0 ∈ UnusedFunctions (DetectDeadCode fm ["main"; "complex"]))).
Proof.
  intros Hfns Hr. destruct (GetAnalysis_plain files fns Hfns) as [fm [Hfm [Hno ->]]].
  apply list_elem_of_fmap in Hr as [r0 [-> Hr0]].
  apply list_elem_of_fmap in Hr0 as [[k v] [Heq Hkv]]. simpl in Heq. subst v.
  apply elem_of_map_to_list in Hkv. exists fm, k, r0. auto.
Qed.

(* ------------------------------------------------------------------ *)
(** ** DetectDeadCode on maps with no callees *)

(** The characterisation of [DetectDeadCode]: a name is reported exactly
    when it is a key, not exported, not an entry point and not reachable
    from an entry point or an exported key. *)
Lemma DetectDeadCode_unused_iff (fns : gmap string FunctionCall) (entryPoints : list string)
    (k : string) :
  k ∈ UnusedFunctions (DetectDeadCode fns entryPoints) <->
  is_Some (fns !! k) /\ isExported k = false /\ (k ∉ entryPoints) /\
  ~ exists s, (s ∈ entryPoints \/ (is_Some (fns !! s) /\ isExported s = true)) /\
              rtc (dedge fns) s k.
Proof.
  set (starts := fun s => s ∈ entryPoints \/ (is_Some (fns !! s) /\ isExported s = true)).
  set (fuel := S (size fns)).
  assert (He : forall l, (forall e, e ∈ l -> e ∈ entryPoints) -> forall r, mark_inv fns starts r ->
            let r' := fold_left (fun r e => markReachable fuel e fns r) l r in
            mark_inv fns starts r' /\ r ⊆ r' /\ (forall e, e ∈ l -> e ∈ r')).
  { induction l as [|e l IH]; intros Hl r Hr; simpl.
    - split; [done|]. split; [done|]. intros e He. by apply elem_of_nil in He.
    - destruct (mark_step fns starts e r Hr (or_introl (Hl e (list_elem_of_here _ _))))
        as [H1 [H2 H3]].
      destruct (IH (fun e' He' => Hl e' (list_elem_of_further _ _ _ He')) _ H1) as [H4 [H5 H6]].
      split; [done|]. split; [set_solver|].
      intros e' He'. apply elem_of_cons in He' as [->|He']; [set_solver|auto]. }
  assert (Hx : forall l, (forall s, s ∈ l -> is_Some (fns !! s)) -> forall r, mark_inv fns starts r ->
            let r' := fold_left (fun r s => if isExported s then markReachable fuel s fns r else r) l r in
            mark_inv fns starts r' /\ r ⊆ r' /\
            (forall s, s ∈ l -> isExported s = true -> s ∈ r')).
  { induction l as [|s l IH]; intros Hl r Hr; simpl.
    - split; [done|]. split; [done|]. intros s Hs. by apply elem_of_nil in Hs.
    - assert (Hl' : forall s', s' ∈ l -> is_Some (fns !! s'))
        by (intros s' Hs'; apply Hl; by right).
      destruct (isExported s) eqn:Hexp.
      + destruct (mark_step fns starts s r Hr
                    (or_intror (conj (Hl s (list_elem_of_here _ _)) Hexp))) as [H1 [H2 H3]].
        destruct (IH Hl' _ H1) as [H4 [H5 H6]].
        split; [done|]. split; [set_solver|].
        intros s' Hs' Hx'. apply elem_of_cons in Hs' as [->|Hs']; [set_solver|auto].
      + destruct (IH Hl' _ Hr) as [H4 [H5 H6]].
        split; [done|]. split; [done|].
        intros s' Hs' Hx'. apply elem_of_cons in Hs' as [->|Hs']; [congruence|auto]. }
  assert (H0 : mark_inv fns starts ∅) by (split; intros ?; set_solver).
  destruct (He entryPoints (fun e He => He) ∅ H0) as [He1 [_ He3]].
  destruct (Hx (map fst (map_to_list fns)) (fun s Hs => proj1 (keys_order fns s) Hs) _ He1)
    as [[Hreach Hclosed] [Hx2 Hx3]].
  unfold DetectDeadCode, DetectDeadCode_in. simpl UnusedFunctions. fold fuel.
  set (r := fold_left _ (map fst (map_to_list fns)) _) in *.
  assert (Hr : forall y, y ∈ r <-> exists s, starts s /\ rtc (dedge fns) s y).
  { intros y. split; [apply Hreach|].
    intros [s [Hs Hsy]].
    assert (Hsr : s ∈ r).
    { destruct Hs as [Hs|[Hs Hexp]].
      - apply Hx2. by apply He3.
      - apply Hx3; [by apply keys_order|done]. }
    clear Hs. induction Hsy as [x|x y0 z Hxy Hyz IHr]; [done|].
    apply IHr. by apply (Hclosed x). }
  rewrite list_elem_of_In, filter_In, <- list_elem_of_In, keys_order.
  rewrite !andb_true_iff, !negb_true_iff, bool_decide_eq_false, bool_decide_eq_false, Hr.
  unfold starts. tauto.
Qed.

(** With no callees, nothing is reachable but the starts themselves. *)
Lemma DetectDeadCode_no_callees (fns : gmap string FunctionCall) (entryPoints : list string)
    (k : string) :
  (forall k r, fns !! k = Some r -> Callees r = []) ->
  k ∈ UnusedFunctions (DetectDeadCode fns entryPoints) <->
  is_Some (fns !! k) /\ isExported k = false /\ (k ∉ entryPoints).
Proof.
  intros Hno. rewrite DetectDeadCode_unused_iff. split; [tauto|].
  intros (Hk & Hexp & Hentry). split; [done|]. split; [done|]. split; [done|].
  intros [s [Hs Hsk]]. inversion Hsk as [|? z ? Hedge]; subst.
  - destruct Hs as [Hs|[_ Hs]]; congruence.
  - destruct Hedge as [f [Hf [Hin _]]]. rewrite (Hno s f Hf) in Hin.
    by apply elem_of_nil in Hin.
Qed.

(* ------------------------------------------------------------------ *)
(** ** Lemmas on merging the files *)




(* ------------------------------------------------------------------ *)
(** ** Lemmas on findFunctionDecl *)

(** [List.find] gives the first element the test accepts. *)
Lemma find_first {A} (p : A -> bool) (l : list A) (x : A) :
  List.find p l = Some x ->
  exists j, l !! j = Some x /\ p x = true /\
    forall j' y, j' < j -> l !! j' = Some y -> p y = false.
Proof.
  induction l as [|a l IH]; simpl; [discriminate|].
  destruct (p a) eqn:Ha.
  - intros [= <-]. exists 0. split; [done|]. split; [done|]. intros j' y Hj'. lia.
  - intros Hf. destruct (IH Hf) as [j [Hj [Hp Hfirst]]]. exists (S j).
    split; [done|]. split; [done|].
    intros [|j'] y Hj' Hy; [by injection Hy as <-|]. apply (Hfirst j'); [lia|done].
Qed.

(* ------------------------------------------------------------------ *)
(** ** Lemmas on rabinKarpHash *)

Lemma list_ascii_of_string_app (s t : string) :
  String.list_ascii_of_string (s ++ t) =
  app (String.list_ascii_of_string s) (String.list_ascii_of_string t).
Proof. induction s as [|a s IH]; simpl; [done|]. by rewrite IH. Qed.

Lemma length_list_ascii_of_string (s : string) :
  length (String.list_ascii_of_string s) = String.length s.
Proof. induction s as [|a s IH]; simpl; [done|]. by rewrite IH. Qed.

Definition hash_step (hash : Z) (c : ascii) : Z :=
  ((hash * 31 + Z.of_N (N_of_ascii c)) mod 2 ^ 64)%Z.

Lemma hash_step_range (l : list ascii) : forall h,
  (0 <= h < 2 ^ 64)%Z -> (0 <= fold_left hash_step l h < 2 ^ 64)%Z.
Proof.
  induction l as [|c l IH]; intros h Hh; simpl; [done|].
  apply IH. unfold hash_step. apply Z.mod_pos_bound. lia.
Qed.

Lemma hash_fold_shift (l : list ascii) : forall h, (0 <= h < 2 ^ 64)%Z ->
  fold_left hash_step l h =
  ((h * 31 ^ Z.of_nat (length l) + fold_left hash_step l 0) mod 2 ^ 64)%Z.
Proof.
  induction l as [|a l IH]; intros h Hh; cbn [fold_left length].
  - rewrite Z.mul_1_r, Z.add_0_r, Z.mod_small; done.
  - assert (Hc : (0 <= Z.of_N (N_of_ascii a) < 256)%Z).
    { pose proof (N_ascii_bounded a). lia. }
    set (c := Z.of_N (N_of_ascii a)) in *.
    change (hash_step h a) with ((h * 31 + c) mod 2 ^ 64)%Z.
    change (hash_step 0%Z a) with ((0 * 31 + c) mod 2 ^ 64)%Z.
    rewrite (IH ((h * 31 + c) mod 2 ^ 64)%Z) by (apply Z.mod_pos_bound; lia).
    rewrite (IH ((0 * 31 + c) mod 2 ^ 64)%Z) by (apply Z.mod_pos_bound; lia).
    replace ((0 * 31 + c) mod 2 ^ 64)%Z with c by (rewrite Z.mod_small; lia).
    rewrite Z.add_mod_idemp_r by lia.
    rewrite (Z.mod_eq (h * 31 + c)) by lia.
    set (F := fold_left hash_step l 0%Z).
    set (q := ((h * 31 + c) / 2 ^ 64)%Z).
    rewrite <- (Z.mod_add (h * 31 ^ Z.of_nat (S (length l)) + (c * 31 ^ Z.of_nat (length l) + F))
                          (- (q * 31 ^ Z.of_nat (length l))) (2 ^ 64)) by lia.
    f_equal. rewrite Nat2Z.inj_succ, Z.pow_succ_r by lia. ring.
Qed.

Lemma rabinKarpHash_fold (s : string) :
  rabinKarpHash s = fold_left hash_step (String.list_ascii_of_string s) 0%Z.
Proof. reflexivity. Qed.

Lemma rabinKarpHash_range (s : string) : (0 <= rabinKarpHash s < 2 ^ 64)%Z.
Proof. rewrite rabinKarpHash_fold. apply hash_step_range. lia. Qed.

(** The hash of a concatenation. *)
Lemma rabinKarpHash_app (s t : string) :
  rabinKarpHash (s ++ t) =
  ((rabinKarpHash s * 31 ^ Z.of_nat (String.length t) + rabinKarpHash t) mod 2 ^ 64)%Z.
Proof.
  rewrite !rabinKarpHash_fold, list_ascii_of_string_app, fold_left_app.
  rewrite hash_fold_shift by (apply hash_step_range; lia).
  by rewrite length_list_ascii_of_string.
Qed.

(* ------------------------------------------------------------------ *)
(** ** Invariants of the cognitive visit *)

(** What a call [recursiveVisit n d] does to the state: every increment
    of [Score] is one of [LogicalOps] or [BranchingScore], and the depth
    reached is at most [d] plus the number of branches it counts. *)
Definition cc_good (d : nat) (st st' : ccState) : Prop :=
  cc_Score st' + cc_LogicalOps st + cc_BranchingScore st =
    cc_Score st + cc_LogicalOps st' + cc_BranchingScore st' /\
  cc_BranchingScore st <= cc_BranchingScore st' /\
  cc_maxDepth st' <= Nat.max (cc_maxDepth st) (d + (cc_BranchingScore st' - cc_BranchingScore st)).

Definition cc_inv (n : node) : Prop := forall d st, cc_good d st (recursiveVisit n d st).

Lemma cc_good_trans d st1 st2 st3 :
  cc_good d st1 st2 -> cc_good d st2 st3 -> cc_good d st1 st3.
Proof. unfold cc_good. lia. Qed.

Lemma fold_cc_inv (l : list node) : Forall cc_inv l ->
  forall d st, cc_good d st (fold_left (fun st c => recursiveVisit c d st) l st).
Proof.
  induction l as [|x l IH]; intros Hl d st; simpl.
  - unfold cc_good. lia.
  - inversion Hl as [|? ? Hx Hl']; subst.
    eapply cc_good_trans; [apply Hx|]. by apply IH.
Qed.

Ltac gen_cc :=
  repeat match goal with
  | H : cc_inv ?x |- context [recursiveVisit ?x ?d ?s] =>
      let v := fresh "v" in let Hv := fresh "Hv" in
      pose proof (H d s) as Hv; set (v := recursiveVisit x d s) in *; clearbody v
  | H : cc_inv ?x, H' : context [recursiveVisit ?x ?d ?s] |- _ =>
      let v := fresh "v" in let Hv := fresh "Hv" in
      pose proof (H d s) as Hv; set (v := recursiveVisit x d s) in *; clearbody v
  | H : Forall _ ?l |- context [fold_left (fun st c => recursiveVisit c ?d st) ?l ?s] =>
      let v := fresh "v" in let Hv := fresh "Hv" in
      pose proof (fold_cc_inv l H d s) as Hv;
      set (v := fold_left (fun st c => recursiveVisit c d st) l s) in *; clearbody v
  | H : Forall _ ?l, H' : context [fold_left (fun st c => recursiveVisit c ?d st) ?l ?s] |- _ =>
      let v := fresh "v" in let Hv := fresh "Hv" in
      pose proof (fold_cc_inv l H d s) as Hv;
      set (v := fold_left (fun st c => recursiveVisit c d st) l s) in *; clearbody v
  end.

Lemma visit_cc_inv (n : node) : cc_inv n.
Proof.
  induction n using node_ind'; unfold oP in *;
    repeat match goal with o : option node |- _ => destruct o end;
    intros d st; cbn [recursiveVisit];
    try (destruct (isLogical op));
    gen_cc;
    unfold cc_good, cc_depth, cc_branch, cc_logical in *;
    cbn [cc_Score cc_LogicalOps cc_BranchingScore cc_maxDepth] in *;
    repeat match goal with
    | |- context [Nat.ltb ?a ?b] => destruct (Nat.ltb_spec a b)
    | H : context [Nat.ltb ?a ?b] |- _ => destruct (Nat.ltb_spec a b)
    end;
    lia.
Qed.

(* ------------------------------------------------------------------ *)
(** ** Invariants of the readability visit *)

(** What a call [recReadability n d] does to the accumulator: the
    nesting reached is at most [d] plus the number of branches it
    counts. *)
Definition rd_good (d : nat) (acc acc' : readabilityAcc) : Prop :=
  acc_branchCount acc <= acc_branchCount acc' /\
  acc_maxNesting acc' <= Nat.max (acc_maxNesting acc) (d + (acc_branchCount acc' - acc_branchCount acc)).

Definition rd_inv (n : node) : Prop := forall d acc, rd_good d acc (recReadability n d acc).

Lemma rd_good_trans d a1 a2 a3 : rd_good d a1 a2 -> rd_good d a2 a3 -> rd_good d a1 a3.
Proof. unfold rd_good. lia. Qed.

Lemma fold_rd_inv (l : list node) : Forall rd_inv l ->
  forall d acc, rd_good d acc (fold_left (fun acc c => recReadability c d acc) l acc).
Proof.
  induction l as [|x l IH]; intros Hl d acc; simpl.
  - unfold rd_good. lia.
  - inversion Hl as [|? ? Hx Hl']; subst.
    eapply rd_good_trans; [apply Hx|]. by apply IH.
Qed.

Ltac gen_rd :=
  repeat match goal with
  | H : rd_inv ?x |- context [recReadability ?x ?d ?s] =>
      let v := fresh "v" in let Hv := fresh "Hv" in
      pose proof (H d s) as Hv; set (v := recReadability x d s) in *; clearbody v
  | H : rd_inv ?x, H' : context [recReadability ?x ?d ?s] |- _ =>
      let v := fresh "v" in let Hv := fresh "Hv" in
      pose proof (H d s) as Hv; set (v := recReadability x d s) in *; clearbody v
  | H : Forall _ ?l |- context [fold_left (fun acc c => recReadability c ?d acc) ?l ?s] =>
      let v := fresh "v" in let Hv := fresh "Hv" in
      pose proof (fold_rd_inv l H d s) as Hv;
      set (v := fold_left (fun acc c => recReadability c d acc) l s) in *; clearbody v
  | H : Forall _ ?l, H' : context [fold_left (fun acc c => recReadability c ?d acc) ?l ?s] |- _ =>
      let v := fresh "v" in let Hv := fresh "Hv" in
      pose proof (fold_rd_inv l H d s) as Hv;
      set (v := fold_left (fun acc c => recReadability c d acc) l s) in *; clearbody v
  end.

Lemma visit_rd_inv (n : node) : rd_inv n.
Proof.
  induction n using node_ind'; unfold oP in *;
    repeat match goal with o : option node |- _ => destruct o end;
    intros d acc; cbn [recReadability];
    repeat match goal with |- context [String.eqb ?k "*ast.Comment"] => destruct (String.eqb k "*ast.Comment") end;
    gen_rd;
    unfold rd_good, acc_nest, acc_branch, acc_comment in *;
    cbn [acc_branchCount acc_commentCount acc_maxNesting] in *;
    repeat match goal with
    | |- context [Nat.ltb ?a ?b] => destruct (Nat.ltb_spec a b)
    | H : context [Nat.ltb ?a ?b] |- _ => destruct (Nat.ltb_spec a b)
    end;
    lia.
Qed.

(* ------------------------------------------------------------------ *)
(** ** Lemmas on GenerateCodeSummary *)

Lemma map_total_incr (k : string) (m : gmap string nat) :
  map_total (incr k m) = S (map_total m).
Proof.
  unfold incr, map_total.
  destruct (m !! k) as [c|] eqn:E.
  - rewrite <- (insert_delete_id m k c) at 2 by done.
    rewrite <- (insert_delete_eq m k).
    rewrite !map_fold_insert_L; [lia|intros; lia|apply lookup_delete_eq|intros; lia|apply lookup_delete_eq].
  - rewrite map_fold_insert_L; [lia|intros; lia|done].
Qed.

Lemma map_get_incr (k j : string) (m : gmap string nat) :
  map_get (incr k m) j = if String.eqb k j then S (map_get m j) else map_get m j.
Proof.
  unfold map_get, incr. destruct (String.eqb_spec k j) as [<-|Hne].
  - by rewrite lookup_insert_eq.
  - by rewrite lookup_insert_ne.
Qed.

Lemma incr_pos (k : string) (m : gmap string nat) :
  (forall j c, m !! j = Some c -> 0 < c) -> forall j c, incr k m !! j = Some c -> 0 < c.
Proof.
  intros Hm j c. unfold incr. destruct (decide (k = j)) as [<-|Hne].
  - rewrite lookup_insert_eq. intros [= <-]. lia.
  - rewrite lookup_insert_ne by done. apply Hm.
Qed.

Lemma int_wrap_add_l (x y : Z) : int_wrap (int_wrap x + y) = int_wrap (x + y).
Proof.
  unfold int_wrap.
  replace ((x + 2 ^ 63) mod 2 ^ 64 - 2 ^ 63 + y + 2 ^ 63)%Z
    with ((x + 2 ^ 63) mod 2 ^ 64 + y)%Z by ring.
  rewrite Z.add_mod_idemp_l by lia. f_equal. f_equal. ring.
Qed.

(** The counters after the loop. *)
Lemma summary_fold_counts (fns : list ReportFunction) : forall st,
  cs_TotalFunctions (ss_summary (fold_left summary_step fns st)) =
    cs_TotalFunctions (ss_summary st) + length fns /\
  cs_UnusedFunctions (ss_summary (fold_left summary_step fns st)) =
    cs_UnusedFunctions (ss_summary st) +
    length (List.filter (fun fn => rm_IsUnused (rf_Metrics fn)) fns) /\
  cs_RecursiveFunctions (ss_summary (fold_left summary_step fns st)) =
    cs_RecursiveFunctions (ss_summary st) + length (List.filter rf_IsRecursive fns) /\
  cs_DuplicateCode (ss_summary (fold_left summary_step fns st)) =
    cs_DuplicateCode (ss_summary st) + length (List.filter rf_IsDuplicate fns).
Proof.
  induction fns as [|fn fns IH]; intros st; cbn [fold_left List.filter length].
  - lia.
  - destruct (IH (summary_step st fn)) as (H1 & H2 & H3 & H4).
    rewrite H1, H2, H3, H4. unfold summary_step. cbn [ss_summary cs_TotalFunctions
      cs_UnusedFunctions cs_RecursiveFunctions cs_DuplicateCode].
    destruct (rm_IsUnused (rf_Metrics fn)), (rf_IsRecursive fn), (rf_IsDuplicate fn);
      cbn [length]; lia.
Qed.

Lemma summary_fold_lines (fns : list ReportFunction) : forall st,
  int_wrap (cs_TotalLines (ss_summary st)) = cs_TotalLines (ss_summary st) ->
  cs_TotalLines (ss_summary (fold_left summary_step fns st)) =
    int_wrap (cs_TotalLines (ss_summary st) +
              sumZ (map (fun fn => rm_LinesOfCode (rf_Metrics fn)) fns)).
Proof.
  induction fns as [|fn fns IH]; intros st Hst; cbn [fold_left map sumZ fold_right].
  - by rewrite Z.add_0_r.
  - rewrite IH.
    + unfold summary_step. cbn [ss_summary cs_TotalLines]. unfold int_add.
      change (((cs_TotalLines (ss_summary st) + rm_LinesOfCode (rf_Metrics fn) + 2 ^ 63)
                 mod 2 ^ 64 - 2 ^ 63)%Z)
        with (int_wrap (cs_TotalLines (ss_summary st) + rm_LinesOfCode (rf_Metrics fn))).
      rewrite int_wrap_add_l. f_equal. unfold sumZ. ring.
    + unfold summary_step. cbn [ss_summary cs_TotalLines]. unfold int_add.
      change (((cs_TotalLines (ss_summary st) + rm_LinesOfCode (rf_Metrics fn) + 2 ^ 63)
                 mod 2 ^ 64 - 2 ^ 63)%Z)
        with (int_wrap (cs_TotalLines (ss_summary st) + rm_LinesOfCode (rf_Metrics fn))).
      rewrite <- (Z.add_0_r (int_wrap (_ + _))) at 1.
      by rewrite int_wrap_add_l, Z.add_0_r.
Qed.

Lemma summary_fold_hotspots (fns : list ReportFunction) : forall st,
  cs_Hotspots (ss_summary (fold_left summary_step fns st)) =
    app (cs_Hotspots (ss_summary st))
        (map to_hotspot (List.filter (fun fn => isHotspot (rf_Metrics fn)) fns)).
Proof.
  induction fns as [|fn fns IH]; intros st; cbn [fold_left List.filter].
  - by rewrite app_nil_r.
  - rewrite IH. unfold summary_step at 1. cbn [ss_summary cs_Hotspots].
    destruct (isHotspot (rf_Metrics fn)); cbn [map]; [|done].
    by rewrite <- app_assoc.
Qed.

Lemma summary_fold_dist (fns : list ReportFunction) : forall st,
  (forall j c, cs_ComplexityDistribution (ss_summary st) !! j = Some c -> 0 < c) ->
  (forall j c, cs_ComplexityDistribution (ss_summary (fold_left summary_step fns st)) !! j
                 = Some c -> 0 < c) /\
  (forall k, map_get (cs_ComplexityDistribution (ss_summary (fold_left summary_step fns st))) k =
     map_get (cs_ComplexityDistribution (ss_summary st)) k +
     length (List.filter (fun fn => String.eqb
               (complexity_bucket (rm_CyclomaticComplexity (rf_Metrics fn))) k) fns)) /\
  map_total (cs_ComplexityDistribution (ss_summary (fold_left summary_step fns st))) =
    map_total (cs_ComplexityDistribution (ss_summary st)) + length fns.
Proof.
  induction fns as [|fn fns IH]; intros st Hpos; cbn [fold_left List.filter length].
  - split; [done|]. split; intros; lia.
  - assert (Hd : cs_ComplexityDistribution (ss_summary (summary_step st fn)) =
                 incr (complexity_bucket (rm_CyclomaticComplexity (rf_Metrics fn)))
                      (cs_ComplexityDistribution (ss_summary st))) by reflexivity.
    destruct (IH (summary_step st fn)) as (H1 & H2 & H3).
    { rewrite Hd. by apply incr_pos. }
    split; [done|]. split.
    + intros k. rewrite H2, Hd, map_get_incr.
      destruct (String.eqb _ k); cbn [length]; lia.
    + rewrite H3, Hd, map_total_incr. lia.
Qed.

(** The fields [GenerateCodeSummary] takes from the loop unchanged. *)
Lemma GenerateCodeSummary_loop (fns : list ReportFunction) :
  let st := fold_left summary_step fns
              {| ss_summary := empty_summary; ss_totalComplexity := 0;
                 ss_totalMaintainability := 0; ss_totalNesting := 0 |} in
  cs_TotalFunctions (GenerateCodeSummary fns) = cs_TotalFunctions (ss_summary st) /\
  cs_TotalLines (GenerateCodeSummary fns) = cs_TotalLines (ss_summary st) /\
  cs_UnusedFunctions (GenerateCodeSummary fns) = cs_UnusedFunctions (ss_summary st) /\
  cs_RecursiveFunctions (GenerateCodeSummary fns) = cs_RecursiveFunctions (ss_summary st) /\
  cs_DuplicateCode (GenerateCodeSummary fns) = cs_DuplicateCode (ss_summary st) /\
  cs_ComplexityDistribution (GenerateCodeSummary fns) =
    cs_ComplexityDistribution (ss_summary st) /\
  cs_Hotspots (GenerateCodeSummary fns) = sort_hotspots (cs_Hotspots (ss_summary st)).
Proof.
  intros st. unfold GenerateCodeSummary. fold st.
  destruct (Nat.ltb 0 (cs_TotalFunctions (ss_summary st))); cbn; auto 10.
Qed.

Lemma StronglySorted_lookup {A} (R : relation A) (l : list A) :
  StronglySorted R l ->
  forall i j x y, i < j -> l !! i = Some x -> l !! j = Some y -> R x y.
Proof.
  induction 1 as [|a l Hs IH Hall]; intros i j x y Hij Hi Hj; [done|].
  destruct i as [|i], j as [|j]; try lia; cbn in Hi, Hj.
  - injection Hi as <-. rewrite Forall_forall in Hall. apply Hall.
    by eapply list_elem_of_lookup_2.
  - eapply IH; [|exact Hi|exact Hj]. lia.
Qed.

#[export] Instance hs_ge_trans : Transitive hs_ge.
Proof. intros a b c. unfold hs_ge. lia. Qed.

#[export] Instance hs_ge_total : Total hs_ge.
Proof. intros a b. unfold hs_ge. lia. Qed.

(** A hotspot always has an issue. *)
Lemma isHotspot_identifyIssues (m : ReportMetrics) :
  isHotspot m = true -> identifyIssues m <> [].
Proof.
  unfold isHotspot, identifyIssues.
  destruct (Z.ltb 10 _), (Z.ltb 4 _), (Rlt_dec _ 50), (Z.ltb 15 _); cbn; congruence.
Qed.

(* ------------------------------------------------------------------ *)
(** ** Example inputs *)

Definition example_metrics : FunctionMetrics :=
  {| CyclomaticComplexity := 1; IsUnused := false |}.

(** A plain function record of package [main] with the given callees. *)
Definition example_fn (name : string) (callees : list string) : FunctionCall :=
  {| Caller := name; Callees := callees; File := "main.go"; Package := "main";
     Params := []; Returns := []; IsMethod := false; IsRecursive := false;
     IsDuplicate := false; Struct := EmptyString; Metrics := example_metrics |}.

Definition example_factorial : gmap string FunctionCall :=
  <["factorial" := example_fn "factorial" ["factorial"; "fmt.Println"]]> ∅.

Definition example_cycle : gmap string FunctionCall :=
  <["a" := example_fn "a" ["b"]]> (<["b" := example_fn "b" ["c"]]>
    (<["c" := example_fn "c" ["a"; "fmt.Println"]]>
      (<["main" := example_fn "main" ["a"]]> ∅))).

(** [func f(a, b bool) bool { return a && b }] *)
Definition example_and : FuncDecl :=
  {| fd_recv := None; fd_name := "f";
     fd_params := [{| f_names := ["a"; "b"]; f_type := Ident "bool" |}];
     fd_results := Some [{| f_names := []; f_type := Ident "bool" |}];
     fd_body := Other "*ast.BlockStmt"
                  [ReturnStmt [BinaryExpr (Ident "a") "&&" (Ident "b")]] |}.

(** [func g(x int) int { if x > 0 && x < 10 { return 1 }; return 0 }] *)
Definition example_if_and : FuncDecl :=
  {| fd_recv := None; fd_name := "g";
     fd_params := [{| f_names := ["x"]; f_type := Ident "int" |}];
     fd_results := Some [{| f_names := []; f_type := Ident "int" |}];
     fd_body := Other "*ast.BlockStmt"
       [IfStmt None
          (BinaryExpr (BinaryExpr (Ident "x") ">" (BasicLit "0")) "&&"
                      (BinaryExpr (Ident "x") "<" (BasicLit "10")))
          (Other "*ast.BlockStmt" [ReturnStmt [BasicLit "1"]]) None;
        ReturnStmt [BasicLit "0"]] |}.

(** [func f(x int) {}] *)
Definition example_param_only : FuncDecl :=
  {| fd_recv := None; fd_name := "f";
     fd_params := [{| f_names := ["x"]; f_type := Ident "int" |}];
     fd_results := None; fd_body := Other "*ast.BlockStmt" [] |}.

(** A readability record with nesting depth 2. *)
Definition example_readability : CodeReadabilityMetrics :=
  {| FunctionLength := 10; NestingDepth := 2; CommentDensity := 0%R;
     CyclomaticPoints := 3; BranchDensity := 0%R |}.

(** [func name() {}] *)
Definition empty_func (name : string) : FuncDecl :=
  {| fd_recv := None; fd_name := name; fd_params := []; fd_results := None;
     fd_body := Other "*ast.BlockStmt" [] |}.

(** [func f() { return }] and [func g() { return }] in one file of
    package [main]. *)
Definition example_ret (name : string) : FuncDecl :=
  {| fd_recv := None; fd_name := name; fd_params := []; fd_results := None;
     fd_body := Other "*ast.BlockStmt" [ReturnStmt []] |}.

Definition example_dup_file : GoFile :=
  {| PkgName := "main"; Decls := [FuncD (example_ret "f"); GenD; FuncD (example_ret "g")] |}.

(** The record [AnalyzeFile "a.go"] gives such a function. *)
Definition analyzed_ret (name : string) (dup : bool) : FunctionCall :=
  {| Caller := name; Callees := []; File := "a.go"; Package := "main";
     Params := []; Returns := []; IsMethod := false; IsRecursive := false;
     IsDuplicate := dup; Struct := EmptyString;
     Metrics := {| CyclomaticComplexity := 1; IsUnused := false |} |}.

(** [package p; func f() { return }] *)
Definition example_pkg_file : GoFile :=
  {| PkgName := "p"; Decls := [FuncD (example_ret "f")] |}.

(** The merged map of [GetAnalysis] on [example_dup_file] alone. *)
Definition example_merged : gmap string FunctionCall :=
  <["g" := analyzed_ret "g" true]> (<["f" := analyzed_ret "f" false]> ∅).

(** An exported [Exported] calling the unexported [helper]. *)
Definition example_exported : gmap string FunctionCall :=
  <["Exported" := example_fn "Exported" ["helper"]]> (<["helper" := example_fn "helper" []]> ∅).

(** [main] calling [used]; [dead] called by nobody and [fmt.Println]
    reached only through a name with a dot. *)
Definition example_dead : gmap string FunctionCall :=
  <["main" := example_fn "main" ["used"; "fmt.Println"]]>
    (<["used" := example_fn "used" []]> (<["dead" := example_fn "dead" ["used"]]> ∅)).

(** A record of the report of [GetAnalysis] for a plain function of
    cyclomatic complexity 1. *)
Definition reported_fn (name path pkg : string) (dup unused : bool) : FunctionCall :=
  {| Caller := name; Callees := []; File := path; Package := pkg;
     Params := []; Returns := []; IsMethod := false; IsRecursive := false;
     IsDuplicate := dup; Struct := EmptyString;
     Metrics := {| CyclomaticComplexity := 1; IsUnused := unused |} |}.

(** [func main() { helper() }] *)
Definition example_main_helper : FuncDecl :=
  {| fd_recv := None; fd_name := "main"; fd_params := []; fd_results := None;
     fd_body := Other "*ast.BlockStmt"
                  [Other "*ast.ExprStmt" [Other "*ast.CallExpr" [Ident "helper"]]] |}.

(** [package main; func main() { helper() }; func helper() {}] *)
Definition example_call_file : GoFile :=
  {| PkgName := "main"; Decls := [FuncD example_main_helper; FuncD (empty_func "helper")] |}.

Definition example_call_report : list FunctionCall :=
  [reported_fn "main" "main.go" "main" false false;
   reported_fn "helper" "main.go" "main" false true].

(** [func (t *T) Run() {}] *)
Definition example_ptr_method : FuncDecl :=
  {| fd_recv := Some [{| f_names := ["t"]; f_type := StarExpr (Ident "T") |}];
     fd_name := "Run"; fd_params := []; fd_results := None;
     fd_body := Other "*ast.BlockStmt" [] |}.

Definition example_ptr_file : GoFile :=
  {| PkgName := "main"; Decls := [FuncD example_ptr_method] |}.

Definition example_ptr_record : FunctionCall :=
  {| Caller := "*T.Run"; Callees := []; File := "t.go"; Package := "main";
     Params := []; Returns := []; IsMethod := true; IsRecursive := false;
     IsDuplicate := false; Struct := "*T";
     Metrics := {| CyclomaticComplexity := 1; IsUnused := true |} |}.


(** [func init() { if debug { return } }] *)
Definition example_if_init : FuncDecl :=
  {| fd_recv := None; fd_name := "init"; fd_params := []; fd_results := None;
     fd_body := Other "*ast.BlockStmt"
       [IfStmt None (Ident "debug") (Other "*ast.BlockStmt" [ReturnStmt []]) None] |}.

(** [func init() {}] then [func init() { if debug { return } }]. *)
Definition example_init_file : GoFile :=
  {| PkgName := "main"; Decls := [FuncD (empty_func "init"); FuncD example_if_init] |}.

(** [func name() { return id }] *)
Definition example_return_ident (name id : string) : FuncDecl :=
  {| fd_recv := None; fd_name := name; fd_params := []; fd_results := None;
     fd_body := Other "*ast.BlockStmt" [ReturnStmt [Ident id]] |}.

(* ------------------------------------------------------------------ *)
(** ** Claims on detectRecursion *)

(** C1: a record whose callee list holds its own key comes back from
    [detectRecursion] with [IsRecursive = true], whatever its component. *)
Theorem detectRecursion_self_call (fns : gmap string FunctionCall) (k : string)
    (f : FunctionCall) :
  fns !! k = Some f -> k ∈ Callees f ->
  exists f', detectRecursion fns !! k = Some f' /\ IsRecursive f' = true.
Proof.
  intros Hk Hin. unfold detectRecursion.
  pose proof (detectRecursion_in_correct fns _ (map_to_list_keys fns) k) as H.
  rewrite Hk in H. destruct H as [f' [E [_ Hr]]].
  exists f'. split; [done|]. apply Hr. right. left. by exists f.
Qed.

Lemma detectRecursion_self_call_witness :
  example_factorial !! "factorial" = Some (example_fn "factorial" ["factorial"; "fmt.Println"]) /\
  "factorial" ∈ Callees (example_fn "factorial" ["factorial"; "fmt.Println"]) /\
  exists f', detectRecursion example_factorial !! "factorial" = Some f' /\ IsRecursive f' = true.
Proof.
  assert (H1 : example_factorial !! "factorial" =
               Some (example_fn "factorial" ["factorial"; "fmt.Println"])) by reflexivity.
  assert (H2 : "factorial" ∈ Callees (example_fn "factorial" ["factorial"; "fmt.Println"]))
    by (apply (bool_decide_unpack _); vm_compute; exact I).
  split; [exact H1|]. split; [exact H2|].
  exact (detectRecursion_self_call example_factorial "factorial" _ H1 H2).
Defined.

(** C2: a record on a cycle through at least one other key (a strongly
    connected component of more than one node, over the edges to callees
    that are keys) comes back with [IsRecursive = true]; a record in a
    singleton component without a self-call keeps its [IsRecursive]. *)
Theorem detectRecursion_cycles (fns : gmap string FunctionCall) (k : string)
    (f : FunctionCall) :
  fns !! k = Some f ->
  exists f', detectRecursion fns !! k = Some f' /\
    (knontriv fns k -> IsRecursive f' = true) /\
    (~ knontriv fns k -> ~ selfloop fns k -> IsRecursive f' = IsRecursive f).
Proof.
  intros Hk. unfold detectRecursion.
  pose proof (detectRecursion_in_correct fns _ (map_to_list_keys fns) k) as H.
  rewrite Hk in H. destruct H as [f' [E [Hsh Hr]]].
  assert (Hiff : nontriv fns k <-> knontriv fns k) by (apply nontriv_knontriv; by exists f).
  exists f'. split; [done|]. split.
  - intros Hn. apply Hr. right. right. by apply Hiff.
  - intros Hn Hs. destruct (IsRecursive f) eqn:Ef.
    + apply Hr. by left.
    + destruct (IsRecursive f') eqn:Ef'; [|done].
      destruct (proj1 Hr eq_refl) as [|[|Hn']]; [done|done|].
      exfalso. apply Hn. by apply Hiff.
Qed.

Lemma detectRecursion_cycles_witness :
  example_cycle !! "a" = Some (example_fn "a" ["b"]) /\
  exists f', detectRecursion example_cycle !! "a" = Some f' /\
    (knontriv example_cycle "a" -> IsRecursive f' = true) /\
    (~ knontriv example_cycle "a" -> ~ selfloop example_cycle "a" ->
       IsRecursive f' = IsRecursive (example_fn "a" ["b"])).
Proof.
  assert (H1 : example_cycle !! "a" = Some (example_fn "a" ["b"])) by reflexivity.
  split; [exact H1|].
  exact (detectRecursion_cycles example_cycle "a" _ H1).
Defined.

(* ------------------------------------------------------------------ *)
(** ** Claims on the complexity metrics *)

(** C4, counterexample: for [func f(a, b bool) bool { return a && b }]
    the cyclomatic complexity is 2 and the cognitive branching score 0. *)
Lemma complexity_and_counterexample :
  ComputeComplexity (decl_node example_and) = 2 /\
  CogBranchingScore (ComputeCognitiveComplexity example_and) = 0 /\
  ComputeComplexity (decl_node example_and) <>
    CogBranchingScore (ComputeCognitiveComplexity example_and) + 1.
Proof. vm_compute. split; [reflexivity|]. split; [reflexivity|]. discriminate. Qed.

(** C4: when the signature holds no counted node and the body is [plain]
    (no switch, type switch or select; no counted node in an [if]'s [Init]
    or a [range]'s [Key] and [Value]), the cyclomatic complexity is the
    cognitive branching score plus the number of [&&]/[||] operators plus
    one.  Only without [&&]/[||] is it the branching score plus one. *)
Theorem complexity_branching_logical (d : FuncDecl) :
  forallb (fun h => Nat.eqb (cyclo_count h) 0) (decl_header d) = true ->
  plain (fd_body d) = true ->
  ComputeComplexity (decl_node d) =
    CogBranchingScore (ComputeCognitiveComplexity d) +
    LogicalOps (ComputeCognitiveComplexity d) + 1.
Proof.
  intros Hh Hb. unfold ComputeComplexity. rewrite inspect_complexity, cyclo_count_decl.
  assert (Hs : list_sum (map (fun x => cyclo_count x) (decl_header d)) = 0).
  { induction (decl_header d) as [|h l IH]; simpl in *; [done|].
    apply andb_true_iff in Hh as [H1 H2]. apply Nat.eqb_eq in H1. rewrite H1, IH by done.
    done. }
  rewrite Hs. unfold ComputeCognitiveComplexity. simpl.
  pose proof (visit_lb _ Hb 0 {| cc_Score := 0; cc_LogicalOps := 0;
                                 cc_BranchingScore := 0; cc_maxDepth := 0 |}) as H.
  unfold lb in H. simpl in H. lia.
Qed.

Lemma complexity_branching_logical_witness :
  forallb (fun h => Nat.eqb (cyclo_count h) 0) (decl_header example_if_and) = true /\
  plain (fd_body example_if_and) = true /\
  ComputeComplexity (decl_node example_if_and) =
    CogBranchingScore (ComputeCognitiveComplexity example_if_and) +
    LogicalOps (ComputeCognitiveComplexity example_if_and) + 1.
Proof.
  assert (H1 : forallb (fun h => Nat.eqb (cyclo_count h) 0) (decl_header example_if_and) = true)
    by (vm_compute; reflexivity).
  assert (H2 : plain (fd_body example_if_and) = true) by (vm_compute; reflexivity).
  split; [exact H1|]. split; [exact H2|].
  exact (complexity_branching_logical example_if_and H1 H2).
Defined.

(** C5, counterexample: [func f(x int) {}] has a body contributing no
    operator and no operand, yet its Halstead volume is [3 * log2 3], not 0:
    the name [f], the parameter [x] and its type [int] are operands. *)
Lemma halstead_param_only_counterexample :
  inspect halstead_step (fd_body example_param_only) (∅, ∅) = (∅, ∅) /\
  Volume (ComputeHalsteadMetrics example_param_only) <> 0%R.
Proof.
  split; [reflexivity|].
  assert (Hc : halstead_counts example_param_only =
               {| hc_n1 := 0; hc_n2 := 3; hc_N1 := 0; hc_N2 := 3 |}) by (vm_compute; reflexivity).
  unfold ComputeHalsteadMetrics. rewrite Hc. simpl. unfold log2.
  pose proof ln_lt_2 as H2.
  assert (H3 : (0 < ln (1 + 1 + 1))%R).
  { rewrite <- ln_1. apply ln_increasing; lra. }
  intros E. apply Rmult_integral in E as [E|E]; [lra|].
  unfold Rdiv in E. apply Rmult_integral in E as [E|E]; [lra|].
  apply Rinv_neq_0_compat in E; [done|lra].
Qed.

(** C5: [ComputeHalsteadMetrics] has no guard, and needs none: the name of
    the function is always an operand, so [n1 + n2 >= 1] and [n2 >= 1]; the
    logarithm is taken of a number at least 1, the divisor [2 * n2] is
    positive, and volume, difficulty and effort are finite and
    non-negative.  For [func name() {}], where the name is the only token,
    all three are 0. *)
Theorem halstead_defined :
  (forall fn : FuncDecl,
     1 <= hc_n2 (halstead_counts fn) /\
     1 <= hc_n1 (halstead_counts fn) + hc_n2 (halstead_counts fn) /\
     (0 <= Volume (ComputeHalsteadMetrics fn))%R /\
     (0 <= Difficulty (ComputeHalsteadMetrics fn))%R /\
     (0 <= Effort (ComputeHalsteadMetrics fn))%R) /\
  (forall name : string,
     Volume (ComputeHalsteadMetrics (empty_func name)) = 0%R /\
     Difficulty (ComputeHalsteadMetrics (empty_func name)) = 0%R /\
     Effort (ComputeHalsteadMetrics (empty_func name)) = 0%R).
Proof.
  split.
  - intros fn. pose proof (halstead_name_operand fn) as Hn2.
    unfold ComputeHalsteadMetrics. simpl.
    destruct (halstead_counts fn) as [n1 n2 N1 N2]; simpl in *.
    assert (HV : (0 <= INR (N1 + N2) * log2 (INR (n1 + n2)))%R).
    { apply Rmult_le_pos; [apply pos_INR|]. apply log2_nonneg.
      replace 1%R with (INR 1) by reflexivity. apply le_INR. lia. }
    assert (HD : (0 <= INR n1 * INR N2 / (2 * INR n2))%R).
    { assert (0 < INR n2)%R by (apply lt_0_INR; lia).
      unfold Rdiv. apply Rmult_le_pos; [apply Rmult_le_pos; apply pos_INR|].
      apply Rlt_le, Rinv_0_lt_compat. lra. }
    repeat split; try lia; try assumption. apply Rmult_le_pos; assumption.
  - intros name.
    assert (Hc : halstead_counts (empty_func name) =
                 {| hc_n1 := 0; hc_n2 := 1; hc_N1 := 0; hc_N2 := 1 |}).
    { unfold halstead_counts. simpl. unfold incr. rewrite lookup_empty, insert_empty.
      unfold map_total. rewrite map_size_singleton, map_fold_singleton, map_fold_empty.
      reflexivity. }
    unfold ComputeHalsteadMetrics. rewrite Hc. simpl. unfold log2. rewrite ln_1.
    repeat split; lra.
Qed.

(** C9: for a fixed readability record, [calculateMaintainability] does not
    increase with the complexity, from complexity 1 on. *)
Theorem calculateMaintainability_antitone (r : CodeReadabilityMetrics) (c1 c2 : Z) :
  (1 <= c1)%Z -> (c1 <= c2)%Z ->
  (calculateMaintainability r c2 <= calculateMaintainability r c1)%R.
Proof.
  intros H1 H12. unfold calculateMaintainability.
  apply IZR_le in H1, H12.
  destruct (Rle_lt_or_eq_dec _ _ H12) as [Hlt|Heq].
  - pose proof (ln_increasing (IZR c1) (IZR c2) ltac:(lra) Hlt). lra.
  - rewrite Heq. lra.
Qed.

Lemma calculateMaintainability_antitone_witness :
  (1 <= 3)%Z /\ (3 <= 7)%Z /\
  (calculateMaintainability example_readability 7 <=
   calculateMaintainability example_readability 3)%R.
Proof.
  split; [lia|]. split; [lia|].
  apply (calculateMaintainability_antitone example_readability 3 7); lia.
Defined.

(* ------------------------------------------------------------------ *)
(** ** Claims on duplicate detection *)

(** C7: on a fresh detector, the call on the [i]-th declaration answers
    [true] exactly when the hash of its extracted body is in the [seen]
    map at that time (the map after the first [i] calls), that is when an
    earlier declaration had the same hash; so the first declaration with a
    hash is never flagged, and one whose body is the same tree as an
    earlier one's (comments are not in the tree) is flagged. *)
Theorem DetectDuplication_sequence (l : list FuncDecl) (i : nat) (g : FuncDecl) :
  l !! i = Some g ->
  (detect_all ∅ l).1 !! i =
    Some (bool_decide (body_hash g ∈ dom (detect_all ∅ (take i l)).2)) /\
  (body_hash g ∈ dom (detect_all ∅ (take i l)).2 <->
     exists j f, j < i /\ l !! j = Some f /\ body_hash f = body_hash g) /\
  (forall j f, j < i -> l !! j = Some f -> fd_body f = fd_body g ->
     (detect_all ∅ l).1 !! i = Some true).
Proof.
  intros Hi. split; [|split].
  - exact (detect_all_lookup_seen ∅ l i g Hi).
  - rewrite detect_all_dom, elem_of_map_take_hash, dom_empty_L. set_solver.
  - intros j f Hj Hf Hb. destruct (detect_all_lookup ∅ l i g Hi) as [b [Hb' Hiff]].
    rewrite Hb'. f_equal. apply Hiff. right. exists j, f. split; [done|].
    split; [done|]. by apply body_hash_body.
Qed.

Lemma DetectDuplication_sequence_witness :
  [example_ret "f"; example_ret "g"] !! 1 = Some (example_ret "g") /\
  (detect_all ∅ [example_ret "f"; example_ret "g"]).1 !! 1 = Some true.
Proof.
  assert (H : [example_ret "f"; example_ret "g"] !! 1 = Some (example_ret "g")) by reflexivity.
  split; [exact H|].
  destruct (DetectDuplication_sequence [example_ret "f"; example_ret "g"] 1 _ H) as [_ [_ H3]].
  apply (H3 0 (example_ret "f")); [lia|reflexivity|reflexivity].
Defined.

(** C10: [AnalyzeFile] makes a fresh detector for each file, so the
    [IsDuplicate] flag of the [i]-th function of a file is set exactly
    when the declaration found for it has the hash of the declaration
    found for an earlier function of the same file: other files play no
    part, and a repeat in another file is never flagged. *)
Theorem AnalyzeFile_duplicate_in_file (path : string) (file : GoFile)
    (out : list FunctionCall) (i : nat) (r : FunctionCall) :
  AnalyzeFile path (Parsed file) = Ok out ->
  out !! i = Some r ->
  exists d dd, file_funcs (Decls file) !! i = Some d /\
    findFunctionDecl file (methodName d) = Some dd /\
    (IsDuplicate r = true <->
       exists j d' dd', j < i /\ file_funcs (Decls file) !! j = Some d' /\
         findFunctionDecl file (methodName d') = Some dd' /\ body_hash dd' = body_hash dd).
Proof.
  intros Hout Hr. simpl in Hout. injection Hout as <-.
  set (ds := file_funcs (Decls file)) in *.
  set (F := fun d => findFunctionDecl file (methodName d)).
  assert (Hall : forall d, d ∈ ds -> is_Some (F d)) by (intros d Hd; by apply findFunctionDecl_some).
  pose proof (metrics_loop_dup file path (PkgName file) ds Hall ∅) as Hdup.
  assert (Hlt : i < length ds).
  { apply lookup_lt_Some in Hr. by rewrite metrics_loop_length, length_map in Hr. }
  destruct (lookup_lt_is_Some_2 ds i Hlt) as [d Hd].
  destruct (Hall d ltac:(by eapply list_elem_of_lookup_2)) as [dd Hdd].
  exists d, dd. split; [done|]. split; [exact Hdd|].
  assert (Hfl : omap F ds !! i = Some dd) by (rewrite omap_lookup_total, Hd; done).
  destruct (detect_all_lookup ∅ (omap F ds) i dd Hfl) as [b [Hb Hiff]].
  assert (HIr : map IsDuplicate (metrics_loop file ∅ (map (new_call path (PkgName file)) ds)) !! i
                = Some (IsDuplicate r)) by (rewrite list_lookup_fmap, Hr; done).
  fold F in Hdup. rewrite Hdup, Hb in HIr. injection HIr as <-.
  rewrite Hiff, dom_empty_L. split.
  - intros [Hin|[j [f [Hj [Hf Hh]]]]]; [set_solver|].
    rewrite omap_lookup_total in Hf by done.
    destruct (ds !! j) as [d'|] eqn:Ed'; [|discriminate]. simpl in Hf. eauto 10.
  - intros [j [d' [dd' [Hj [Hd' [Hdd' Hh]]]]]]. right. exists j, dd'.
    split; [done|]. split; [|done]. rewrite omap_lookup_total, Hd' by done. exact Hdd'.
Qed.

Lemma AnalyzeFile_duplicate_in_file_witness :
  AnalyzeFile "a.go" (Parsed example_dup_file) =
    Ok [analyzed_ret "f" false; analyzed_ret "g" true] /\
  [analyzed_ret "f" false; analyzed_ret "g" true] !! 1 = Some (analyzed_ret "g" true) /\
  exists d dd, file_funcs (Decls example_dup_file) !! 1 = Some d /\
    findFunctionDecl example_dup_file (methodName d) = Some dd /\
    (IsDuplicate (analyzed_ret "g" true) = true <->
       exists j d' dd', j < 1 /\ file_funcs (Decls example_dup_file) !! j = Some d' /\
         findFunctionDecl example_dup_file (methodName d') = Some dd' /\
         body_hash dd' = body_hash dd).
Proof.
  assert (H1 : AnalyzeFile "a.go" (Parsed example_dup_file) =
               Ok [analyzed_ret "f" false; analyzed_ret "g" true]) by (vm_compute; reflexivity).
  assert (H2 : [analyzed_ret "f" false; analyzed_ret "g" true] !! 1 =
               Some (analyzed_ret "g" true)) by reflexivity.
  split; [exact H1|]. split; [exact H2|].
  exact (AnalyzeFile_duplicate_in_file "a.go" example_dup_file _ 1 _ H1 H2).
Defined.

(* ------------------------------------------------------------------ *)
(** ** Claims on the names of the records *)

(** C3, counterexample: [func f] of package [p] is reported with
    [Caller = "f"], not ["p.f"]. *)
Lemma Caller_unqualified_counterexample :
  match GetAnalysis [("a.go", Parsed example_pkg_file)] with
  | Ok fns => map Caller fns
  | Err _ => []
  end = ["f"] /\
  match GetAnalysis [("a.go", Parsed example_pkg_file)] with
  | Ok fns => map Package fns
  | Err _ => []
  end = ["p"] /\
  "f" <> "p.f".
Proof. split; [vm_compute; reflexivity|]. split; [vm_compute; reflexivity|]. discriminate. Qed.

(** C3: the merged map of [GetAnalysis] stores each record under its
    [Caller]; the [Caller] of every reported record is the full name
    [methodName] of a function declaration of an analysed file (the
    receiver type and the name, [ReceiverType.FuncName], for a method; the
    bare name otherwise), with no package qualifier: the package is in
    the separate field [Package]. *)
Theorem GetAnalysis_Caller_methodName (files : list (string * ParseResult)) :
  (forall fm k r, merge_files ∅ files = Ok fm -> fm !! k = Some r -> Caller r = k) /\
  (forall fns r, GetAnalysis files = Ok fns -> r ∈ fns ->
     exists path file d, (path, Parsed file) ∈ files /\ d ∈ file_funcs (Decls file) /\
       Caller r = methodName d /\ Package r = PkgName file /\ File r = path).
Proof.
  set (Q := fun r => exists path file d, (path, Parsed file) ∈ files /\
              d ∈ file_funcs (Decls file) /\ Caller r = methodName d /\
              Package r = PkgName file /\ File r = path).
  assert (HQ : forall fm, merge_files ∅ files = Ok fm ->
                 forall k r, fm !! k = Some r -> Caller r = k /\ Q r).
  { intros fm Hfm. apply (merge_files_inv Q files ∅ fm); [|intros ???? Hin Ha Hr|exact Hfm].
    - intros k r Hk. by rewrite lookup_empty in Hk.
    - destruct (AnalyzeFile_record _ _ _ _ Ha Hr) as [d [Hd [HC [HP HF]]]].
      exists path, file, d. auto. }
  split.
  - intros fm k r Hfm Hk. exact (proj1 (HQ fm Hfm k r Hk)).
  - intros fns r Hfns Hr.
    destruct (GetAnalysis_record files fns r Hfns Hr)
      as [fm [k [r0 [Hfm [Hk [HC [HP [HF _]]]]]]]].
    destruct (proj2 (HQ fm Hfm k r0 Hk)) as [path [file [d [Hin [Hd [HC0 [HP0 HF0]]]]]]].
    exists path, file, d. rewrite HC, HP, HF. auto.
Qed.

Lemma GetAnalysis_Caller_methodName_witness :
  merge_files ∅ [("a.go", Parsed example_dup_file)] = Ok example_merged /\
  example_merged !! "g" = Some (analyzed_ret "g" true) /\
  Caller (analyzed_ret "g" true) = "g".
Proof.
  assert (H1 : merge_files ∅ [("a.go", Parsed example_dup_file)] = Ok example_merged)
    by (vm_compute; reflexivity).
  assert (H2 : example_merged !! "g" = Some (analyzed_ret "g" true)) by (vm_compute; reflexivity).
  split; [exact H1|]. split; [exact H2|].
  exact (proj1 (GetAnalysis_Caller_methodName [("a.go", Parsed example_dup_file)])
           example_merged "g" _ H1 H2).
Defined.

(* ------------------------------------------------------------------ *)
(** ** Claims on parse failures *)

(** C8, counterexample: a directory with a file that does not parse and
    a good one gives an error, and no report. *)
Lemma GetAnalysis_bad_file_counterexample :
  GetAnalysis [("bad.go", ParseError "expected declaration");
               ("a.go", Parsed example_pkg_file)] =
  Err "failed to parse bad.go: expected declaration".
Proof. vm_compute. reflexivity. Qed.

(** C8: [GetAnalysis] stops at the first file that fails to parse: with
    the files before it parsed, the whole run returns that file's error,
    ["failed to parse <path>: <err>"], and no report, whatever follows. *)
Theorem GetAnalysis_first_parse_error (pre : list (string * GoFile)) (path err : string)
    (post : list (string * ParseResult)) :
  GetAnalysis (app (map (fun pf => (pf.1, Parsed pf.2)) pre) ((path, ParseError err) :: post)) =
  Err ("failed to parse " ++ path ++ ": " ++ err).
Proof.
  unfold GetAnalysis.
  assert (H : forall m, merge_files m (app (map (fun pf => (pf.1, Parsed pf.2)) pre)
                                       ((path, ParseError err) :: post)) =
                        Err ("failed to parse " ++ path ++ ": " ++ err)).
  { induction pre as [|[p f] pre IH]; intros m; simpl; [done|]. apply IH. }
  by rewrite H.
Qed.

(* ------------------------------------------------------------------ *)
(** ** Claims on dead code *)

(** C6, counterexample: [helper] is called only by the exported
    [Exported]; it is not reachable from the entry point [main], not
    exported and not an entry point, yet it is not reported unused. *)
Lemma DetectDeadCode_exported_root_counterexample :
  UnusedFunctions (DetectDeadCode example_exported ["main"]) = [] /\
  is_Some (example_exported !! "helper") /\
  isExported "helper" = false /\ ("helper" ∉ ["main"]) /\
  ~ rtc (dedge example_exported) "main" "helper".
Proof.
  split; [vm_compute; reflexivity|]. split; [vm_compute; eauto|].
  split; [reflexivity|]. split; [set_solver|].
  intros H. inversion H as [|x y z Hxy Hyz]; subst.
  destruct Hxy as [f [Hf _]]. vm_compute in Hf. discriminate.
Qed.

(** C6: a key of the map is reported unused exactly when it is not
    exported, is not an entry point, and is not reachable from an entry
    point or from an exported key, where reachability follows the edges
    from a key to its callees whose names hold no ["."].  In particular an
    exported key is never reported, and a name is never reported unless it
    is a key. *)
Theorem DetectDeadCode_unused (fns : gmap string FunctionCall) (entryPoints : list string)
    (k : string) :
  k ∈ UnusedFunctions (DetectDeadCode fns entryPoints) <->
  is_Some (fns !! k) /\ isExported k = false /\ (k ∉ entryPoints) /\
  ~ exists s, (s ∈ entryPoints \/ (is_Some (fns !! s) /\ isExported s = true)) /\
              rtc (dedge fns) s k.
Proof.
  set (starts := fun s => s ∈ entryPoints \/ (is_Some (fns !! s) /\ isExported s = true)).
  set (fuel := S (size fns)).
  assert (He : forall l, (forall e, e ∈ l -> e ∈ entryPoints) -> forall r, mark_inv fns starts r ->
            let r' := fold_left (fun r e => markReachable fuel e fns r) l r in
            mark_inv fns starts r' /\ r ⊆ r' /\ (forall e, e ∈ l -> e ∈ r')).
  { induction l as [|e l IH]; intros Hl r Hr; simpl.
    - split; [done|]. split; [done|]. intros e He. by apply elem_of_nil in He.
    - destruct (mark_step fns starts e r Hr (or_introl (Hl e (list_elem_of_here _ _))))
        as [H1 [H2 H3]].
      destruct (IH (fun e' He' => Hl e' (list_elem_of_further _ _ _ He')) _ H1) as [H4 [H5 H6]].
      split; [done|]. split; [set_solver|].
      intros e' He'. apply elem_of_cons in He' as [->|He']; [set_solver|auto]. }
  assert (Hx : forall l, (forall s, s ∈ l -> is_Some (fns !! s)) -> forall r, mark_inv fns starts r ->
            let r' := fold_left (fun r s => if isExported s then markReachable fuel s fns r else r) l r in
            mark_inv fns starts r' /\ r ⊆ r' /\
            (forall s, s ∈ l -> isExported s = true -> s ∈ r')).
  { induction l as [|s l IH]; intros Hl r Hr; simpl.
    - split; [done|]. split; [done|]. intros s Hs. by apply elem_of_nil in Hs.
    - assert (Hl' : forall s', s' ∈ l -> is_Some (fns !! s'))
        by (intros s' Hs'; apply Hl; by right).
      destruct (isExported s) eqn:Hexp.
      + destruct (mark_step fns starts s r Hr
                    (or_intror (conj (Hl s (list_elem_of_here _ _)) Hexp))) as [H1 [H2 H3]].
        destruct (IH Hl' _ H1) as [H4 [H5 H6]].
        split; [done|]. split; [set_solver|].
        intros s' Hs' Hx'. apply elem_of_cons in Hs' as [->|Hs']; [set_solver|auto].
      + destruct (IH Hl' _ Hr) as [H4 [H5 H6]].
        split; [done|]. split; [done|].
        intros s' Hs' Hx'. apply elem_of_cons in Hs' as [->|Hs']; [congruence|auto]. }
  assert (H0 : mark_inv fns starts ∅) by (split; intros ?; set_solver).
  destruct (He entryPoints (fun e He => He) ∅ H0) as [He1 [_ He3]].
  destruct (Hx (map fst (map_to_list fns)) (fun s Hs => proj1 (keys_order fns s) Hs) _ He1)
    as [[Hreach Hclosed] [Hx2 Hx3]].
  unfold DetectDeadCode, DetectDeadCode_in. simpl UnusedFunctions. fold fuel.
  set (r := fold_left _ (map fst (map_to_list fns)) _) in *.
  assert (Hr : forall y, y ∈ r <-> exists s, starts s /\ rtc (dedge fns) s y).
  { intros y. split; [apply Hreach|].
    intros [s [Hs Hsy]].
    assert (Hsr : s ∈ r).
    { destruct Hs as [Hs|[Hs Hexp]].
      - apply Hx2. by apply He3.
      - apply Hx3; [by apply keys_order|done]. }
    clear Hs. induction Hsy as [x|x y0 z Hxy Hyz IHr]; [done|].
    apply IHr. by apply (Hclosed x). }
  rewrite list_elem_of_In, filter_In, <- list_elem_of_In, keys_order.
  rewrite !andb_true_iff, !negb_true_iff, bool_decide_eq_false, bool_decide_eq_false, Hr.
  unfold starts. tauto.
Qed.

(** A second run of the characterisation: [dead] is reported, [used] and
    [main] are not. *)
Lemma DetectDeadCode_unused_example :
  UnusedFunctions (DetectDeadCode example_dead ["main"; "complex"]) = ["dead"].
Proof. vm_compute. reflexivity. Qed.

(* ------------------------------------------------------------------ *)
(** ** Properties of the report of GetAnalysis *)

(** X1: every record of the report of [GetAnalysis] has an empty
    [Callees] list and [IsRecursive = false]: [AnalyzeFile] never fills
    the callees, so [detectRecursion] finds no call edge to mark. *)
Theorem GetAnalysis_never_recursive (files : list (string * ParseResult))
    (fns : list FunctionCall) (r : FunctionCall) :
  GetAnalysis files = Ok fns -> r ∈ fns ->
  Callees r = [] /\ IsRecursive r = false.
Proof.
  intros Hf Hr.
  destruct (GetAnalysis_elem files fns r Hf Hr) as (fm & k & r0 & _ & Hno & Hk & ->).
  destruct (Hno k r0 Hk) as (_ & Hc & Hrec).
  unfold set_IsUnused. cbn [Callees IsRecursive]. auto.
Qed.

Lemma GetAnalysis_never_recursive_witness :
  GetAnalysis [("main.go", Parsed example_call_file)] = Ok example_call_report /\
  Callees (reported_fn "main" "main.go" "main" false false) = [] /\
  IsRecursive (reported_fn "main" "main.go" "main" false false) = false.
Proof.
  assert (H : GetAnalysis [("main.go", Parsed example_call_file)] = Ok example_call_report)
    by (vm_compute; reflexivity).
  split; [exact H|].
  apply (GetAnalysis_never_recursive _ _ _ H). apply list_elem_of_here.
Defined.

(** X2: in the report of [GetAnalysis], a record is marked unused exactly
    when its [Caller] is not exported and is neither [main] nor
    [complex]: no call is ever followed, so a function called by [main]
    is still marked unused. *)
Theorem GetAnalysis_IsUnused (files : list (string * ParseResult))
    (fns : list FunctionCall) (r : FunctionCall) :
  GetAnalysis files = Ok fns -> r ∈ fns ->
  (IsUnused (Metrics r) = true <->
   isExported (Caller r) = false /\ Caller r <> "main" /\ Caller r <> "complex").
Proof.
  intros Hf Hr.
  destruct (GetAnalysis_elem files fns r Hf Hr) as (fm & k & r0 & _ & Hno & Hk & ->).
  unfold set_IsUnused. cbn [Metrics IsUnused Caller].
  destruct (Hno k r0 Hk) as (Hcal & _ & _). rewrite Hcal.
  rewrite bool_decide_eq_true.
  rewrite (DetectDeadCode_no_callees fm ["main"; "complex"] k
             (fun k' r' H' => proj1 (proj2 (Hno k' r' H')))).
  split.
  - intros (_ & Hexp & Hn). split; [done|].
    split; intros ->; apply Hn; [left|right; left].
  - intros (Hexp & H1 & H2). split; [by exists r0|]. split; [done|].
    intros Hin. apply elem_of_cons in Hin as [?|Hin]; [done|].
    apply elem_of_cons in Hin as [?|Hin]; [done|]. by apply elem_of_nil in Hin.
Qed.

Lemma GetAnalysis_IsUnused_witness :
  GetAnalysis [("main.go", Parsed example_call_file)] = Ok example_call_report /\
  (IsUnused (Metrics (reported_fn "helper" "main.go" "main" false true)) = true <->
   isExported "helper" = false /\ "helper" <> "main" /\ "helper" <> "complex").
Proof.
  assert (H : GetAnalysis [("main.go", Parsed example_call_file)] = Ok example_call_report)
    by (vm_compute; reflexivity).
  split; [exact H|].
  apply (GetAnalysis_IsUnused _ _ (reported_fn "helper" "main.go" "main" false true) H).
  apply list_elem_of_further, list_elem_of_here.
Defined.

(** X3: in the report of [GetAnalysis], a method with a pointer receiver,
    whose [Caller] starts with ["*"], is always marked unused: its name
    never counts as exported. *)
Theorem GetAnalysis_pointer_method_unused (files : list (string * ParseResult))
    (fns : list FunctionCall) (r : FunctionCall) (rest : string) :
  GetAnalysis files = Ok fns -> r ∈ fns -> Caller r = String "*" rest ->
  IsUnused (Metrics r) = true.
Proof.
  intros Hf Hr Hstar.
  destruct (GetAnalysis_elem files fns r Hf Hr) as (fm & k & r0 & _ & Hno & Hk & ->).
  unfold set_IsUnused in *. cbn [Metrics IsUnused Caller] in *.
  destruct (Hno k r0 Hk) as (Hcal & _ & _). rewrite Hcal in *. subst k.
  apply bool_decide_eq_true.
  apply (DetectDeadCode_no_callees fm ["main"; "complex"] _
           (fun k' r' H' => proj1 (proj2 (Hno k' r' H')))).
  split; [by exists r0|]. split; [reflexivity|].
  intros Hin. apply elem_of_cons in Hin as [?|Hin]; [discriminate|].
  apply elem_of_cons in Hin as [?|Hin]; [discriminate|]. by apply elem_of_nil in Hin.
Qed.

Lemma GetAnalysis_pointer_method_unused_witness :
  GetAnalysis [("t.go", Parsed example_ptr_file)] = Ok [example_ptr_record] /\
  IsUnused (Metrics example_ptr_record) = true.
Proof.
  assert (H : GetAnalysis [("t.go", Parsed example_ptr_file)] = Ok [example_ptr_record])
    by (vm_compute; reflexivity).
  split; [exact H|].
  apply (GetAnalysis_pointer_method_unused _ _ _ "T.Run" H);
    [apply list_elem_of_here|reflexivity].
Defined.

(** X4: the report of [GetAnalysis] holds at most one record per
    [Caller] name. *)
Theorem GetAnalysis_Caller_NoDup (files : list (string * ParseResult))
    (fns : list FunctionCall) :
  GetAnalysis files = Ok fns -> NoDup (map Caller fns).
Proof.
  intros Hf. destruct (GetAnalysis_plain files fns Hf) as (fm & _ & Hno & ->).
  rewrite !map_map.
  rewrite (map_ext_in _ fst).
  - change (NoDup (map_to_list fm).*1). apply NoDup_fst_map_to_list.
  - intros [k v] Hin. apply list_elem_of_In, elem_of_map_to_list in Hin.
    exact (proj1 (Hno k v Hin)).
Qed.

Lemma GetAnalysis_Caller_NoDup_witness :
  GetAnalysis [("main.go", Parsed example_call_file)] = Ok example_call_report /\
  NoDup (map Caller example_call_report).
Proof.
  assert (H : GetAnalysis [("main.go", Parsed example_call_file)] = Ok example_call_report)
    by (vm_compute; reflexivity).
  split; [exact H|]. exact (GetAnalysis_Caller_NoDup _ _ H).
Defined.



(* ------------------------------------------------------------------ *)
(** ** Properties of AnalyzeFile and detectRecursion *)

(** X6: when two declarations of a file have the same full name (two
    [func init()], say), the record of the later one has [IsDuplicate =
    true] whatever its body, and the cyclomatic complexity of the first
    declaration with that name. *)
Theorem AnalyzeFile_repeated_name (path : string) (file : GoFile) (out : list FunctionCall)
    (i j : nat) (d d' : FuncDecl) (r : FunctionCall) :
  AnalyzeFile path (Parsed file) = Ok out ->
  file_funcs (Decls file) !! j = Some d' ->
  file_funcs (Decls file) !! i = Some d ->
  j < i -> methodName d' = methodName d ->
  out !! i = Some r ->
  IsDuplicate r = true /\
  exists j0 d0, j0 <= j /\ file_funcs (Decls file) !! j0 = Some d0 /\
    methodName d0 = methodName d /\
    (forall j1 d1, j1 < j0 -> file_funcs (Decls file) !! j1 = Some d1 ->
       methodName d1 <> methodName d) /\
    CyclomaticComplexity (Metrics r) = ComputeComplexity (decl_node d0).
Proof.
  intros Hout Hd' Hd Hji Hname Hr. simpl in Hout. injection Hout as <-.
  set (ds := file_funcs (Decls file)) in *.
  set (F := fun d => findFunctionDecl file (methodName d)).
  assert (Hall : forall x, x ∈ ds -> is_Some (F x))
    by (intros x Hx; by apply findFunctionDecl_some).
  destruct (Hall d ltac:(by eapply list_elem_of_lookup_2)) as [d0 Hd0].
  assert (Hfind := Hd0). unfold F, findFunctionDecl in Hfind. fold ds in Hfind.
  destruct (find_first _ _ _ Hfind) as (j0 & Hj0 & Hp & Hfirst).
  apply bool_decide_eq_true in Hp.
  assert (Hj0j : j0 <= j).
  { destruct (decide (j0 <= j)) as [|Hlt]; [done|]. exfalso.
    pose proof (Hfirst j d' ltac:(lia) Hd') as Hf. rewrite Hname in Hf.
    by apply bool_decide_eq_false in Hf. }
  split.
  - pose proof (metrics_loop_dup file path (PkgName file) ds Hall ∅) as Hdup.
    assert (Hfl : omap F ds !! i = Some d0) by (rewrite omap_lookup_total, Hd; done).
    assert (Hfl' : omap F ds !! j = Some d0).
    { rewrite omap_lookup_total, Hd' by done. cbn. unfold F. by rewrite Hname. }
    destruct (detect_all_lookup ∅ (omap F ds) i d0 Hfl) as [b [Hb Hiff]].
    assert (HIr : map IsDuplicate (metrics_loop file ∅ (map (new_call path (PkgName file)) ds))
                    !! i = Some (IsDuplicate r)) by (rewrite list_lookup_fmap, Hr; done).
    fold F in Hdup. rewrite Hdup, Hb in HIr. injection HIr as <-.
    apply Hiff. right. exists j, d0. auto.
  - exists j0, d0. split; [done|]. split; [done|]. split; [done|]. split.
    + intros j1 d1 Hj1 Hd1 He. pose proof (Hfirst j1 d1 Hj1 Hd1) as Hf.
      by apply bool_decide_eq_false in Hf.
    + destruct (metrics_loop_lookup_found _ _ _ i r Hr) as (fn & Hfn & _ & HCC).
      rewrite list_lookup_fmap, Hd in Hfn. injection Hfn as <-.
      cbn [new_call Caller] in HCC. unfold F in Hd0; rewrite Hd0 in HCC. exact HCC.
Qed.

Lemma AnalyzeFile_repeated_name_witness :
  AnalyzeFile "a.go" (Parsed example_init_file) =
    Ok [analyzed_ret "init" false; analyzed_ret "init" true] /\
  IsDuplicate (analyzed_ret "init" true) = true /\
  ComputeComplexity (decl_node example_if_init) = 2.
Proof.
  assert (H : AnalyzeFile "a.go" (Parsed example_init_file) =
              Ok [analyzed_ret "init" false; analyzed_ret "init" true])
    by (vm_compute; reflexivity).
  split; [exact H|]. split; [|vm_compute; reflexivity].
  exact (proj1 (AnalyzeFile_repeated_name "a.go" example_init_file _ 1 0
                  example_if_init (empty_func "init") _ H eq_refl eq_refl
                  ltac:(lia) eq_refl eq_refl)).
Defined.

(** X7: [detectRecursion] keeps the keys of the map, and the record of
    each key is either unchanged or the same record with [IsRecursive]
    set to [true]: it never clears the flag nor changes another field. *)
Theorem detectRecursion_only_marks (fns : gmap string FunctionCall) (k : string) :
  match fns !! k with
  | None => detectRecursion fns !! k = None
  | Some f => detectRecursion fns !! k = Some f \/
              detectRecursion fns !! k = Some (set_IsRecursive f)
  end.
Proof.
  unfold detectRecursion.
  pose proof (detectRecursion_in_correct fns _ (map_to_list_keys fns) k) as Hc.
  destruct (fns !! k) as [f|]; [|exact Hc].
  destruct Hc as (f' & Hf' & [->| ->] & _); auto.
Qed.

(* ------------------------------------------------------------------ *)
(** ** Properties of the hash and of duplicate detection *)

(** X8: [rabinKarpHash] is the polynomial hash in base 31 modulo [2^64]:
    the hash of [s ++ t] is the hash of [s] shifted by the length of [t]
    plus the hash of [t], modulo [2^64]; every hash lies in
    [[0, 2^64)]. *)
Theorem rabinKarpHash_concat (s t : string) :
  rabinKarpHash (s ++ t) =
    ((rabinKarpHash s * 31 ^ Z.of_nat (String.length t) + rabinKarpHash t) mod 2 ^ 64)%Z /\
  (0 <= rabinKarpHash s < 2 ^ 64)%Z.
Proof. split; [apply rabinKarpHash_app|apply rabinKarpHash_range]. Qed.

(** X9: two declarations whose extracted bodies differ only in one
    infix of the same length with the same hash (["Aa"] and ["BB"], say)
    collide: on one detector, the second is reported as a duplicate of
    the first. *)
Theorem DetectDuplication_collision (seen : gmap Z string) (f g : FuncDecl) (s a b t : string) :
  extractFunctionBody f = s ++ a ++ t ->
  extractFunctionBody g = s ++ b ++ t ->
  rabinKarpHash a = rabinKarpHash b ->
  String.length a = String.length b ->
  fst (DetectDuplication (snd (DetectDuplication seen f)) g) = true.
Proof.
  intros Hf Hg Hh Hl.
  assert (Hlen : String.length (a ++ t) = String.length (b ++ t)).
  { rewrite <- !length_list_ascii_of_string, !list_ascii_of_string_app, !length_app,
      !length_list_ascii_of_string. lia. }
  assert (Heq : rabinKarpHash (extractFunctionBody g) = rabinKarpHash (extractFunctionBody f)).
  { rewrite Hf, Hg, (rabinKarpHash_app s (a ++ t)), (rabinKarpHash_app s (b ++ t)), Hlen.
    by rewrite (rabinKarpHash_app a t), (rabinKarpHash_app b t), Hh. }
  unfold DetectDuplication at 2.
  destruct (seen !! rabinKarpHash (extractFunctionBody f)) as [x|] eqn:E; cbn [fst snd];
    unfold DetectDuplication; rewrite Heq.
  - by rewrite E.
  - by rewrite lookup_insert_eq.
Qed.

Lemma DetectDuplication_collision_witness :
  extractFunctionBody (example_return_ident "f" "Aa") = "return Aa" /\
  extractFunctionBody (example_return_ident "g" "BB") = "return BB" /\
  fst (DetectDuplication (snd (DetectDuplication ∅ (example_return_ident "f" "Aa")))
         (example_return_ident "g" "BB")) = true.
Proof.
  split; [vm_compute; reflexivity|]. split; [vm_compute; reflexivity|].
  apply (DetectDuplication_collision ∅ _ _ "return " "Aa" "BB" EmptyString);
    vm_compute; reflexivity.
Defined.

(* ------------------------------------------------------------------ *)
(** ** Properties of the complexity and readability metrics *)

(** X10: the cognitive [Score] is [LogicalOps + BranchingScore], plus one
    when [BranchingScore > 0]: the nesting depth never adds to it. *)
Theorem ComputeCognitiveComplexity_Score (fn : FuncDecl) :
  Score (ComputeCognitiveComplexity fn) =
    LogicalOps (ComputeCognitiveComplexity fn) + CogBranchingScore (ComputeCognitiveComplexity fn) +
    (if Nat.ltb 0 (CogBranchingScore (ComputeCognitiveComplexity fn)) then 1 else 0).
Proof.
  pose proof (visit_cc_inv (fd_body fn) 0
    {| cc_Score := 0; cc_LogicalOps := 0; cc_BranchingScore := 0; cc_maxDepth := 0 |}) as H.
  unfold cc_good in H. cbn [cc_Score cc_LogicalOps cc_BranchingScore cc_maxDepth] in H.
  unfold ComputeCognitiveComplexity. cbn [Score LogicalOps CogBranchingScore].
  set (st := recursiveVisit _ _ _) in *.
  destruct (Nat.ltb_spec 0 (cc_BranchingScore st)); lia.
Qed.

(** X11: the [NestedDepth] of the cognitive metrics is at most its
    [BranchingScore]: each level of depth is entered through a counted
    [if], [for], [range] or [switch]. *)
Theorem ComputeCognitiveComplexity_depth (fn : FuncDecl) :
  NestedDepth (ComputeCognitiveComplexity fn) <= CogBranchingScore (ComputeCognitiveComplexity fn).
Proof.
  pose proof (visit_cc_inv (fd_body fn) 0
    {| cc_Score := 0; cc_LogicalOps := 0; cc_BranchingScore := 0; cc_maxDepth := 0 |}) as H.
  unfold cc_good in H. cbn [cc_Score cc_LogicalOps cc_BranchingScore cc_maxDepth] in H.
  unfold ComputeCognitiveComplexity. cbn [NestedDepth CogBranchingScore]. lia.
Qed.

(** X12: the [NestingDepth] of [ComputeReadabilityMetrics] is less than
    its [CyclomaticPoints] (the number of [if], [for], [switch] and
    [select] statements plus one). *)
Theorem ComputeReadabilityMetrics_nesting (fn : FuncDecl) (doc : list string) (loc : nat) :
  NestingDepth (ComputeReadabilityMetrics fn doc loc) <
    CyclomaticPoints (ComputeReadabilityMetrics fn doc loc).
Proof.
  pose proof (visit_rd_inv (readability_node fn doc) 0
    {| acc_branchCount := 0; acc_commentCount := 0; acc_maxNesting := 0 |}) as H.
  unfold rd_good in H. cbn [acc_branchCount acc_commentCount acc_maxNesting] in H.
  unfold ComputeReadabilityMetrics.
  destruct (Nat.ltb 0 loc); cbn [NestingDepth CyclomaticPoints]; lia.
Qed.

(* ------------------------------------------------------------------ *)
(** ** Properties of GenerateCodeSummary *)

(** X13: [isHotspot] holds exactly when [identifyIssues] reports an
    issue other than ["High cognitive complexity"]: a function whose only
    issue is a high cognitive score is not a hotspot. *)
Theorem isHotspot_issues (m : ReportMetrics) :
  isHotspot m = true <->
  exists issue, issue ∈ identifyIssues m /\ issue <> "High cognitive complexity".
Proof.
  unfold isHotspot, identifyIssues.
  destruct (Z.ltb 10 _), (Z.ltb 4 _), (Rlt_dec _ 50), (Z.ltb 15 _); cbn; split;
    try (intros _; eexists; split; [apply list_elem_of_here|discriminate]);
    try done;
    intros (issue & Hi & Hne);
    repeat (apply elem_of_cons in Hi as [->|Hi]; [congruence|]);
    by apply elem_of_nil in Hi.
Qed.

(** X14: the [Hotspots] of the summary are the functions for which
    [isHotspot] holds, each turned into its [HotspotFunction] (so each
    with at least one issue), sorted by complexity, highest first. *)
Theorem GenerateCodeSummary_hotspots (fns : list ReportFunction) :
  cs_Hotspots (GenerateCodeSummary fns) ≡ₚ
    map to_hotspot (List.filter (fun fn => isHotspot (rf_Metrics fn)) fns) /\
  (forall i j h1 h2, i < j ->
     cs_Hotspots (GenerateCodeSummary fns) !! i = Some h1 ->
     cs_Hotspots (GenerateCodeSummary fns) !! j = Some h2 ->
     (hs_Complexity h2 <= hs_Complexity h1)%Z) /\
  (forall h, h ∈ cs_Hotspots (GenerateCodeSummary fns) -> hs_Issues h <> []).
Proof.
  destruct (GenerateCodeSummary_loop fns) as (_ & _ & _ & _ & _ & _ & Hh).
  rewrite Hh, summary_fold_hotspots. cbn [ss_summary empty_summary cs_Hotspots app].
  unfold sort_hotspots.
  set (l := map to_hotspot (List.filter _ fns)).
  split; [apply merge_sort_Permutation|split].
  - intros i j h1 h2 Hij H1 H2.
    exact (StronglySorted_lookup hs_ge _ (StronglySorted_merge_sort hs_ge l) i j h1 h2 Hij H1 H2).
  - intros h Hin. apply list_elem_of_In in Hin.
    apply (Permutation_in _ (merge_sort_Permutation hs_ge l)) in Hin.
    unfold l in Hin. apply in_map_iff in Hin as (fn & <- & Hfn).
    apply filter_In in Hfn as [_ Hhot].
    exact (isHotspot_identifyIssues _ Hhot).
Qed.

(** X15: the counters of the summary: [TotalFunctions] is the number of
    functions, [UnusedFunctions], [RecursiveFunctions] and [DuplicateCode]
    the numbers of functions with the flag set, and [TotalLines] the sum
    of the [LinesOfCode], wrapped as a 64-bit [int]. *)
Theorem GenerateCodeSummary_counts (fns : list ReportFunction) :
  cs_TotalFunctions (GenerateCodeSummary fns) = length fns /\
  cs_UnusedFunctions (GenerateCodeSummary fns) =
    length (List.filter (fun fn => rm_IsUnused (rf_Metrics fn)) fns) /\
  cs_RecursiveFunctions (GenerateCodeSummary fns) = length (List.filter rf_IsRecursive fns) /\
  cs_DuplicateCode (GenerateCodeSummary fns) = length (List.filter rf_IsDuplicate fns) /\
  cs_TotalLines (GenerateCodeSummary fns) =
    int_wrap (sumZ (map (fun fn => rm_LinesOfCode (rf_Metrics fn)) fns)).
Proof.
  destruct (GenerateCodeSummary_loop fns) as (H1 & H2 & H3 & H4 & H5 & _ & _).
  rewrite H1, H2, H3, H4, H5.
  set (st0 := {| ss_summary := empty_summary; ss_totalComplexity := 0;
                 ss_totalMaintainability := 0; ss_totalNesting := 0 |}).
  destruct (summary_fold_counts fns st0) as (C1 & C2 & C3 & C4).
  rewrite C1, C2, C3, C4, summary_fold_lines by (vm_compute; reflexivity).
  cbn [st0 ss_summary empty_summary cs_TotalFunctions cs_UnusedFunctions
       cs_RecursiveFunctions cs_DuplicateCode cs_TotalLines].
  rewrite Z.add_0_l. auto.
Qed.

(** X16: [ComplexityDistribution] maps ["Low"], ["Medium"] and ["High"]
    to the number of functions of cyclomatic complexity at most 5, from
    6 to 10, and above 10; a bucket with no function is absent, there is
    no other key, and the counts add up to the number of functions. *)
Theorem GenerateCodeSummary_distribution (fns : list ReportFunction) (k : string) :
  let n := length (List.filter (fun fn =>
             String.eqb (complexity_bucket (rm_CyclomaticComplexity (rf_Metrics fn))) k) fns) in
  cs_ComplexityDistribution (GenerateCodeSummary fns) !! k =
    (if Nat.eqb n 0 then None else Some n) /\
  (is_Some (cs_ComplexityDistribution (GenerateCodeSummary fns) !! k) ->
     k = "Low" \/ k = "Medium" \/ k = "High") /\
  map_total (cs_ComplexityDistribution (GenerateCodeSummary fns)) = length fns.
Proof.
  intros n.
  destruct (GenerateCodeSummary_loop fns) as (_ & _ & _ & _ & _ & Hd & _).
  rewrite Hd.
  set (st0 := {| ss_summary := empty_summary; ss_totalComplexity := 0;
                 ss_totalMaintainability := 0; ss_totalNesting := 0 |}).
  destruct (summary_fold_dist fns st0) as (Hpos & Hget & Htot).
  { intros j c. cbn. by rewrite lookup_empty. }
  set (dist := cs_ComplexityDistribution (ss_summary (fold_left summary_step fns st0))) in *.
  assert (Hn : map_get dist k = n).
  { rewrite Hget. cbn [st0 ss_summary empty_summary cs_ComplexityDistribution].
    unfold map_get at 1. rewrite lookup_empty. done. }
  assert (Hlook : dist !! k = (if Nat.eqb n 0 then None else Some n)).
  { unfold map_get in Hn. destruct (dist !! k) as [c|] eqn:E.
    - pose proof (Hpos k c E). destruct (Nat.eqb_spec n 0); [lia|]. by subst c.
    - destruct (Nat.eqb_spec n 0); [done|lia]. }
  split; [exact Hlook|]. split.
  - rewrite Hlook. destruct (Nat.eqb_spec n 0) as [|Hn0]; [by intros []|intros _].
    unfold n in Hn0.
    destruct (List.filter _ fns) as [|fn l] eqn:Ef; [cbn in Hn0; lia|].
    assert (Hfn : In fn (List.filter (fun fn =>
              String.eqb (complexity_bucket (rm_CyclomaticComplexity (rf_Metrics fn))) k) fns))
      by (rewrite Ef; left; done).
    apply filter_In in Hfn as [_ Hb]. apply String.eqb_eq in Hb. rewrite <- Hb.
    unfold complexity_bucket.
    destruct (Z.leb (rm_CyclomaticComplexity (rf_Metrics fn)) 5),
      (Z.leb (rm_CyclomaticComplexity (rf_Metrics fn)) 10); auto.
  - rewrite Htot. cbn [st0 ss_summary empty_summary cs_ComplexityDistribution].
    unfold map_total. rewrite map_fold_empty. lia.
Qed.
